(** * Gmail AI Reception: the profile-driven scoring pipeline

    A shallow embedding of [content-script.js]: the mail gateway
    ([fetchMessages], [modifyEmail]), the profile builder
    ([generateUserProfile]), the scoring loop ([scoreRecentEmails]), the
    presentation sink ([renderEmails]) and the workflow that ties them
    together ([analyzeAndDisplayEmails]).

    Promises are modelled by their settled value ([Fetched]), exceptions by
    [Result], the network, the language-model session and the clock by
    explicit arguments, and every in-place update of a JavaScript array by the
    list it leaves behind. *)

From Stdlib Require Import ZArith Lia Ascii.
From stdpp Require Import base list sorting strings pretty gmap.
From Equations Require Import Equations.

Open Scope Z_scope.

(** ** JavaScript values and control *)

(** A settled promise: [await p] either yields a value or throws. *)
Inductive Fetched (A : Type) : Type :=
  | Rejected
  | Resolved (a : A).
Arguments Rejected {A}.
Arguments Resolved {A} a.

(** The completion of an [async function]: it returns, or the promise it
    gave back is rejected with [new Error(message)]. *)
Inductive Result (A : Type) : Type :=
  | Return (a : A)
  | Throw (message : string).
Arguments Return {A} a.
Arguments Throw {A} message.

(** [Promise.all(promises)]: the values in order when every promise is
    fulfilled, a rejection as soon as one is rejected. *)
Fixpoint promiseAll {A} (promises : list (Fetched A)) : Fetched (list A) :=
  match promises with
  | [] => Resolved []
  | Rejected :: _ => Rejected
  | Resolved a :: rest =>
      match promiseAll rest with
      | Rejected => Rejected
      | Resolved l => Resolved (a :: l)
      end
  end.

(** [array.slice(start, stop)] for [0 <= start <= stop]. *)
Definition slice {A} (start stop : nat) (l : list A) : list A :=
  take (stop - start) (drop start l).

(** [array.findIndex(p)]: the first index whose element satisfies [p],
    [-1] when there is none. *)
Definition findIndex {A} (P : A → Prop) `{∀ x, Decision (P x)} (l : list A) : Z :=
  match list_find P l with
  | Some (i, _) => Z.of_nat i
  | None => -1
  end.

(** [array.find(p)]. *)
Definition find_first {A} (P : A → Prop) `{∀ x, Decision (P x)} (l : list A) : option A :=
  snd <$> list_find P l.

(** [array.sort(compare)].  ECMAScript requires the sort to be stable: [a]
    is placed before [b] when [compare(a, b) < 0], after it when
    [compare(a, b) > 0], and the two keep their order when it is [0].  For a
    consistent comparator that fixes the result, which is computed here by
    insertion from the right. *)
Fixpoint sort_insert {A} (compare : A → A → Z) (a : A) (sorted : list A) : list A :=
  match sorted with
  | [] => [a]
  | b :: rest =>
      if compare a b <=? 0 then a :: b :: rest
      else b :: sort_insert compare a rest
  end.

Fixpoint Array_sort {A} (compare : A → A → Z) (l : list A) : list A :=
  match l with
  | [] => []
  | a :: rest => sort_insert compare a (Array_sort compare rest)
  end.

(** [s.toLowerCase()] on the ASCII letters. *)
Definition lower_ascii (c : Ascii.ascii) : Ascii.ascii :=
  let n := Ascii.nat_of_ascii c in
  if (Nat.leb 65 n && Nat.leb n 90)%bool then Ascii.ascii_of_nat (n + 32) else c.

Fixpoint toLowerCase (s : string) : string :=
  match s with
  | EmptyString => EmptyString
  | String c rest => String (lower_ascii c) (toLowerCase rest)
  end.

(** ** Data model *)

Record Header := { name : string; value : option string }.

(** [payload.headers] may be missing from a message. *)
Record Payload := { headers : option (list Header) }.

(** A message as [GET /messages/{id}?format=full] returns it. *)
Record MessageDetail := {
  email_id : string;
  snippet : option string;
  payload : option Payload }.

Record MessageRef := { ref_id : string }.

Record AnalysisResult := {
  result_id : string;
  score : Z;
  summarizedTitle : string;
  summaryPoints : list string;
  positiveReasons : list string;
  negativeReasons : list string }.

(** An element of [processedEmails]: [{...email, analysisData}]. *)
Record ScoredMessage := {
  email : MessageDetail;
  analysisData : AnalysisResult }.

Record UserProfile := {
  highPrioritySenders : list string;
  highPriorityKeywords : list string;
  lowPrioritySenders : list string;
  lowPriorityKeywords : list string }.

(** What the prompts show of a message. *)
Record SimpleEmail := { simple_from : string; simple_subject : string }.

Record EmailToScore := {
  ets_id : string;
  ets_from : string;
  ets_subject : string;
  ets_snippet : string }.

Global Instance Header_eq_dec : EqDecision Header.
Proof. solve_decision. Defined.
Global Instance Payload_eq_dec : EqDecision Payload.
Proof. solve_decision. Defined.
Global Instance MessageDetail_eq_dec : EqDecision MessageDetail.
Proof. solve_decision. Defined.
Global Instance AnalysisResult_eq_dec : EqDecision AnalysisResult.
Proof. solve_decision. Defined.
Global Instance ScoredMessage_eq_dec : EqDecision ScoredMessage.
Proof. solve_decision. Defined.

(** ** Configuration *)

Definition SCORE_THRESHOLD : Z := 40.
Definition PROFILE_REFRESH_INTERVAL : Z := 24 * 60 * 60 * 1000.
Definition BATCH_SIZE : nat := 5.
Definition concurrency : nat := 8.

(** ** Session state and persistence *)

(** The global [state], with the session type of the language model left
    open.  [None] stands for [null] and every other value that [!] takes for
    absent. *)
Record State (Session : Type) := {
  accessToken : option string;
  isSignedIn : bool;
  aiSession : option Session;
  isTranslatorAvailable : bool }.
Arguments accessToken {Session} _.
Arguments isSignedIn {Session} _.
Arguments aiSession {Session} _.
Arguments isTranslatorAvailable {Session} _.

(** [chrome.storage.local], restricted to the two [STORAGE_KEYS]. *)
Record Storage := {
  USER_PROFILE : option UserProfile;
  LAST_ANALYSIS_TIMESTAMP : option Z }.

(** ** External interfaces *)

Inductive Query :=
  | ImportantOrStarred        (* "is:important or is:starred" *)
  | UnreadOlderThan2d         (* "is:unread older_than:2d" *)
  | InSpam                    (* "in:spam" *)
  | InTrash                   (* "in:trash" *)
  | RecentUnread (after : Z). (* "is:inbox is:unread after:<seconds>" *)

(** The body of a list response: [{messages: [{id}]}] or [{}]. *)
Record ListJson := { messages : option (list MessageRef) }.

Record ListResponse := {
  list_status : Z;
  list_json : Fetched ListJson }.

(** A modify response; [modify_json] is [error.message] of the body
    [{error: {message}}], [None] when the body has another shape. *)
Record ModifyResponse := {
  modify_status : Z;
  modify_json : Fetched (option string) }.

(** [response.ok], which the Fetch standard defines as a status in the
    range 200 to 299. *)
Definition response_ok (status : Z) : bool :=
  (200 <=? status) && (status <=? 299).

(** The mail store as the script reaches it through [fetch]. *)
Record Network := {
  fetch_list : string → Query → nat → Fetched ListResponse;
  (* fetch(.../messages/{id}?format=full).then((r) => r.json()): the body of
     the response, parsed.  The script does not look at the status of a detail
     response, so [Resolved d] is any response whose body parses, and [d] is
     the message resource it carries; a body that is no message resource, such
     as the error object of a 404, has no [id] and is not a [MessageDetail]:
     the mail stores spoken of here answer a detail request with a message
     resource or not at all. *)
  fetch_message : string → string → Fetched MessageDetail;
  fetch_modify : string → string → list string → list string → Fetched ModifyResponse }.

(** What [JSON.parse(await session.prompt(...))] evaluates to in the scoring
    loop, as far as the [try] block tells answers apart.  Of an array only the
    entries that carry an [id] are kept, the others being skipped by
    [findIndex]; a [null] entry makes [analysisResult.id] throw, after the
    entries before it were merged. *)
Inductive BatchOutcome :=
  | PromptFailed                              (* prompt() rejects or JSON.parse throws *)
  | ParsedNotArray                            (* a JSON value that is not an array *)
  | ParsedArray (batchResults : list AnalysisResult)
  | ParsedArrayNull (batchResults : list AnalysisResult).
                                              (* an array, [batchResults] then [null] *)

(** The built-in language model: a session carries its conversation, so a
    prompt returns the session it leaves behind. *)
Class LanguageModel (Session : Type) := {
  prompt_profile :
    Session → list SimpleEmail * list SimpleEmail * list SimpleEmail * list SimpleEmail →
    Fetched UserProfile * Session;
  prompt_scores :
    Session → UserProfile → list EmailToScore → BatchOutcome * Session }.

(** What the script makes observable, in order. *)
Inductive Event :=
  | Status (s : string)                       (* setStatus(s) *)
  | ConsoleError (s : string)                 (* console.error(..., err), told by [s] *)
  | CallGenerateUserProfile                   (* generateUserProfile() entered *)
  | Prompted (emailsToScore : list EmailToScore) (outcome : BatchOutcome)
  | BatchProcessed (emails : list ScoredMessage). (* onBatchProcessed(emails) *)

(** The page as [renderEmails] leaves it: one card per message. *)
Record Card := {
  card_emailId : string;
  card_snippet : string;
  card_lowPriority : bool;
  card_score : option Z;                      (* [None] is shown as "..." *)
  card_title : string;
  card_sender : string;
  card_summaryPoints : list string;
  card_positive : list string;
  card_negative : list string }.

Inductive Dom :=
  | Blank
  | Spinner
  | NoEmails
  | ErrorMessage (message : string)
  | Cards (cards : list Card).

(** Everything the script reads and writes outside its local variables. *)
Record World (Session : Type) := {
  state : State Session;
  storage : Storage;
  emailsEl : Dom;
  log : list Event }.
Arguments state {Session} _.
Arguments storage {Session} _.
Arguments emailsEl {Session} _.
Arguments log {Session} _.

Section Script.

Context {Session : Type} `{LM : LanguageModel Session}.
Variable net : Network.

Definition emit (e : Event) (w : World Session) : World Session :=
  {| state := state w; storage := storage w; emailsEl := emailsEl w;
     log := log w ++ [e] |}.

Definition setStatus (s : string) : World Session → World Session :=
  emit (Status s).

Definition set_session (s : Session) (w : World Session) : World Session :=
  {| state := {| accessToken := accessToken (state w);
                 isSignedIn := isSignedIn (state w);
                 aiSession := Some s;
                 isTranslatorAvailable := isTranslatorAvailable (state w) |};
     storage := storage w; emailsEl := emailsEl w; log := log w |}.

Definition set_storage (st : Storage) (w : World Session) : World Session :=
  {| state := state w; storage := st; emailsEl := emailsEl w; log := log w |}.

Definition set_emailsEl (d : Dom) (w : World Session) : World Session :=
  {| state := state w; storage := storage w; emailsEl := d; log := log w |}.

(** *** fetchMessages *)

(** The loop over [listJson.messages] in windows of [concurrency]. *)
Equations fetchDetails (token : string) (refs : list MessageRef) (i : nat)
    (details : list MessageDetail) : Result (list MessageDetail)
    by wf (length refs - i)%nat lt :=
  fetchDetails token refs i details with decide (i < length refs)%nat := {
    | left _ =>
        let batch := slice i (i + concurrency) refs in
        let promises := map (λ m, fetch_message net token (ref_id m)) batch in
        match promiseAll promises with
        | Rejected => Throw "Failed to fetch"
        | Resolved fetched =>
            fetchDetails token refs (i + concurrency) (details ++ fetched)
        end;
    | right _ => Return details }.
Next Obligation. unfold concurrency. lia. Qed.

(** The [try] block of [fetchMessages]. *)
Definition fetchMessages_try (token : string) (query : Query) (maxResults : nat)
    : Result (list MessageDetail) :=
  match fetch_list net token query maxResults with
  | Rejected => Throw "Failed to fetch"
  | Resolved listRes =>
      if negb (response_ok (list_status listRes))
      then Throw ("API list failed: " +:+ pretty (list_status listRes))
      else
        match list_json listRes with
        | Rejected => Throw "Unexpected token in JSON"
        | Resolved listJson =>
            match messages listJson with
            | None => Return []
            | Some refs => fetchDetails token refs 0 []
            end
        end
  end.

Definition fetchMessages (query : Query) (maxResults : nat) (w : World Session)
    : list MessageDetail * World Session :=
  match accessToken (state w) with
  | None => ([], w)
  | Some token =>
      match fetchMessages_try token query maxResults with
      | Return details => (details, w)
      | Throw message =>
          ([], emit (ConsoleError ("Failed to fetch messages: " +:+ message)) w)
      end
  end.

(** [(headers.find((h) => h.name.toLowerCase() === key) || {}).value || ""]
    with [headers = email.payload?.headers || []]. *)
Definition header_value (key : string) (e : MessageDetail) : string :=
  let headers := default [] (payload e ≫= headers) in
  default "" (find_first (λ h, toLowerCase (name h) = key) headers ≫= value).

Definition toSimpleList (emails : list MessageDetail) : list SimpleEmail :=
  map (λ e, {| simple_from := header_value "from" e;
               simple_subject := header_value "subject" e |}) emails.

(** *** generateUserProfile *)

Definition generateUserProfile (now : Z) (w : World Session)
    : Result UserProfile * World Session :=
  let w := emit CallGenerateUserProfile w in
  match aiSession (state w) with
  | None => (Throw "AI session not available.", w)
  | Some session =>
      let w := setStatus "Analyzing your historical email priorities..." w in
      let '(importantEmails, w) := fetchMessages ImportantOrStarred 15 w in
      let '(unreadEmails, w) := fetchMessages UnreadOlderThan2d 15 w in
      let '(spamEmails, w) := fetchMessages InSpam 10 w in
      let '(trashedEmails, w) := fetchMessages InTrash 10 w in
      let w := setStatus "Generating user profile with AI..." w in
      let '(result, session') :=
        prompt_profile session
          (toSimpleList importantEmails, toSimpleList unreadEmails,
           toSimpleList spamEmails, toSimpleList trashedEmails) in
      let w := set_session session' w in
      match result with
      | Resolved userProfile =>
          let w := set_storage {| USER_PROFILE := Some userProfile;
                                  LAST_ANALYSIS_TIMESTAMP := Some now |} w in
          (Return userProfile, w)
      | Rejected =>
          let w := emit (ConsoleError "Failed to parse user profile from AI:") w in
          (Throw "Could not generate user behavior profile.", w)
      end
  end.

(** *** scoreRecentEmails *)

(** The callback handed to [scoreRecentEmails].  It receives the array
    [processedEmails] itself, not a copy: it returns that array as it leaves
    it, and what it puts on the page. *)
Definition Sink : Type := list ScoredMessage → list ScoredMessage * Dom.

Definition placeholder (e : MessageDetail) : ScoredMessage :=
  {| email := e;
     analysisData := {| result_id := email_id e;
                        score := -1;
                        summarizedTitle := "Analyzing...";
                        summaryPoints := [];
                        positiveReasons := [];
                        negativeReasons := [] |} |}.

Definition failureRecord (id : string) : AnalysisResult :=
  {| result_id := id;
     score := 0;
     summarizedTitle := "AI analysis failed for this email.";
     summaryPoints := [];
     positiveReasons := [];
     negativeReasons := ["AI model failed to process this batch."] |}.

(** [processedEmails[emailIndex].analysisData = a] *)
Definition setAnalysisData (emailIndex : Z) (a : AnalysisResult)
    (processedEmails : list ScoredMessage) : list ScoredMessage :=
  alter (λ e, {| email := email e; analysisData := a |})
        (Z.to_nat emailIndex) processedEmails.

(** The callback of [batchResults.forEach]. *)
Definition applyResult (processedEmails : list ScoredMessage)
    (analysisResult : AnalysisResult) : list ScoredMessage :=
  let emailIndex :=
    findIndex (λ e, email_id (email e) = result_id analysisResult) processedEmails in
  if emailIndex >? -1
  then setAnalysisData emailIndex analysisResult processedEmails
  else processedEmails.

(** The callback of [batch.forEach] in the [catch] block. *)
Definition applyFailure (processedEmails : list ScoredMessage)
    (failedEmail : MessageDetail) : list ScoredMessage :=
  let emailIndex :=
    findIndex (λ e, email_id (email e) = email_id failedEmail) processedEmails in
  if emailIndex >? -1
  then setAnalysisData emailIndex (failureRecord (email_id failedEmail)) processedEmails
  else processedEmails.

(** The [try]/[catch] of one loop iteration, from the parsed answer on. *)
Definition mergeBatch (batch : list MessageDetail) (outcome : BatchOutcome)
    (processedEmails : list ScoredMessage) : list ScoredMessage :=
  match outcome with
  | ParsedArray batchResults => foldl applyResult processedEmails batchResults
  | ParsedNotArray => processedEmails
  | PromptFailed => foldl applyFailure processedEmails batch
  | ParsedArrayNull batchResults =>
      foldl applyFailure (foldl applyResult processedEmails batchResults) batch
  end.

Definition toEmailToScore (e : MessageDetail) : EmailToScore :=
  {| ets_id := email_id e;
     ets_from := header_value "from" e;
     ets_subject := header_value "subject" e;
     ets_snippet := default "" (snippet e) |}.

(** [onBatchProcessed(processedEmails)] *)
Definition callSink (onBatchProcessed : Sink) (processedEmails : list ScoredMessage)
    (w : World Session) : list ScoredMessage * World Session :=
  let '(processedEmails', page) := onBatchProcessed processedEmails in
  (processedEmails', set_emailsEl page (emit (BatchProcessed processedEmails) w)).

(** [await state.aiSession.prompt(...)] followed by [JSON.parse]; a session
    that has gone missing makes the call throw inside the [try]. *)
Definition promptBatch (userProfile : UserProfile) (emailsToScore : list EmailToScore)
    (w : World Session) : BatchOutcome * World Session :=
  match aiSession (state w) with
  | None => (PromptFailed, emit (Prompted emailsToScore PromptFailed) w)
  | Some session =>
      let '(outcome, session') := prompt_scores session userProfile emailsToScore in
      (outcome, emit (Prompted emailsToScore outcome) (set_session session' w))
  end.

(** One iteration of the [for] loop, at offset [i]. *)
Definition scoreBatch (userProfile : UserProfile) (onBatchProcessed : Sink)
    (recentEmails : list MessageDetail) (i : nat)
    (processedEmails : list ScoredMessage) (w : World Session)
    : list ScoredMessage * World Session :=
  let batch := slice i (i + BATCH_SIZE) recentEmails in
  let w := setStatus ("Analyzing emails " +:+ pretty (i + 1)%nat +:+ "-" +:+
                      pretty (Nat.min (i + BATCH_SIZE) (length recentEmails)) +:+
                      " of " +:+ pretty (length recentEmails) +:+ "...") w in
  let emailsToScore := map toEmailToScore batch in
  let '(outcome, w) := promptBatch userProfile emailsToScore w in
  let w := match outcome with
           | PromptFailed | ParsedArrayNull _ =>
               emit (ConsoleError "Batch scoring failed") w
           | _ => w
           end in
  callSink onBatchProcessed (mergeBatch batch outcome processedEmails) w.

(** [for (let i = 0; i < recentEmails.length; i += BATCH_SIZE)] *)
Equations scoreLoop (userProfile : UserProfile) (onBatchProcessed : Sink)
    (recentEmails : list MessageDetail) (i : nat)
    (processedEmails : list ScoredMessage) (w : World Session)
    : list ScoredMessage * World Session
    by wf (length recentEmails - i)%nat lt :=
  scoreLoop userProfile onBatchProcessed recentEmails i processedEmails w
    with decide (i < length recentEmails)%nat := {
    | left _ =>
        scoreLoop userProfile onBatchProcessed recentEmails (i + BATCH_SIZE)
          (scoreBatch userProfile onBatchProcessed recentEmails i processedEmails w).1
          (scoreBatch userProfile onBatchProcessed recentEmails i processedEmails w).2;
    | right _ => (processedEmails, w) }.
Next Obligation. unfold BATCH_SIZE. lia. Qed.

(** [twoDaysAgo] is the [getTime()] of the date two days before now. *)
Definition scoreRecentEmails (userProfile : UserProfile) (onBatchProcessed : Sink)
    (twoDaysAgo : Z) (w : World Session) : Result unit * World Session :=
  match aiSession (state w) with
  | None => (Throw "AI session not available.", w)
  | Some _ =>
      let w := setStatus "Fetching recent unread emails..." w in
      let timestampInSeconds := twoDaysAgo / 1000 in
      let '(recentEmails, w) := fetchMessages (RecentUnread timestampInSeconds) 7 w in
      if (length recentEmails =? 0)%nat
      then
        let w := setStatus "No unread emails in the last 2 days. You're all caught up! 🎉" w in
        (Return (), (callSink onBatchProcessed [] w).2)
      else
        let processedEmails := map placeholder recentEmails in
        let '(processedEmails, w) := callSink onBatchProcessed processedEmails w in
        (Return (), (scoreLoop userProfile onBatchProcessed recentEmails 0 processedEmails w).2)
  end.

(** The window [recentEmails] that [scoreRecentEmails] fetches. *)
Definition recentWindow (twoDaysAgo : Z) (w : World Session) : list MessageDetail :=
  (fetchMessages (RecentUnread (twoDaysAgo / 1000)) 7
     (setStatus "Fetching recent unread emails..." w)).1.

(** *** modifyEmail *)

Definition modifyEmail (messageId : string) (addLabelIds removeLabelIds : list string)
    (w : World Session) : Result bool * World Session :=
  match accessToken (state w) with
  | None => (Throw "Authentication token not found.", w)
  | Some token =>
      let failed message :=
        (Return false,
         emit (ConsoleError ("Failed to modify email " +:+ messageId +:+ ": " +:+ message)) w) in
      match fetch_modify net token messageId addLabelIds removeLabelIds with
      | Rejected => failed "Failed to fetch"
      | Resolved response =>
          if negb (response_ok (modify_status response))
          then
            match modify_json response with
            | Rejected => failed "Unexpected token in JSON"
            | Resolved None => failed "Cannot read properties of undefined"
            | Resolved (Some message) => failed ("API Error: " +:+ message)
            end
          else (Return true, w)
      end
  end.

Definition deleteEmail (messageId : string) := modifyEmail messageId ["TRASH"] [].
Definition markEmailAsRead (messageId : string) := modifyEmail messageId [] ["UNREAD"].

(** *** renderEmails *)

(** [(a, b) => b.analysisData.score - a.analysisData.score] *)
Definition byScoreDescending (a b : ScoredMessage) : Z :=
  score (analysisData b) - score (analysisData a).

(** The card of one message; its texts are kept as they are before
    [escapeHtml]. *)
Definition toCard (e : ScoredMessage) : Card :=
  let a := analysisData e in
  {| card_emailId := email_id (email e);
     card_snippet := default "" (snippet (email e));
     card_lowPriority := (0 <=? score a) && (score a <? SCORE_THRESHOLD);
     card_score := if score a <? 0 then None else Some (score a);
     card_title := summarizedTitle a;
     card_sender := header_value (toLowerCase "From") (email e);
     card_summaryPoints := summaryPoints a;
     card_positive := positiveReasons a;
     card_negative := negativeReasons a |}.

(** [emails.sort(...)] sorts the caller's array in place, so the sorted list
    is also what the caller holds afterwards. *)
Definition renderEmails (emails : list ScoredMessage) : list ScoredMessage * Dom :=
  if (length emails =? 0)%nat
  then (emails, NoEmails)
  else
    let emails := Array_sort byScoreDescending emails in
    (emails, Cards (map toCard emails)).

(** *** analyzeAndDisplayEmails *)

Definition handleBatchProcessing : Sink :=
  λ processedEmails, renderEmails processedEmails.

(** [!lastAnalysis]: the timestamp is missing, or it is the number [0]. *)
Definition falsy_timestamp (lastAnalysis : option Z) : bool :=
  match lastAnalysis with
  | None => true
  | Some t => t =? 0
  end.

(** Step "1/2" of [analyzeAndDisplayEmails]: the stored profile when there
    is one and it is fresh, a newly generated one otherwise.  [now] is
    [Date.now()] at the freshness test, [builtAt] is [Date.now()] when a new
    profile is stored. *)
Definition loadUserProfile (now builtAt : Z) (w : World Session)
    : Result UserProfile * World Session :=
  let w := setStatus "1/2: Loading user profile..." w in
  let userProfile := USER_PROFILE (storage w) in
  let lastAnalysis := LAST_ANALYSIS_TIMESTAMP (storage w) in
  let isProfileStale :=
    falsy_timestamp lastAnalysis
    || (now - default 0 lastAnalysis >? PROFILE_REFRESH_INTERVAL) in
  match userProfile with
  | Some profile =>
      if isProfileStale
      then generateUserProfile builtAt
             (setStatus "1/2: Profile is stale. Generating new one..." w)
      else (Return profile, setStatus "1/2: User profile loaded from storage." w)
  | None =>
      generateUserProfile builtAt
        (setStatus "1/2: No profile found. Generating new one..." w)
  end.

Definition analyzeAndDisplayEmails (now builtAt twoDaysAgo : Z) (w : World Session)
    : World Session :=
  if negb (isSignedIn (state w)) || negb (bool_decide (is_Some (aiSession (state w))))
  then setStatus "Please sign in first." w
  else
    let w := set_emailsEl Spinner w in
    let caught message w :=
      set_emailsEl (ErrorMessage ("An error occurred: " +:+ message))
        (setStatus ("Error: " +:+ message +:+ ". See console for details.")
           (emit (ConsoleError message) w)) in
    match loadUserProfile now builtAt w with
    | (Throw message, w) => caught message w
    | (Return userProfile, w) =>
        match scoreRecentEmails userProfile handleBatchProcessing twoDaysAgo w with
        | (Throw message, w) => caught message w
        | (Return _, w) =>
            setStatus "Analysis complete. All emails have been processed and sorted." w
        end
    end.

End Script.

(** ** A scripted language model and a scripted mail store

    Concrete collaborators for the examples: the model answers its prompts
    from a list prepared in advance, the mail store serves a fixed inbox. *)

Record Scripted := {
  profile_answers : list (Fetched UserProfile);
  score_answers : list BatchOutcome }.

Global Instance Scripted_model : LanguageModel Scripted := {
  prompt_profile s _ :=
    match profile_answers s with
    | [] => (Rejected, s)
    | a :: rest => (a, {| profile_answers := rest; score_answers := score_answers s |})
    end;
  prompt_scores s _ _ :=
    match score_answers s with
    | [] => (PromptFailed, s)
    | a :: rest => (a, {| profile_answers := profile_answers s; score_answers := rest |})
    end }.

Definition message (id : string) : MessageDetail :=
  {| email_id := id; snippet := None; payload := None |}.

(** A mail store whose recent-unread query lists [ids], whose other queries
    list nothing, and which serves every message. *)
Definition inbox (ids : list string) : Network :=
  {| fetch_list _ q _ :=
       Resolved {| list_status := 200;
                   list_json := Resolved {| messages :=
                     match q with
                     | RecentUnread _ => Some (map (λ i, {| ref_id := i |}) ids)
                     | _ => None
                     end |} |};
     fetch_message _ id := Resolved (message id);
     fetch_modify _ _ _ _ := Resolved {| modify_status := 200; modify_json := Rejected |} |}.

(** A mail store whose every request fails in transport. *)
Definition offline : Network :=
  {| fetch_list _ _ _ := Rejected;
     fetch_message _ _ := Rejected;
     fetch_modify _ _ _ _ := Rejected |}.

Definition signedIn (answers : list BatchOutcome) : World Scripted :=
  {| state := {| accessToken := Some "token";
                 isSignedIn := true;
                 aiSession := Some {| profile_answers := []; score_answers := answers |};
                 isTranslatorAvailable := false |};
     storage := {| USER_PROFILE := None; LAST_ANALYSIS_TIMESTAMP := None |};
     emailsEl := Blank;
     log := [] |}.

Definition noProfile : UserProfile :=
  {| highPrioritySenders := []; highPriorityKeywords := [];
     lowPrioritySenders := []; lowPriorityKeywords := [] |}.

Definition scored (id : string) (s : Z) : AnalysisResult :=
  {| result_id := id; score := s; summarizedTitle := "title";
     summaryPoints := []; positiveReasons := []; negativeReasons := [] |}.

(** ** Reading a log and a collection *)

(** The arguments of the successive calls of the sink. *)
Definition sinkCalls (l : list Event) : list (list ScoredMessage) :=
  omap (λ e, match e with BatchProcessed emails => Some emails | _ => None end) l.

(** The successive inference calls of the scoring loop, with their answers. *)
Definition promptCalls (l : list Event) : list (list EmailToScore * BatchOutcome) :=
  omap (λ e, match e with Prompted p o => Some (p, o) | _ => None end) l.

(** How many times the profile builder was entered. *)
Definition generateCalls (l : list Event) : nat :=
  length (omap (λ e, match e with CallGenerateUserProfile => Some () | _ => None end) l).

Definition ids (emails : list ScoredMessage) : list string :=
  map (λ e, email_id (email e)) emails.

(** The analysis a collection holds for the message [id]. *)
Definition analysisOf (id : string) (emails : list ScoredMessage) : option AnalysisResult :=
  analysisData <$> find_first (λ e, email_id (email e) = id) emails.

(** [Math.ceil(n / d)] *)
Definition ceilDiv (n d : nat) : nat := ((n + d - 1) / d)%nat.

(** The stored record is there and is at most [PROFILE_REFRESH_INTERVAL]
    old. *)
Definition recordFresh (now : Z) (st : Storage) : bool :=
  match USER_PROFILE st, LAST_ANALYSIS_TIMESTAMP st with
  | Some _, Some builtAt => now - builtAt <=? PROFILE_REFRESH_INTERVAL
  | _, _ => false
  end.

Definition signedOut : World Scripted :=
  {| state := {| accessToken := None;
                 isSignedIn := false;
                 aiSession := None;
                 isTranslatorAvailable := false |};
     storage := {| USER_PROFILE := None; LAST_ANALYSIS_TIMESTAMP := None |};
     emailsEl := Blank;
     log := [] |}.

(** ** The loop, seen from outside *)

(** [emails] with the analysis of the first message whose id is [id]
    replaced by [a]: the effect of [findIndex] followed by the assignment to
    [analysisData]. *)
Fixpoint overwrite (id : string) (a : AnalysisResult) (emails : list ScoredMessage)
    : list ScoredMessage :=
  match emails with
  | [] => []
  | e :: rest =>
      if decide (email_id (email e) = id)
      then {| email := email e; analysisData := a |} :: rest
      else e :: overwrite id a rest
  end.

(** The collections the loop hands to the sink from offset [i] on, when the
    model gives the answers [outcomes] in turn. *)
Fixpoint handedOver (onBatchProcessed : Sink) (recentEmails : list MessageDetail)
    (i : nat) (processedEmails : list ScoredMessage) (outcomes : list BatchOutcome)
    : list (list ScoredMessage) :=
  match outcomes with
  | [] => []
  | outcome :: rest =>
      let merged := mergeBatch (slice i (i + BATCH_SIZE) recentEmails) outcome processedEmails in
      merged :: handedOver onBatchProcessed recentEmails (i + BATCH_SIZE)
                  (onBatchProcessed merged).1 rest
  end.

(** The inference calls of the loop from offset [i] on, for the same
    answers. *)
Fixpoint asked (recentEmails : list MessageDetail) (i : nat) (outcomes : list BatchOutcome)
    : list (list EmailToScore * BatchOutcome) :=
  match outcomes with
  | [] => []
  | outcome :: rest =>
      (map toEmailToScore (slice i (i + BATCH_SIZE) recentEmails), outcome)
      :: asked recentEmails (i + BATCH_SIZE) rest
  end.

(** The answers the model gives when it is asked about [batches] batches
    in turn, from offset [i] on and starting in the session [session], and the
    session that the last answer leaves. *)
Fixpoint answered {Session} `{LanguageModel Session} (userProfile : UserProfile)
    (recentEmails : list MessageDetail) (i : nat) (session : Session) (batches : nat)
    : list BatchOutcome * Session :=
  match batches with
  | O => ([], session)
  | S batches =>
      let answer :=
        prompt_scores session userProfile
          (map toEmailToScore (slice i (i + BATCH_SIZE) recentEmails)) in
      let later :=
        answered userProfile recentEmails (i + BATCH_SIZE) answer.2 batches in
      (answer.1 :: later.1, later.2)
  end.

(** The batch of the iteration number [k]. *)
Definition batchAt (recentEmails : list MessageDetail) (k : nat) : list MessageDetail :=
  slice (k * BATCH_SIZE) (k * BATCH_SIZE + BATCH_SIZE) recentEmails.

(** The answer [outcome], given to the batch [ets], does not name the
    message [id]. *)
Definition untouchedBy (id : string) (ets : list EmailToScore) (outcome : BatchOutcome)
    : Prop :=
  match outcome with
  | ParsedArray batchResults => id ∉ map result_id batchResults
  | ParsedNotArray => True
  | PromptFailed => id ∉ map ets_id ets
  | ParsedArrayNull batchResults =>
      (id ∉ map result_id batchResults) ∧ (id ∉ map ets_id ets)
  end.

(** The entries of an answer that the [try] block merges. *)
Definition mergedEntries (outcome : BatchOutcome) : list AnalysisResult :=
  match outcome with
  | ParsedArray batchResults | ParsedArrayNull batchResults => batchResults
  | _ => []
  end.

(** The answer makes the [try] block throw, so that the [catch] block
    runs. *)
Definition throws (outcome : BatchOutcome) : bool :=
  match outcome with
  | PromptFailed | ParsedArrayNull _ => true
  | _ => false
  end.

(** The events logged from the world [w] to the world [w']. *)
Definition since {Session} (w w' : World Session) : list Event :=
  drop (length (log w)) (log w').

(** The position of the message [id] in the fetched window. *)
Definition fetchIndex (recentEmails : list MessageDetail) (id : string) : Z :=
  findIndex (λ m, email_id m = id) recentEmails.

Definition scoreOf (e : ScoredMessage) : Z := score (analysisData e).

(** Descending by score. *)
Definition descending (a b : ScoredMessage) : Prop := scoreOf b ≤ scoreOf a.

(** A message still at its placeholder. *)
Definition pending (e : ScoredMessage) : Prop := scoreOf e = -1.

(** [e] was fetched before [e']. *)
Definition fetchedBefore (recentEmails : list MessageDetail) (e e' : ScoredMessage) : Prop :=
  fetchIndex recentEmails (email_id (email e))
  < fetchIndex recentEmails (email_id (email e')).

(** Descending by score, and in the order of the fetch where scores are
    equal. *)
Definition presentationOrder (recentEmails : list MessageDetail)
    (e e' : ScoredMessage) : Prop :=
  scoreOf e' < scoreOf e ∨ (scoreOf e = scoreOf e' ∧ fetchedBefore recentEmails e e').

(** In the order of the fetch where scores are equal. *)
Definition tieOrder (recentEmails : list MessageDetail) (e e' : ScoredMessage) : Prop :=
  scoreOf e = scoreOf e' → fetchedBefore recentEmails e e'.

(** Nothing scored comes after a pending message. *)
Definition pendingLast (e e' : ScoredMessage) : Prop := pending e → pending e'.

(** [e'] is [e], with a new analysis only if [e] is a message of [batch]. *)
Definition rescored (batch : list MessageDetail) (e e' : ScoredMessage) : Prop :=
  email e' = email e
  ∧ (analysisData e' = analysisData e
     ∨ (email_id (email e) ∈ map email_id batch ∧ -1 ≤ scoreOf e')).

(** The messages from offset [5k] on are still pending in a collection that
    holds [e]. *)
Definition unscoredFrom (recentEmails : list MessageDetail) (k : nat)
    (e : ScoredMessage) : Prop :=
  Z.of_nat (k * BATCH_SIZE) ≤ fetchIndex recentEmails (email_id (email e)) → pending e.

(** The answer names only messages it was asked about, with scores that are
    not below the placeholder's. *)
Definition answersOwnBatch (ets : list EmailToScore) (outcome : BatchOutcome) : Prop :=
  match outcome with
  | ParsedArray batchResults | ParsedArrayNull batchResults =>
      ∀ r, r ∈ batchResults → result_id r ∈ map ets_id ets ∧ -1 ≤ score r
  | _ => True
  end.

(** ** Concrete scans *)

Definition sevenIds : list string := ["A"; "B"; "C"; "D"; "E"; "F"; "G"].

Definition scriptedSession (answers : list BatchOutcome) : Scripted :=
  {| profile_answers := []; score_answers := answers |}.

(** The events of a scan of the inbox [inboxIds] right after signing in,
    the model answering [answers]. *)
Definition scanLog (inboxIds : list string) (answers : list BatchOutcome) : list Event :=
  since (signedIn answers)
    (scoreRecentEmails (inbox inboxIds) noProfile handleBatchProcessing 0
       (signedIn answers)).2.

Definition threeMessages : list MessageDetail :=
  [message "A"; message "B"; message "C"].

(** The model leaves [B] out of its answer. *)
Definition answerWithoutB : list BatchOutcome :=
  [ParsedArray [scored "A" 10; scored "C" 90]].

(** The first call of the model fails, the second answers for [F]. *)
Definition firstBatchFails : list BatchOutcome :=
  [PromptFailed; ParsedArray [scored "F" 70]].

(** The first answer names [F], a message of the second batch. *)
Definition answerForLaterBatch : list BatchOutcome :=
  [ParsedArray [scored "A" 30; scored "F" 70]; PromptFailed].

(** The first answer is an array whose third entry is [null]; the second
    is an empty array. *)
Definition nullEntryAfterF : list BatchOutcome :=
  [ParsedArrayNull [scored "A" 30; scored "F" 70]; ParsedArray []].

(** The only answer is a JSON value that is not an array. *)
Definition answerNotArray : list BatchOutcome := [ParsedNotArray].

(** The first answer leaves [A] out, the second, asked about [F] and [G],
    names [A]. *)
Definition lateAnswerForA : list BatchOutcome :=
  [ParsedArray [scored "B" 40]; ParsedArray [scored "A" 90]].

(** The second answer gives [A] the score that [B] already has. *)
Definition tieAfterResort : list BatchOutcome :=
  [ParsedArray [scored "A" 10; scored "B" 50]; ParsedArray [scored "A" 50]].

(** The collection of the call number [j] of the sink. *)
Definition handedAt (l : list Event) (j : nat) : list ScoredMessage :=
  default [] (sinkCalls l !! j).

(** A signed-in world that holds a profile stored at [builtAt]. *)
Definition withStoredProfile (builtAt : Z) : World Scripted :=
  {| state := state (signedIn []);
     storage := {| USER_PROFILE := Some noProfile;
                   LAST_ANALYSIS_TIMESTAMP := Some builtAt |};
     emailsEl := Blank;
     log := [] |}.

(** ** The rest of the script *)

(** *** escapeHtml *)

(** What [s.replace] puts for one character: the entity of each of the
    five characters of the pattern, the character itself otherwise. *)
Definition escapeChar (c : Ascii.ascii) : string :=
  if Ascii.eqb c "&"%char then "&amp;"
  else if Ascii.eqb c "<"%char then "&lt;"
  else if Ascii.eqb c ">"%char then "&gt;"
  else if Ascii.eqb c "034"%char then "&quot;"
  else if Ascii.eqb c "'"%char then "&#39;"
  else String c EmptyString.

Fixpoint escapeText (s : string) : string :=
  match s with
  | EmptyString => EmptyString
  | String c rest => escapeChar c +:+ escapeText rest
  end.

(** [escapeHtml(s)]; [None] is a missing text, for which [!s] holds as it
    does for the empty string. *)
Definition escapeHtml (s : option string) : string :=
  match s with
  | None => ""
  | Some s => escapeText s
  end.

(** The five characters that [escapeHtml] replaces. *)
Definition markup (c : Ascii.ascii) : Prop :=
  c = "&"%char ∨ c = "<"%char ∨ c = ">"%char ∨ c = "034"%char ∨ c = "'"%char.

(** The characters of a string, in order. *)
Fixpoint characters (s : string) : list Ascii.ascii :=
  match s with
  | EmptyString => []
  | String c rest => c :: characters rest
  end.

(** *** The detailed summary of a card *)





(** What [summarizeStreaming] gives: the chunks it yields, and whether it
    then faults instead of ending. *)
Record SummaryStream := { chunks : list string; faults : bool }.

Definition Summarizer : Type := string → Fetched SummaryStream.

      (* the item "Could not generate detailed summary." is appended and the
         button reads "Retry Detailed Summary", enabled; with [None] the list
         was as the click found it, with [Some text] it was the one item that
         the stream had written [text] to *)



(** *** handleTranslationRequest *)

(** A [<li>] of the summary list: its text, and the text saved in
    [dataset.originalText]. *)
Record SummaryItem := { textContent : string; originalText : option string }.

(** [!li.dataset.originalText] *)
Definition lacksOriginal (li : SummaryItem) : bool :=
  match originalText li with
  | None => true
  | Some saved => bool_decide (saved = "")
  end.

(** [if (!li.dataset.originalText) li.dataset.originalText = li.textContent] *)
Definition saveOriginal (li : SummaryItem) : SummaryItem :=
  if lacksOriginal li
  then {| textContent := textContent li; originalText := Some (textContent li) |}
  else li.

(** [if (li.dataset.originalText) li.textContent = li.dataset.originalText] *)
Definition restoreOriginal (li : SummaryItem) : SummaryItem :=
  if lacksOriginal li
  then li
  else {| textContent := default "" (originalText li); originalText := originalText li |}.

(** [translator.translate(text)] *)
Definition Translator : Type := string → Fetched string.

(** The [Translator] object of the page, called with the source and the
    target language. *)
Record TranslatorApi := {
  translator_availability : string → string → Fetched ();
  translator_create : string → string → Fetched Translator }.

(** What stands in the translation container when the handler is done. *)
Inductive TranslationControl :=
  | SelectShown (value : string)
  | TranslationFailed.

(** [handleTranslationRequest(event)] for a select whose value is
    [targetLang], on the items [listItems], with the cache
    [state.translators]. *)
Definition handleTranslationRequest (api : TranslatorApi) (targetLang : string)
    (translators : gmap string Translator) (listItems : list SummaryItem)
    : gmap string Translator * list SummaryItem * TranslationControl :=
  if bool_decide (targetLang = "") then (translators, listItems, SelectShown targetLang)
  else
    let listItems := map saveOriginal listItems in
    let sourceLang := "en" in
    let cacheKey := sourceLang +:+ "-" +:+ targetLang in
    let obtained :=
      match translators !! cacheKey with
      | Some translator => Resolved (translator, translators)
      | None =>
          match translator_availability api sourceLang targetLang with
          | Rejected => Rejected
          | Resolved _ =>
              match translator_create api sourceLang targetLang with
              | Rejected => Rejected
              | Resolved translator =>
                  Resolved (translator, <[cacheKey := translator]> translators)
              end
          end
      end in
    match obtained with
    | Rejected => (translators, map restoreOriginal listItems, TranslationFailed)
    | Resolved (translator, translators) =>
        let translationPromises :=
          map (λ li, translator (default "" (originalText li))) listItems in
        match promiseAll translationPromises with
        | Rejected => (translators, map restoreOriginal listItems, TranslationFailed)
        | Resolved translatedTexts =>
            (translators,
             zip_with (λ li text, {| textContent := text;
                                      originalText := originalText li |})
               listItems translatedTexts,
             SelectShown targetLang)
        end
    end.

(** The text a request starts from: the saved text when the item carries
    a non-empty one, the text it shows otherwise. *)
Definition original (li : SummaryItem) : string :=
  if lacksOriginal li then textContent li else default "" (originalText li).

(** *** handleSignOut *)

(** The two fields of [state] that serve the cards: [state.summarizer] and
    [state.translators]. *)
Record Helpers := {
  summarizer : option Summarizer;
  translators : gmap string Translator }.

Section SignOut.

Context {Session : Type}.

(** The [state] that sign-out and a failed sign-in assign. *)
Definition signedOutState : State Session :=
  {| accessToken := None;
     isSignedIn := false;
     aiSession := None;
     isTranslatorAvailable := false |}.

(** [handleSignOut()], with the callback of the [REMOVE_TOKEN] message run
    at once; the callback does not look at the response. *)
Definition handleSignOut (w : World Session) (helpers : Helpers)
    : World Session * Helpers :=
  match accessToken (state w) with
  | None => (w, helpers)
  | Some _ =>
      let w := emit (Status "Signing out...") w in
      (emit (Status "Signed out.")
         {| state := signedOutState;
            storage := {| USER_PROFILE := None; LAST_ANALYSIS_TIMESTAMP := None |};
            emailsEl := Blank;
            log := log w |},
       {| summarizer := None; translators := ∅ |})
  end.

End SignOut.

(** *** Reading the mail store *)

(** The detail of the message [m] arrives, and it is [d]. *)
Definition arrives (net : Network) (token : string) (m : MessageRef)
    (d : MessageDetail) : Prop :=
  fetch_message net token (ref_id m) = Resolved d.

(** *** Reading a page *)

(** The section of the page a card belongs to: scored at the threshold or
    above, scored below it, or still without a score. *)
Definition cardSection (c : Card) : nat :=
  match card_score c with
  | None => 2
  | Some _ => if card_lowPriority c then 1 else 0
  end.

(** The page after a sink has run is the banner or a list of cards. *)
Definition rendered (page : Dom) : Prop :=
  page = NoEmails ∨ ∃ cards, page = Cards cards.

(** The account of [w'] is that of [w]: the same credential, the same
    sign-in flag, and a session if [w] had one. *)
Definition sameAccount {Session} (w w' : World Session) : Prop :=
  accessToken (state w') = accessToken (state w)
  ∧ isSignedIn (state w') = isSignedIn (state w)
  ∧ (is_Some (aiSession (state w)) → is_Some (aiSession (state w'))).

(** From [w] to [w'] the page was left alone, the sink was not called and
    the model was not asked for scores. *)
Definition silent {Session} (w w' : World Session) : Prop :=
  emailsEl w' = emailsEl w
  ∧ ∃ news, log w' = log w ++ news ∧ sinkCalls news = [] ∧ promptCalls news = [].

(** An inference call that leaves no message of its batch without a score
    to show: it fails, so that the [catch] block writes the failure records,
    or it returns an array that names every message it was asked about and
    gives no score below 0. *)
Definition answersInFull (ets : list EmailToScore) (outcome : BatchOutcome) : Prop :=
  match outcome with
  | PromptFailed => True
  | ParsedNotArray => False
  | ParsedArray batchResults =>
      (∀ id, id ∈ map ets_id ets → id ∈ map result_id batchResults)
      ∧ (∀ r, r ∈ batchResults → 0 ≤ score r)
  | ParsedArrayNull batchResults => ∀ r, r ∈ batchResults → 0 ≤ score r
  end.

(** The first [i] messages of the window have a score of 0 or more in the
    collection [emails]. *)
Definition settledUpTo (recentEmails : list MessageDetail) (i : nat)
    (emails : list ScoredMessage) : Prop :=
  ∀ id a,
    id ∈ map email_id (take i recentEmails) →
    analysisOf id emails = Some a →
    0 ≤ score a.

(** *** Concrete collaborators for the rest of the script *)

Definition nineIds : list string := ["A"; "B"; "C"; "D"; "E"; "F"; "G"; "H"; "I"].

(** A signed-in world whose model answers the profile prompt. *)
Definition profileReady : World Scripted :=
  {| state := {| accessToken := Some "token";
                 isSignedIn := true;
                 aiSession := Some {| profile_answers := [Resolved noProfile];
                                      score_answers := [] |};
                 isTranslatorAvailable := false |};
     storage := {| USER_PROFILE := None; LAST_ANALYSIS_TIMESTAMP := None |};
     emailsEl := Blank;
     log := [] |}.

(** The first call answers for the five messages of its batch, the second
    fails. *)
Definition fullAnswers : list BatchOutcome :=
  [ParsedArray [scored "A" 10; scored "B" 50; scored "C" 90; scored "D" 0;
                scored "E" 45];
   PromptFailed].

(** A translator that marks a text with its language. *)
Definition marking (targetLang : string) : Translator :=
  λ text, Resolved (targetLang +:+ ":" +:+ text).

(** A [Translator] object that has every language but German. *)
Definition withoutGerman : TranslatorApi :=
  {| translator_availability _ _ := Resolved ();
     translator_create _ targetLang :=
       if bool_decide (targetLang = "de") then Rejected
       else Resolved (marking targetLang) |}.

(** A [Translator] object that is out of order. *)
Definition outOfOrder : TranslatorApi :=
  {| translator_availability _ _ := Rejected;
     translator_create _ _ := Rejected |}.

(** Two items as [renderEmails] writes them. *)
Definition renderedItems : list SummaryItem :=
  [{| textContent := "Invoice due Friday"; originalText := None |};
   {| textContent := "Reply to Ana"; originalText := None |}].

(** The same items after a translation to French. *)
Definition frenchItems : list SummaryItem :=
  [{| textContent := "fr:Invoice due Friday";
      originalText := Some "Invoice due Friday" |};
   {| textContent := "fr:Reply to Ana"; originalText := Some "Reply to Ana" |}].

Definition helpersInUse : Helpers :=
  {| summarizer := None; translators := {[ "en-fr" := marking "fr" ]} |}.



(** ** Worlds and logs *)

Section Worlds.

Context {Session : Type}.

Lemma log_emit (e : Event) (w : World Session) : log (emit e w) = log w ++ [e].
Proof. reflexivity. Qed.

Lemma state_emit (e : Event) (w : World Session) : state (emit e w) = state w.
Proof. reflexivity. Qed.

Lemma log_set_session (s : Session) (w : World Session) : log (set_session s w) = log w.
Proof. reflexivity. Qed.

Lemma log_set_storage (st : Storage) (w : World Session) : log (set_storage st w) = log w.
Proof. reflexivity. Qed.

Lemma log_set_emailsEl (d : Dom) (w : World Session) : log (set_emailsEl d w) = log w.
Proof. reflexivity. Qed.

Lemma log_setStatus (s : string) (w : World Session) :
  log (setStatus s w) = log w ++ [Status s].
Proof. reflexivity. Qed.

Lemma state_setStatus (s : string) (w : World Session) : state (setStatus s w) = state w.
Proof. reflexivity. Qed.

Lemma generateCalls_app (l1 l2 : list Event) :
  generateCalls (l1 ++ l2) = (generateCalls l1 + generateCalls l2)%nat.
Proof. unfold generateCalls. by rewrite omap_app, length_app. Qed.

Lemma sinkCalls_app (l1 l2 : list Event) :
  sinkCalls (l1 ++ l2) = sinkCalls l1 ++ sinkCalls l2.
Proof. apply omap_app. Qed.

Lemma promptCalls_app (l1 l2 : list Event) :
  promptCalls (l1 ++ l2) = promptCalls l1 ++ promptCalls l2.
Proof. apply omap_app. Qed.

Lemma generateCalls_snoc (l : list Event) (e : Event) :
  generateCalls (l ++ [e])
  = (generateCalls l + match e with CallGenerateUserProfile => 1 | _ => 0 end)%nat.
Proof. rewrite generateCalls_app. f_equal. by destruct e. Qed.

End Worlds.

Ltac count_log :=
  repeat first
    [ rewrite log_set_session | rewrite log_set_storage | rewrite log_set_emailsEl
    | rewrite log_setStatus | rewrite log_emit | rewrite generateCalls_snoc ].


(** ** The mail gateway *)

Section Gateway.

Context {Session : Type} `{LM : LanguageModel Session}.
Variable net : Network.

(** C5, as the code has it.  With a credential in the session state,
    [modifyEmail] never throws: it returns a boolean, and that boolean is
    [true] exactly when the request was answered with a 2xx status; every
    transport or API failure is logged and gives [false]. *)
Theorem modifyEmail_total_with_token (messageId token : string)
    (addLabelIds removeLabelIds : list string) (w : World Session) :
  accessToken (state w) = Some token →
  ∃ success : bool,
    (modifyEmail net messageId addLabelIds removeLabelIds w).1 = Return success ∧
    (success = true ↔
       ∃ response,
         fetch_modify net token messageId addLabelIds removeLabelIds = Resolved response ∧
         200 ≤ modify_status response ≤ 299) ∧
    (success = false →
       ∃ message,
         log (modifyEmail net messageId addLabelIds removeLabelIds w).2
         = log w ++ [ConsoleError message]).
Proof.
  intros Htoken. unfold modifyEmail. rewrite Htoken.
  destruct (fetch_modify net token messageId addLabelIds removeLabelIds)
    as [|response] eqn:Hfetch.
  - exists false. split; [done|]. split; [|by eauto].
    split; [done|]. by intros (? & ? & _).
  - destruct (response_ok (modify_status response)) eqn:Hok; simpl.
    + exists true. split; [done|]. split; [|done].
      split; [|done]. intros _. exists response. split; [done|].
      unfold response_ok in Hok. lia.
    + assert (¬ 200 ≤ modify_status response ≤ 299) as Hstatus
        by (unfold response_ok in Hok; lia).
      exists false.
      destruct (modify_json response) as [|[message|]]; simpl;
        (split; [done|]); (split; [|by eauto]);
        (split; [done|]); intros (r & [= <-] & ?); done.
Qed.

(** [fetchMessages] never throws: whatever happens it hands back the world
    with at most one more console line. *)
Lemma fetchMessages_world (query : Query) (maxResults : nat) (w : World Session) :
  (fetchMessages net query maxResults w).2 = w
  ∨ ∃ message, (fetchMessages net query maxResults w).2 = emit (ConsoleError message) w.
Proof.
  unfold fetchMessages. destruct (accessToken (state w)); [|by left].
  destruct (fetchMessages_try _ _ _ _); [by left|right; eauto].
Qed.

Lemma fetchMessages_state (query : Query) (maxResults : nat) (w : World Session) :
  state (fetchMessages net query maxResults w).2 = state w
  ∧ storage (fetchMessages net query maxResults w).2 = storage w.
Proof. by destruct (fetchMessages_world query maxResults w) as [->|[? ->]]. Qed.

Lemma fetchMessages_generateCalls (query : Query) (maxResults : nat) (w : World Session) :
  generateCalls (log (fetchMessages net query maxResults w).2) = generateCalls (log w).
Proof.
  destruct (fetchMessages_world query maxResults w) as [->|[? ->]]; [done|].
  rewrite log_emit, generateCalls_snoc. lia.
Qed.

(** A transport error or a status outside 2xx on the list request makes the
    [try] block of [fetchMessages] throw. *)
Lemma fetchMessages_try_transport_error (token : string) (query : Query) (maxResults : nat) :
  fetch_list net token query maxResults = Rejected →
  ∃ message, fetchMessages_try net token query maxResults = Throw message.
Proof. intros Hfetch. unfold fetchMessages_try. rewrite Hfetch. eauto. Qed.

Lemma fetchMessages_try_http_error (token : string) (query : Query) (maxResults : nat)
    (listRes : ListResponse) :
  fetch_list net token query maxResults = Resolved listRes →
  ¬ 200 ≤ list_status listRes ≤ 299 →
  ∃ message, fetchMessages_try net token query maxResults = Throw message.
Proof.
  intros Hfetch Hstatus. unfold fetchMessages_try. rewrite Hfetch.
  replace (response_ok (list_status listRes)) with false; [simpl; eauto|].
  unfold response_ok. lia.
Qed.

Lemma promiseAll_rejected {A} (promises : list (Fetched A)) :
  Rejected ∈ promises → promiseAll promises = Rejected.
Proof.
  induction promises as [|[|a] promises IH]; simpl.
  - by intros ?%elem_of_nil.
  - done.
  - intros [?|Hin]%elem_of_cons; [done|]. by rewrite IH.
Qed.

(** One detail fetch that fails makes the whole loop throw. *)
Lemma fetchDetails_rejected (token : string) (refs : list MessageRef) (i : nat)
    (details : list MessageDetail) (m : MessageRef) :
  m ∈ drop i refs →
  fetch_message net token (ref_id m) = Rejected →
  ∃ message, fetchDetails net token refs i details = Throw message.
Proof.
  intros Hin Hrejected.
  remember (length refs - i)%nat as remaining eqn:Hremaining.
  revert i details Hin Hremaining.
  induction remaining as [remaining IH] using lt_wf_ind.
  intros i details Hin ->. rewrite fetchDetails_equation_1.
  destruct (decide (i < length refs)%nat) as [Hstep|Hdone]; simpl.
  - destruct (promiseAll _) as [|fetched] eqn:Hall; [by eauto|].
    apply (IH (length refs - (i + concurrency))%nat); [unfold concurrency; lia| |done].
    rewrite <- (take_drop concurrency (drop i refs)) in Hin.
    apply elem_of_app in Hin as [Hbatch|Hlater].
    + exfalso. unfold slice in Hall.
      replace (i + concurrency - i)%nat with concurrency in Hall by lia.
      rewrite promiseAll_rejected in Hall; [done|].
      rewrite <- Hrejected.
      by apply (list_elem_of_fmap_2 (λ m, fetch_message net token (ref_id m))).
    + by rewrite drop_drop in Hlater.
  - rewrite drop_ge in Hin by lia. by apply elem_of_nil in Hin.
Qed.

Lemma fetchMessages_try_detail_error (token : string) (query : Query) (maxResults : nat)
    (listRes : ListResponse) (refs : list MessageRef) (m : MessageRef) :
  fetch_list net token query maxResults = Resolved listRes →
  200 ≤ list_status listRes ≤ 299 →
  list_json listRes = Resolved {| messages := Some refs |} →
  m ∈ refs →
  fetch_message net token (ref_id m) = Rejected →
  ∃ message, fetchMessages_try net token query maxResults = Throw message.
Proof.
  intros Hfetch Hstatus Hjson Hin Hrejected. unfold fetchMessages_try.
  rewrite Hfetch.
  replace (response_ok (list_status listRes)) with true
    by (unfold response_ok; lia).
  simpl. rewrite Hjson. simpl.
  by apply (fetchDetails_rejected token refs 0 [] m).
Qed.

(** Whatever the query, a failure inside the [try] block leaves the caller
    with an empty list. *)
Lemma fetchMessages_failure_empty (query : Query) (maxResults : nat) (w : World Session)
    (token message : string) :
  accessToken (state w) = Some token →
  fetchMessages_try net token query maxResults = Throw message →
  (fetchMessages net query maxResults w).1 = [].
Proof. intros Htoken Hthrow. unfold fetchMessages. by rewrite Htoken, Hthrow. Qed.

(** C1, as the code has it.  A failure of the window fetch is caught inside
    [fetchMessages], for the scoring window as for the profile samples:
    [scoreRecentEmails] receives an empty window, logs the failure, calls the
    sink once with the empty collection, calls no inference and returns
    normally. *)
Theorem scoreRecentEmails_fetch_failure_degrades (userProfile : UserProfile)
    (onBatchProcessed : Sink) (twoDaysAgo : Z) (w : World Session)
    (session : Session) (token message : string) :
  aiSession (state w) = Some session →
  accessToken (state w) = Some token →
  fetchMessages_try net token (RecentUnread (twoDaysAgo / 1000)) 7 = Throw message →
  let scan := scoreRecentEmails net userProfile onBatchProcessed twoDaysAgo w in
  scan.1 = Return ()
  ∧ log scan.2 =
      log w ++ [Status "Fetching recent unread emails...";
                ConsoleError ("Failed to fetch messages: " +:+ message);
                Status "No unread emails in the last 2 days. You're all caught up! 🎉";
                BatchProcessed []]
  ∧ sinkCalls (log scan.2) = sinkCalls (log w) ++ [[]]
  ∧ promptCalls (log scan.2) = promptCalls (log w).
Proof.
  intros Hsession Htoken Hthrow scan.
  assert (scan.1 = Return ()
          ∧ log scan.2 =
              log w ++ [Status "Fetching recent unread emails...";
                        ConsoleError ("Failed to fetch messages: " +:+ message);
                        Status "No unread emails in the last 2 days. You're all caught up! 🎉";
                        BatchProcessed []]) as [Hresult Hlog].
  { subst scan. unfold scoreRecentEmails. rewrite Hsession.
    unfold fetchMessages, setStatus. rewrite state_emit, Htoken, Hthrow. simpl.
    unfold callSink. destruct (onBatchProcessed []) as [emails page]. simpl.
    split; [done|]. by rewrite <- !app_assoc. }
  split; [done|]. split; [done|].
  rewrite Hlog, sinkCalls_app, promptCalls_app. simpl.
  split; [done|]. by rewrite app_nil_r.
Qed.

(** C8.  A stored profile that is at most 24 hours old is returned without
    entering the profile builder; when the record is missing or older, the
    builder is entered once and its result is the result.  A stored timestamp
    is a clock reading, hence not [0]. *)
Theorem loadUserProfile_fresh_or_rebuilt (now builtAt : Z) (w : World Session) :
  (∀ t, LAST_ANALYSIS_TIMESTAMP (storage w) = Some t → t ≠ 0) →
  let loaded := loadUserProfile net now builtAt w in
  if recordFresh now (storage w)
  then ∃ profile,
         USER_PROFILE (storage w) = Some profile
         ∧ loaded.1 = Return profile
         ∧ generateCalls (log loaded.2) = generateCalls (log w)
         ∧ storage loaded.2 = storage w
  else ∃ announce,
         loaded = generateUserProfile net builtAt
                    (setStatus announce (setStatus "1/2: Loading user profile..." w))
         ∧ generateCalls (log loaded.2) = S (generateCalls (log w)).
Proof.
  intros Hclock loaded.
  assert (∀ w0 : World Session,
            generateCalls (log (generateUserProfile net builtAt w0).2)
            = S (generateCalls (log w0))) as Hbuilder.
  { intros w0. unfold generateUserProfile.
    destruct (aiSession (state (emit CallGenerateUserProfile w0))) as [session|].
    - do 4 match goal with
        | |- context [fetchMessages net ?q ?n ?w1] =>
            let H := fresh "Hcalls" in
            pose proof (fetchMessages_generateCalls q n w1) as H;
            destruct (fetchMessages net q n w1) as [? ?];
            cbn [snd] in H; revert H; count_log; intros H
        end.
      destruct (prompt_profile _ _) as [[|profile] session'];
        cbn [snd]; count_log; lia.
    - cbn [snd]. count_log. lia. }
  subst loaded. unfold loadUserProfile, recordFresh.
  cbn [storage setStatus emit].
  destruct (USER_PROFILE (storage w)) as [profile|] eqn:Hprofile.
  - destruct (LAST_ANALYSIS_TIMESTAMP (storage w)) as [t|] eqn:Htime;
      cbn [falsy_timestamp default from_option id orb].
    + specialize (Hclock t eq_refl).
      replace (t =? 0) with false by lia. cbn [orb].
      destruct (now - t <=? PROFILE_REFRESH_INTERVAL) eqn:Hage.
      * replace (now - t >? PROFILE_REFRESH_INTERVAL) with false by lia.
        exists profile. cbn [fst snd]. count_log.
        split_and!; [done|done|lia|done].
      * replace (now - t >? PROFILE_REFRESH_INTERVAL) with true by lia.
        eexists. split; [reflexivity|]. rewrite Hbuilder. count_log. lia.
    + eexists. split; [reflexivity|]. rewrite Hbuilder. count_log. lia.
  - eexists. split; [reflexivity|]. rewrite Hbuilder. count_log. lia.
Qed.

End Gateway.

Lemma modifyEmail_total_with_token_witness :
  ∃ success : bool,
    (modifyEmail offline "m1" [] ["UNREAD"] (signedIn [])).1 = Return success ∧
    (success = true ↔
       ∃ response,
         fetch_modify offline "token" "m1" [] ["UNREAD"] = Resolved response ∧
         200 ≤ modify_status response ≤ 299) ∧
    (success = false →
       ∃ message,
         log (modifyEmail offline "m1" [] ["UNREAD"] (signedIn [])).2
         = log (signedIn []) ++ [ConsoleError message]).
Proof. apply (modifyEmail_total_with_token offline "m1" "token"). reflexivity. Defined.

(** C5 as stated fails in the no-credential state: there [modifyEmail]
    throws "Authentication token not found." instead of returning a
    boolean. *)
Lemma modifyEmail_throws_without_token :
  (markEmailAsRead offline "m1" signedOut).1 = Throw "Authentication token not found."
  ∧ ¬ ∃ success : bool, (markEmailAsRead offline "m1" signedOut).1 = Return success.
Proof. split; [reflexivity|]. intros [success Hreturn]. discriminate Hreturn. Qed.

(** ** The presentation sort *)

Section Sorting.

Lemma sort_insert_Permutation {A} (compare : A → A → Z) (a : A) (l : list A) :
  sort_insert compare a l ≡ₚ a :: l.
Proof.
  induction l as [|b l IH]; simpl; [done|].
  destruct (compare a b <=? 0); [done|].
  rewrite IH. apply Permutation_swap.
Qed.

Lemma Array_sort_Permutation {A} (compare : A → A → Z) (l : list A) :
  Array_sort compare l ≡ₚ l.
Proof.
  induction l as [|a l IH]; simpl; [done|].
  by rewrite sort_insert_Permutation, IH.
Qed.

Lemma Array_sort_length {A} (compare : A → A → Z) (l : list A) :
  length (Array_sort compare l) = length l.
Proof. apply Permutation_length, Array_sort_Permutation. Qed.

Lemma byScoreDescending_scoreOf (a b : ScoredMessage) :
  byScoreDescending a b = scoreOf b - scoreOf a.
Proof. reflexivity. Qed.

Lemma sort_insert_descending (a : ScoredMessage) (l : list ScoredMessage) :
  StronglySorted descending l →
  StronglySorted descending (sort_insert byScoreDescending a l).
Proof.
  induction 1 as [|b l Hsorted IH Hb]; simpl.
  - repeat constructor.
  - rewrite byScoreDescending_scoreOf.
    destruct (scoreOf b - scoreOf a <=? 0) eqn:Hcompare.
    + constructor; [by constructor|].
      constructor; [unfold descending; lia|].
      eapply Forall_impl; [exact Hb|]. unfold descending. intros c ?. lia.
    + constructor; [done|].
      rewrite sort_insert_Permutation. constructor; [|done].
      unfold descending. lia.
Qed.

Lemma Array_sort_descending (l : list ScoredMessage) :
  StronglySorted descending (Array_sort byScoreDescending l).
Proof.
  induction l as [|a l IH]; simpl; [constructor|].
  by apply sort_insert_descending.
Qed.

(** Stability: the messages of any one score come out in the order they
    went in. *)
Lemma sort_insert_stable (s : Z) (a : ScoredMessage) (l : list ScoredMessage) :
  filter (λ e, scoreOf e = s) (sort_insert byScoreDescending a l)
  = filter (λ e, scoreOf e = s) (a :: l).
Proof.
  induction l as [|b l IH]; simpl; [done|].
  rewrite byScoreDescending_scoreOf.
  destruct (scoreOf b - scoreOf a <=? 0) eqn:Hcompare; [done|].
  rewrite (filter_cons _ b), IH, !filter_cons.
  destruct (decide (scoreOf b = s)), (decide (scoreOf a = s)); try done. lia.
Qed.

Lemma Array_sort_stable (s : Z) (l : list ScoredMessage) :
  filter (λ e, scoreOf e = s) (Array_sort byScoreDescending l)
  = filter (λ e, scoreOf e = s) l.
Proof.
  induction l as [|a l IH]; simpl; [done|].
  by rewrite sort_insert_stable, !filter_cons, IH.
Qed.

Lemma sort_insert_sorted (a : ScoredMessage) (l : list ScoredMessage) :
  Forall (descending a) l → sort_insert byScoreDescending a l = a :: l.
Proof.
  destruct 1 as [|b l Hb _]; simpl; [done|].
  rewrite byScoreDescending_scoreOf.
  unfold descending in Hb. by replace (scoreOf b - scoreOf a <=? 0) with true by lia.
Qed.

(** Sorting a collection that is already in order changes nothing. *)
Lemma Array_sort_sorted (l : list ScoredMessage) :
  StronglySorted descending l → Array_sort byScoreDescending l = l.
Proof.
  induction 1 as [|a l Hsorted IH Ha]; simpl; [done|].
  rewrite IH. by apply sort_insert_sorted.
Qed.

Lemma Array_sort_idempotent (l : list ScoredMessage) :
  Array_sort byScoreDescending (Array_sort byScoreDescending l)
  = Array_sort byScoreDescending l.
Proof. apply Array_sort_sorted, Array_sort_descending. Qed.

Lemma renderEmails_sorts (emails : list ScoredMessage) :
  (renderEmails emails).1 = Array_sort byScoreDescending emails.
Proof. unfold renderEmails. by destruct emails. Qed.

(** C6, as the code has it.  The sink sorts the collection it is handed in
    place: what the engine holds afterwards is the same messages with the same
    analyses, in descending order of score.  The sink changes the order and
    nothing else. *)
Theorem handleBatchProcessing_reorders_only (processedEmails : list ScoredMessage) :
  (handleBatchProcessing processedEmails).1 ≡ₚ processedEmails
  ∧ (handleBatchProcessing processedEmails).1
    = Array_sort byScoreDescending processedEmails
  ∧ StronglySorted descending (handleBatchProcessing processedEmails).1.
Proof.
  unfold handleBatchProcessing. rewrite renderEmails_sorts.
  split_and!; [apply Array_sort_Permutation|done|apply Array_sort_descending].
Qed.

(** C6 as stated fails: handed a pending message followed by a scored one,
    the sink leaves the array in the other order. *)
Lemma handleBatchProcessing_changes_order :
  let processedEmails :=
    [placeholder (message "A");
     {| email := message "B"; analysisData := scored "B" 50 |}] in
  ids (handleBatchProcessing processedEmails).1 = ["B"; "A"]
  ∧ (handleBatchProcessing processedEmails).1 ≠ processedEmails.
Proof. split; [reflexivity|discriminate]. Qed.

End Sorting.

(** ** Merging one batch *)

Section Merge.

Implicit Types (emails : list ScoredMessage) (a : AnalysisResult) (id : string).

(** [findIndex] followed by the guarded assignment is [overwrite]. *)
Lemma assign_overwrite id a emails :
  (let emailIndex := findIndex (λ e, email_id (email e) = id) emails in
   if emailIndex >? -1 then setAnalysisData emailIndex a emails else emails)
  = overwrite id a emails.
Proof.
  unfold findIndex, setAnalysisData.
  induction emails as [|e emails IH]; simpl; [done|].
  destruct (decide (email_id (email e) = id)) as [Heq|Hne]; simpl; [done|].
  rewrite <- IH. clear IH.
  destruct (list_find _ emails) as [[i x]|]; simpl; [|done].
  assert ((Z.of_nat i >? -1) = true) as -> by (apply Z.gtb_lt; lia).
  by rewrite !Nat2Z.id.
Qed.

Lemma applyResult_overwrite emails a :
  applyResult emails a = overwrite (result_id a) a emails.
Proof. apply assign_overwrite. Qed.

Lemma applyFailure_overwrite emails (failedEmail : MessageDetail) :
  applyFailure emails failedEmail
  = overwrite (email_id failedEmail) (failureRecord (email_id failedEmail)) emails.
Proof. apply assign_overwrite. Qed.

Lemma overwrite_emails id a emails :
  map email (overwrite id a emails) = map email emails.
Proof.
  induction emails as [|e emails IH]; simpl; [done|].
  destruct (decide _); simpl; [done|]. by rewrite IH.
Qed.

Lemma ids_overwrite id a emails : ids (overwrite id a emails) = ids emails.
Proof.
  unfold ids. rewrite <- !(map_map email email_id). by rewrite overwrite_emails.
Qed.

Lemma analysisOf_nil id : analysisOf id [] = None.
Proof. reflexivity. Qed.

Lemma analysisOf_cons id (e : ScoredMessage) emails :
  analysisOf id (e :: emails)
  = if decide (email_id (email e) = id) then Some (analysisData e)
    else analysisOf id emails.
Proof.
  unfold analysisOf, find_first. simpl.
  destruct (decide _); simpl; [done|].
  by destruct (list_find _ emails) as [[i x]|].
Qed.

Lemma analysisOf_None id emails : analysisOf id emails = None ↔ id ∉ ids emails.
Proof.
  induction emails as [|e emails IH]; simpl.
  - split; [intros _; apply not_elem_of_nil|done].
  - rewrite analysisOf_cons, not_elem_of_cons.
    destruct (decide _) as [Heq|Hne]; [split; [done|intros [? _]; congruence]|].
    rewrite IH. split; [intros ?; split; [congruence|done]|by intros [_ ?]].
Qed.

Lemma analysisOf_is_Some id emails : is_Some (analysisOf id emails) ↔ id ∈ ids emails.
Proof.
  rewrite <- not_eq_None_Some, analysisOf_None.
  split; [apply dec_stable|by intros ? ?].
Qed.

Lemma analysisOf_overwrite_ne id id' a emails :
  id ≠ id' → analysisOf id' (overwrite id a emails) = analysisOf id' emails.
Proof.
  intros Hne. induction emails as [|e emails IH]; simpl; [done|].
  destruct (decide (email_id (email e) = id)) as [Heq|Hne'].
  - rewrite !analysisOf_cons. simpl.
    by rewrite !decide_False by congruence.
  - by rewrite !analysisOf_cons, IH.
Qed.

Lemma analysisOf_overwrite_eq id a emails :
  id ∈ ids emails → analysisOf id (overwrite id a emails) = Some a.
Proof.
  induction emails as [|e emails IH]; simpl; [by intros ?%elem_of_nil|].
  intros Hin. destruct (decide (email_id (email e) = id)) as [Heq|Hne].
  - rewrite analysisOf_cons. simpl. by rewrite decide_True.
  - rewrite analysisOf_cons, decide_False by done.
    apply IH. apply elem_of_cons in Hin as [?|?]; [congruence|done].
Qed.

(** With distinct ids, the analysis of a message does not depend on where
    the message stands in the collection. *)
Lemma analysisOf_Some_NoDup id a emails :
  NoDup (ids emails) →
  analysisOf id emails = Some a
  ↔ ∃ e, e ∈ emails ∧ email_id (email e) = id ∧ analysisData e = a.
Proof.
  induction emails as [|e emails IH]; simpl.
  - intros _. split; [done|]. by intros (? & ?%elem_of_nil & _).
  - intros [Hfresh Hrest]%NoDup_cons. rewrite analysisOf_cons.
    destruct (decide (email_id (email e) = id)) as [Heq|Hne].
    + split.
      * intros [= <-]. exists e. split; [left|done].
      * intros (e' & [->|Hin]%elem_of_cons & Hid & <-); [done|].
        exfalso. apply Hfresh. rewrite Heq, <- Hid.
        unfold ids. by apply (list_elem_of_fmap_2 (λ e, email_id (email e))).
    + rewrite IH by done. split.
      * intros (e' & ? & ? & ?). exists e'. split; [by right|done].
      * intros (e' & [->|Hin]%elem_of_cons & Hid & ?); [done|by exists e'].
Qed.

Lemma analysisOf_Permutation id emails emails' :
  NoDup (ids emails) → emails ≡ₚ emails' →
  analysisOf id emails = analysisOf id emails'.
Proof.
  intros Hnodup Hperm.
  assert (NoDup (ids emails')) as Hnodup'.
  { unfold ids in *. by rewrite <- Hperm. }
  apply option_eq. intros a.
  rewrite !analysisOf_Some_NoDup by done.
  by setoid_rewrite Hperm.
Qed.

Lemma ids_foldl_applyResult emails (batchResults : list AnalysisResult) :
  ids (foldl applyResult emails batchResults) = ids emails.
Proof.
  revert emails. induction batchResults as [|r rs IH]; intros emails; simpl; [done|].
  by rewrite IH, applyResult_overwrite, ids_overwrite.
Qed.

Lemma ids_foldl_applyFailure emails (batch : list MessageDetail) :
  ids (foldl applyFailure emails batch) = ids emails.
Proof.
  revert emails. induction batch as [|m batch IH]; intros emails; simpl; [done|].
  by rewrite IH, applyFailure_overwrite, ids_overwrite.
Qed.

Lemma ids_mergeBatch batch outcome emails :
  ids (mergeBatch batch outcome emails) = ids emails.
Proof.
  destruct outcome; simpl;
    [apply ids_foldl_applyFailure|done|apply ids_foldl_applyResult|].
  by rewrite ids_foldl_applyFailure, ids_foldl_applyResult.
Qed.

(** A message that the returned array does not name is left alone. *)
Lemma analysisOf_foldl_applyResult_omitted id emails (batchResults : list AnalysisResult) :
  id ∉ map result_id batchResults →
  analysisOf id (foldl applyResult emails batchResults) = analysisOf id emails.
Proof.
  revert emails. induction batchResults as [|r rs IH]; intros emails; simpl; [done|].
  intros [Hne Hrest]%not_elem_of_cons.
  rewrite IH, applyResult_overwrite by done.
  by apply analysisOf_overwrite_ne.
Qed.

(** A message that the returned array names ends with the last entry that
    names it. *)
Lemma analysisOf_foldl_applyResult_named emails (before after : list AnalysisResult)
    (r : AnalysisResult) :
  result_id r ∈ ids emails →
  result_id r ∉ map result_id after →
  analysisOf (result_id r) (foldl applyResult emails (before ++ r :: after)) = Some r.
Proof.
  intros Hin Hlast. rewrite foldl_app. simpl.
  rewrite analysisOf_foldl_applyResult_omitted by done.
  rewrite applyResult_overwrite. apply analysisOf_overwrite_eq.
  by rewrite ids_foldl_applyResult.
Qed.

Lemma analysisOf_foldl_applyFailure id emails (batch : list MessageDetail) :
  analysisOf id (foldl applyFailure emails batch)
  = if decide (id ∈ map email_id batch ∧ id ∈ ids emails)
    then Some (failureRecord id)
    else analysisOf id emails.
Proof.
  revert emails. induction batch as [|m batch IH]; intros emails; simpl.
  - done.
  - rewrite IH, applyFailure_overwrite, ids_overwrite.
    destruct (decide (id ∈ map email_id batch ∧ id ∈ ids emails)) as [[Hin Hids]|Hnot].
    + rewrite decide_True; [done|]. split; [by right|done].
    + destruct (decide (email_id m = id)) as [<-|Hne].
      * destruct (decide (email_id m ∈ ids emails)) as [Hids|Hids].
        -- rewrite decide_True by (split; [left|done]).
           by apply analysisOf_overwrite_eq.
        -- rewrite decide_False by (by intros [_ ?]).
           assert (analysisOf (email_id m) emails = None) as ->
             by by apply analysisOf_None.
           apply analysisOf_None. by rewrite ids_overwrite.
      * rewrite analysisOf_overwrite_ne by done.
        rewrite decide_False; [done|].
        intros [[?|?]%elem_of_cons ?]; [congruence|]. by apply Hnot.
Qed.

(** C2, as the code has it.  When the inference call of a batch succeeds
    and the returned array leaves out a message's id, the analysis of that
    message is left as it is: a pending message keeps its placeholder, at
    score -1.  The synthetic failure record is written only when the call
    fails. *)
Theorem mergeBatch_omitted_id_untouched (batch : list MessageDetail)
    (batchResults : list AnalysisResult) (processedEmails : list ScoredMessage)
    (m : MessageDetail) :
  m ∈ batch →
  email_id m ∈ ids processedEmails →
  email_id m ∉ map result_id batchResults →
  analysisOf (email_id m) (mergeBatch batch (ParsedArray batchResults) processedEmails)
  = analysisOf (email_id m) processedEmails
  ∧ (analysisOf (email_id m) processedEmails = Some (analysisData (placeholder m)) →
     score <$> analysisOf (email_id m)
                 (mergeBatch batch (ParsedArray batchResults) processedEmails)
     = Some (-1))
  ∧ analysisOf (email_id m) (mergeBatch batch PromptFailed processedEmails)
    = Some (failureRecord (email_id m)).
Proof.
  intros Hbatch Hids Homitted. simpl.
  rewrite analysisOf_foldl_applyResult_omitted by done.
  split_and!; [done|by intros ->|].
  rewrite analysisOf_foldl_applyFailure, decide_True; [done|].
  split; [|done]. by apply (list_elem_of_fmap_2 email_id).
Qed.

End Merge.

(** ** The scoring loop *)

Section Scan.

Context {Session : Type} `{LM : LanguageModel Session}.
Variable net : Network.
Variable userProfile : UserProfile.
Variable onBatchProcessed : Sink.

Implicit Types (w : World Session) (recentEmails : list MessageDetail).

Lemma ceilDiv_step (m : nat) :
  (0 < m)%nat → ceilDiv m BATCH_SIZE = S (ceilDiv (m - BATCH_SIZE) BATCH_SIZE).
Proof.
  intros Hm. unfold ceilDiv, BATCH_SIZE.
  destruct (decide (m < 5)%nat).
  - replace (m - 5 + 5 - 1)%nat with 4%nat by lia.
    assert (m = 1 ∨ m = 2 ∨ m = 3 ∨ m = 4)%nat as [->|[->|[->| ->]]] by lia;
      reflexivity.
  - replace (m + 5 - 1)%nat with ((m - 5 + 5 - 1) + 1 * 5)%nat by lia.
    rewrite Nat.div_add by lia. lia.
Qed.

Lemma scoreLoop_done recentEmails (i : nat) processedEmails w :
  (length recentEmails ≤ i)%nat →
  scoreLoop userProfile onBatchProcessed recentEmails i processedEmails w
  = (processedEmails, w).
Proof.
  intros Hdone. rewrite scoreLoop_equation_1.
  destruct (decide (i < length recentEmails)%nat); [lia|done].
Qed.

Lemma scoreLoop_step recentEmails (i : nat) processedEmails w :
  (i < length recentEmails)%nat →
  scoreLoop userProfile onBatchProcessed recentEmails i processedEmails w
  = scoreLoop userProfile onBatchProcessed recentEmails (i + BATCH_SIZE)
      (scoreBatch userProfile onBatchProcessed recentEmails i processedEmails w).1
      (scoreBatch userProfile onBatchProcessed recentEmails i processedEmails w).2.
Proof.
  intros Hstep. rewrite scoreLoop_equation_1.
  destruct (decide (i < length recentEmails)%nat); [done|lia].
Qed.

Lemma since_app w w' (news : list Event) :
  log w' = log w ++ news → since w w' = news.
Proof. intros Hlog. unfold since. by rewrite Hlog, drop_app_length. Qed.

(** One iteration logs one inference call and one call of the sink, which
    receives the merged collection. *)
Lemma scoreBatch_trace recentEmails (i : nat) processedEmails w :
  let batch := slice i (i + BATCH_SIZE) recentEmails in
  let iteration :=
    scoreBatch userProfile onBatchProcessed recentEmails i processedEmails w in
  ∃ outcome news,
    log iteration.2 = log w ++ news
    ∧ sinkCalls news = [mergeBatch batch outcome processedEmails]
    ∧ promptCalls news = [(map toEmailToScore batch, outcome)]
    ∧ iteration.1 = (onBatchProcessed (mergeBatch batch outcome processedEmails)).1.
Proof.
  intros batch iteration. subst iteration. unfold scoreBatch. fold batch.
  set (status := (_ +:+ _)).
  unfold promptBatch. rewrite state_setStatus.
  destruct (aiSession (state w)) as [session|].
  - destruct (prompt_scores session userProfile (map toEmailToScore batch))
      as [outcome session'].
    exists outcome. unfold callSink.
    destruct (onBatchProcessed (mergeBatch batch outcome processedEmails))
      as [emails page].
    destruct outcome; eexists; cbn [fst snd]; count_log;
      (split; [by rewrite <- !app_assoc|done]).
  - exists PromptFailed. unfold callSink.
    destruct (onBatchProcessed (mergeBatch batch PromptFailed processedEmails))
      as [emails page].
    eexists; cbn [fst snd]; count_log;
      (split; [by rewrite <- !app_assoc|done]).
Qed.

(** The loop from offset [i] on: one iteration for every started group of
    [BATCH_SIZE] messages, whatever the answers. *)
Lemma scoreLoop_trace recentEmails (i : nat) processedEmails w :
  let loop :=
    scoreLoop userProfile onBatchProcessed recentEmails i processedEmails w in
  ∃ outcomes news,
    log loop.2 = log w ++ news
    ∧ length outcomes = ceilDiv (length recentEmails - i) BATCH_SIZE
    ∧ sinkCalls news
      = handedOver onBatchProcessed recentEmails i processedEmails outcomes
    ∧ promptCalls news = asked recentEmails i outcomes.
Proof.
  remember (length recentEmails - i)%nat as remaining eqn:Hremaining.
  revert i processedEmails w Hremaining.
  induction remaining as [remaining IH] using lt_wf_ind.
  intros i processedEmails w -> loop. subst loop.
  destruct (decide (i < length recentEmails)%nat) as [Hstep|Hdone].
  - rewrite scoreLoop_step by done.
    destruct (scoreBatch_trace recentEmails i processedEmails w)
      as (outcome & news & Hlog & Hsink & Hprompt & Hemails).
    destruct (IH (length recentEmails - (i + BATCH_SIZE))%nat
                ltac:(unfold BATCH_SIZE; lia) (i + BATCH_SIZE)%nat
                (scoreBatch userProfile onBatchProcessed recentEmails i processedEmails w).1
                (scoreBatch userProfile onBatchProcessed recentEmails i processedEmails w).2
                eq_refl)
      as (outcomes & news' & Hlog' & Hlength & Hsink' & Hprompt').
    exists (outcome :: outcomes), (news ++ news'). split_and!.
    + by rewrite Hlog', Hlog, app_assoc.
    + cbn [length]. rewrite Hlength, (ceilDiv_step (length recentEmails - i)) by lia.
      do 2 f_equal. lia.
    + rewrite sinkCalls_app, Hsink, Hsink', Hemails. done.
    + rewrite promptCalls_app, Hprompt, Hprompt'. done.
  - rewrite scoreLoop_done by lia. exists [], []. split_and!.
    + by rewrite app_nil_r.
    + replace (length recentEmails - i)%nat with 0%nat by lia. done.
    + done.
    + done.
Qed.

(** The whole scan, for a session that has its language model. *)
Lemma scoreRecentEmails_trace (twoDaysAgo : Z) w :
  is_Some (aiSession (state w)) →
  let recentEmails := recentWindow net twoDaysAgo w in
  let scan := scoreRecentEmails net userProfile onBatchProcessed twoDaysAgo w in
  scan.1 = Return ()
  ∧ ∃ outcomes,
      length outcomes = ceilDiv (length recentEmails) BATCH_SIZE
      ∧ sinkCalls (since w scan.2)
        = map placeholder recentEmails
          :: handedOver onBatchProcessed recentEmails 0
               (onBatchProcessed (map placeholder recentEmails)).1 outcomes
      ∧ promptCalls (since w scan.2) = asked recentEmails 0 outcomes.
Proof.
  intros [session Hsession] recentEmails scan.
  subst scan recentEmails. unfold scoreRecentEmails, recentWindow.
  rewrite Hsession.
  pose proof (fetchMessages_world net (RecentUnread (twoDaysAgo / 1000)) 7
                (setStatus "Fetching recent unread emails..." w)) as Hworld.
  destruct (fetchMessages net (RecentUnread (twoDaysAgo / 1000)) 7
              (setStatus "Fetching recent unread emails..." w))
    as [recentEmails w1].
  cbn [fst snd] in *.
  assert (∃ errors, log w1 = log w ++ errors
                    ∧ sinkCalls errors = [] ∧ promptCalls errors = [])
    as (errors & Hlog1 & Hsink1 & Hprompt1).
  { destruct Hworld as [->|[message ->]]; eexists; count_log;
      (split; [by rewrite <- ?app_assoc|done]). }
  destruct recentEmails as [|m recentEmails]; cbn [length Nat.eqb].
  - split; [done|]. exists []. unfold callSink.
    destruct (onBatchProcessed []) as [emails page]. cbn [fst snd].
    erewrite since_app; [|count_log; rewrite Hlog1, <- !app_assoc; done].
    rewrite !sinkCalls_app, !promptCalls_app, Hsink1, Hprompt1. done.
  - set (recent := m :: recentEmails).
    change (S (length recentEmails)) with (length recent).
    unfold callSink.
    destruct (onBatchProcessed (map placeholder recent)) as [seeded page] eqn:Hseed.
    cbn [fst snd]. split; [done|].
    destruct (scoreLoop_trace recent 0 seeded
                (set_emailsEl page (emit (BatchProcessed (map placeholder recent)) w1)))
      as (outcomes & news & Hlog & Hlength & Hsink & Hprompt).
    exists outcomes. split; [by rewrite Hlength, Nat.sub_0_r|].
    erewrite since_app;
      [|rewrite Hlog; count_log; rewrite Hlog1, <- !app_assoc; done].
    rewrite !sinkCalls_app, !promptCalls_app, Hsink1, Hprompt1, Hsink, Hprompt.
    done.
Qed.

Lemma handedOver_length recentEmails (i : nat) processedEmails
    (outcomes : list BatchOutcome) :
  length (handedOver onBatchProcessed recentEmails i processedEmails outcomes)
  = length outcomes.
Proof.
  revert i processedEmails.
  induction outcomes as [|o outcomes IH]; intros; simpl; [done|by rewrite IH].
Qed.

Lemma asked_length recentEmails (i : nat) (outcomes : list BatchOutcome) :
  length (asked recentEmails i outcomes) = length outcomes.
Proof.
  revert i. induction outcomes as [|o outcomes IH]; intros; simpl; [done|by rewrite IH].
Qed.

(** *** The iterations of a scan *)

Lemma asked_lookup recentEmails (i k : nat) (outcomes : list BatchOutcome)
    (ets : list EmailToScore) (outcome : BatchOutcome) :
  asked recentEmails i outcomes !! k = Some (ets, outcome) →
  outcomes !! k = Some outcome
  ∧ ets = map toEmailToScore
            (slice (i + k * BATCH_SIZE) (i + k * BATCH_SIZE + BATCH_SIZE) recentEmails).
Proof.
  revert i k. induction outcomes as [|o outcomes IH]; intros i k; [done|].
  destruct k as [|k]; simpl.
  - intros [= <- <-]. by rewrite Nat.add_0_r.
  - intros Hlookup. apply IH in Hlookup as [Houtcome ->]. split; [done|].
    by replace (i + BATCH_SIZE + k * BATCH_SIZE)%nat
      with (i + (BATCH_SIZE + k * BATCH_SIZE))%nat by lia.
Qed.

Lemma handedOver_lookup recentEmails (i k : nat) (outcomes : list BatchOutcome)
    (outcome : BatchOutcome) (handed : list ScoredMessage) :
  outcomes !! k = Some outcome →
  ∃ before,
    (handed :: handedOver onBatchProcessed recentEmails i
                 (onBatchProcessed handed).1 outcomes) !! k = Some before
    ∧ (handed :: handedOver onBatchProcessed recentEmails i
                   (onBatchProcessed handed).1 outcomes) !! S k
      = Some (mergeBatch
                (slice (i + k * BATCH_SIZE) (i + k * BATCH_SIZE + BATCH_SIZE) recentEmails)
                outcome (onBatchProcessed before).1).
Proof.
  revert i k handed. induction outcomes as [|o outcomes IH]; intros i k handed; [done|].
  destruct k as [|k].
  - intros [= <-]. exists handed. simpl. by rewrite Nat.add_0_r.
  - intros Hlookup. simpl in Hlookup.
    destruct (IH (i + BATCH_SIZE)%nat k
                (mergeBatch (slice i (i + BATCH_SIZE) recentEmails) o
                   (onBatchProcessed handed).1) Hlookup)
      as (before & Hbefore & Hafter).
    exists before. split; [done|].
    replace (i + S k * BATCH_SIZE)%nat
      with (i + BATCH_SIZE + k * BATCH_SIZE)%nat by lia.
    done.
Qed.

(** Iteration [k] of a scan: the sink had been handed [before], the model
    was asked about the batch of offset [5k], and the sink is then handed what
    merging the answer into [before], as the sink left it, gives. *)
Lemma scan_iteration (twoDaysAgo : Z) w (k : nat) (ets : list EmailToScore)
    (outcome : BatchOutcome) :
  is_Some (aiSession (state w)) →
  let recentEmails := recentWindow net twoDaysAgo w in
  let scan := scoreRecentEmails net userProfile onBatchProcessed twoDaysAgo w in
  promptCalls (since w scan.2) !! k = Some (ets, outcome) →
  ets = map toEmailToScore (batchAt recentEmails k)
  ∧ ∃ before,
      sinkCalls (since w scan.2) !! k = Some before
      ∧ sinkCalls (since w scan.2) !! S k
        = Some (mergeBatch (batchAt recentEmails k) outcome (onBatchProcessed before).1).
Proof.
  intros Hsession recentEmails scan.
  destruct (scoreRecentEmails_trace twoDaysAgo w Hsession)
    as (_ & outcomes & _ & Hsink & Hprompt).
  fold scan in Hsink, Hprompt. fold recentEmails in Hsink, Hprompt.
  rewrite Hsink, Hprompt. intros [Houtcome ->]%asked_lookup.
  split; [done|].
  apply (handedOver_lookup recentEmails 0 k outcomes outcome _ Houtcome).
Qed.

Lemma handedOver_ids recentEmails (i : nat) processedEmails
    (outcomes : list BatchOutcome) (handed : list ScoredMessage) :
  (∀ emails, (onBatchProcessed emails).1 ≡ₚ emails) →
  handed ∈ handedOver onBatchProcessed recentEmails i processedEmails outcomes →
  ids handed ≡ₚ ids processedEmails.
Proof.
  intros Hsink. revert i processedEmails.
  induction outcomes as [|o outcomes IH]; intros i processedEmails; simpl.
  - by intros ?%elem_of_nil.
  - intros [->|Hin]%elem_of_cons; [by rewrite ids_mergeBatch|].
    apply IH in Hin. rewrite Hin. unfold ids at 1.
    by rewrite Hsink, ids_mergeBatch.
Qed.

(** A sink that only reorders keeps the window together: every collection
    it is handed holds the messages of the window. *)
Lemma scan_ids (twoDaysAgo : Z) w (handed : list ScoredMessage) :
  (∀ emails, (onBatchProcessed emails).1 ≡ₚ emails) →
  is_Some (aiSession (state w)) →
  let scan := scoreRecentEmails net userProfile onBatchProcessed twoDaysAgo w in
  handed ∈ sinkCalls (since w scan.2) →
  ids handed ≡ₚ map email_id (recentWindow net twoDaysAgo w).
Proof.
  intros Hsink Hsession scan.
  destruct (scoreRecentEmails_trace twoDaysAgo w Hsession)
    as (_ & outcomes & _ & Hcalls & _).
  fold scan in Hcalls. rewrite Hcalls.
  assert (ids (map placeholder (recentWindow net twoDaysAgo w))
          = map email_id (recentWindow net twoDaysAgo w)) as Hseed.
  { unfold ids. by rewrite map_map. }
  intros [Heq|Hin]%elem_of_cons; [by rewrite Heq, Hseed|].
  apply (handedOver_ids _ _ _ _ _ Hsink) in Hin.
  rewrite Hin, <- Hseed. unfold ids. by rewrite Hsink.
Qed.

End Scan.

(** ** A scan that renders: [scoreRecentEmails] with [handleBatchProcessing] *)

Section Rendered.

Context {Session : Type} `{LM : LanguageModel Session}.
Variable net : Network.
Variable userProfile : UserProfile.

Implicit Types (w : World Session) (recentEmails : list MessageDetail).

Lemma handleBatchProcessing_Permutation (emails : list ScoredMessage) :
  (handleBatchProcessing emails).1 ≡ₚ emails.
Proof.
  unfold handleBatchProcessing. rewrite renderEmails_sorts.
  apply Array_sort_Permutation.
Qed.

Lemma ids_Permutation (emails emails' : list ScoredMessage) :
  emails ≡ₚ emails' → ids emails ≡ₚ ids emails'.
Proof. intros Hperm. unfold ids. by rewrite Hperm. Qed.

Lemma ets_id_toEmailToScore (batch : list MessageDetail) :
  map ets_id (map toEmailToScore batch) = map email_id batch.
Proof. by rewrite map_map. Qed.

Lemma elem_of_batchAt recentEmails (k : nat) (m : MessageDetail) :
  m ∈ batchAt recentEmails k
  ↔ ∃ i, (k * BATCH_SIZE ≤ i < k * BATCH_SIZE + BATCH_SIZE)%nat
         ∧ recentEmails !! i = Some m.
Proof.
  unfold batchAt, slice. rewrite list_elem_of_lookup. split.
  - intros (j & [Hlookup Hj]%lookup_take_Some).
    rewrite lookup_drop in Hlookup.
    exists (k * BATCH_SIZE + j)%nat. split; [lia|done].
  - intros (i & Hi & Hlookup). exists (i - k * BATCH_SIZE)%nat.
    apply lookup_take_Some. split; [|lia].
    rewrite lookup_drop. by replace (k * BATCH_SIZE + (i - k * BATCH_SIZE))%nat
      with i by lia.
Qed.

Lemma batchAt_window recentEmails (k : nat) (m : MessageDetail) :
  m ∈ batchAt recentEmails k → m ∈ recentEmails.
Proof.
  intros (i & _ & Hlookup)%elem_of_batchAt. by eapply list_elem_of_lookup_2.
Qed.

(** With distinct ids the batches do not overlap. *)
Lemma batchAt_disjoint recentEmails (j k : nat) (id : string) :
  NoDup (map email_id recentEmails) →
  id ∈ map email_id (batchAt recentEmails j) →
  id ∈ map email_id (batchAt recentEmails k) →
  j = k.
Proof.
  intros Hnodup (m & -> & Hj)%list_elem_of_fmap (m' & Hid & Hk)%list_elem_of_fmap.
  apply elem_of_batchAt in Hj as (i & Hi & Hlookup).
  apply elem_of_batchAt in Hk as (i' & Hi' & Hlookup').
  assert (i = i') as <-.
  { eapply (NoDup_lookup _ _ _ _ Hnodup).
    - change (map email_id recentEmails) with (email_id <$> recentEmails).
      by rewrite list_lookup_fmap, Hlookup.
    - change (map email_id recentEmails) with (email_id <$> recentEmails).
      by rewrite list_lookup_fmap, Hlookup', Hid. }
  unfold BATCH_SIZE in *. lia.
Qed.

Abbreviation scanOf twoDaysAgo w :=
  (scoreRecentEmails net userProfile handleBatchProcessing twoDaysAgo w).

Lemma rendered_ids (twoDaysAgo : Z) w (handed : list ScoredMessage) :
  is_Some (aiSession (state w)) →
  handed ∈ sinkCalls (since w (scanOf twoDaysAgo w).2) →
  ids handed ≡ₚ map email_id (recentWindow net twoDaysAgo w).
Proof. apply scan_ids, handleBatchProcessing_Permutation. Qed.

Lemma rendered_NoDup (twoDaysAgo : Z) w (handed : list ScoredMessage) :
  is_Some (aiSession (state w)) →
  NoDup (map email_id (recentWindow net twoDaysAgo w)) →
  handed ∈ sinkCalls (since w (scanOf twoDaysAgo w).2) →
  NoDup (ids handed).
Proof.
  intros Hsession Hnodup Hin. by rewrite (rendered_ids twoDaysAgo w handed).
Qed.

(** Rendering does not change what the collection holds for a message. *)
Lemma analysisOf_rendered (id : string) (emails : list ScoredMessage) :
  NoDup (ids emails) →
  analysisOf id (handleBatchProcessing emails).1 = analysisOf id emails.
Proof.
  intros Hnodup. symmetry. apply analysisOf_Permutation; [done|].
  symmetry. apply handleBatchProcessing_Permutation.
Qed.

(** An iteration leaves alone every message its answer does not name. *)
Lemma rendered_untouched (twoDaysAgo : Z) w (k : nat) (ets : list EmailToScore)
    (outcome : BatchOutcome) (before after : list ScoredMessage) (id : string) :
  is_Some (aiSession (state w)) →
  NoDup (map email_id (recentWindow net twoDaysAgo w)) →
  promptCalls (since w (scanOf twoDaysAgo w).2) !! k = Some (ets, outcome) →
  sinkCalls (since w (scanOf twoDaysAgo w).2) !! k = Some before →
  sinkCalls (since w (scanOf twoDaysAgo w).2) !! S k = Some after →
  untouchedBy id ets outcome →
  analysisOf id after = analysisOf id before.
Proof.
  intros Hsession Hnodup Hprompt Hbefore Hafter Huntouched.
  destruct (scan_iteration net userProfile handleBatchProcessing twoDaysAgo w k ets
              outcome Hsession Hprompt) as (-> & before' & Hbefore' & Hafter').
  rewrite Hbefore in Hbefore'. injection Hbefore' as <-.
  rewrite Hafter in Hafter'. injection Hafter' as ->.
  rewrite <- (analysisOf_rendered id before)
    by (eapply rendered_NoDup; [done..|by eapply list_elem_of_lookup_2]).
  destruct outcome as [| |batchResults|batchResults]; simpl in *.
  - rewrite analysisOf_foldl_applyFailure, decide_False; [done|].
    intros [Hin _]. apply Huntouched. by rewrite ets_id_toEmailToScore.
  - done.
  - by apply analysisOf_foldl_applyResult_omitted.
  - destruct Huntouched as [Hresults Hbatch].
    rewrite analysisOf_foldl_applyFailure, decide_False;
      [by apply analysisOf_foldl_applyResult_omitted|].
    intros [Hin _]. apply Hbatch. by rewrite ets_id_toEmailToScore.
Qed.

Lemma rendered_prompt_count (twoDaysAgo : Z) w :
  is_Some (aiSession (state w)) →
  length (promptCalls (since w (scanOf twoDaysAgo w).2))
  = ceilDiv (length (recentWindow net twoDaysAgo w)) BATCH_SIZE
  ∧ length (sinkCalls (since w (scanOf twoDaysAgo w).2))
    = S (length (promptCalls (since w (scanOf twoDaysAgo w).2))).
Proof.
  intros Hsession.
  destruct (scoreRecentEmails_trace net userProfile handleBatchProcessing
              twoDaysAgo w Hsession) as (_ & outcomes & Hlength & Hsink & Hprompt).
  rewrite Hsink, Hprompt. cbn [length].
  by rewrite handedOver_length, asked_length, Hlength.
Qed.

(** C4, as the code has it.  The [catch] block runs when the inference
    call of batch [k] rejects, when its text does not parse, or when the
    parsed array holds a [null] entry.  Then, the ids of the window being
    distinct, the collection handed to the sink next holds the failure record,
    with score 0, the title "AI analysis failed for this email." and one
    negative reason, for every message of that batch, whatever the message held
    before; and it holds what it held before for every other message but those
    named by the entries that were merged before the [null] entry was reached.
    A parsed answer that is not an array is no failure: nothing is written.
    In every case the scan goes on: it asks about every batch of the window and
    returns normally. *)
Theorem batch_failure_isolated (twoDaysAgo : Z) w (k : nat)
    (ets : list EmailToScore) (outcome : BatchOutcome)
    (before after : list ScoredMessage) :
  is_Some (aiSession (state w)) →
  NoDup (map email_id (recentWindow net twoDaysAgo w)) →
  promptCalls (since w (scanOf twoDaysAgo w).2) !! k = Some (ets, outcome) →
  sinkCalls (since w (scanOf twoDaysAgo w).2) !! k = Some before →
  sinkCalls (since w (scanOf twoDaysAgo w).2) !! S k = Some after →
  let batch := batchAt (recentWindow net twoDaysAgo w) k in
  ets = map toEmailToScore batch
  ∧ (throws outcome = true →
     (∀ m, m ∈ batch →
        analysisOf (email_id m) after
        = Some {| result_id := email_id m;
                  score := 0;
                  summarizedTitle := "AI analysis failed for this email.";
                  summaryPoints := [];
                  positiveReasons := [];
                  negativeReasons := ["AI model failed to process this batch."] |})
     ∧ (∀ id,
          id ∉ map email_id batch →
          id ∉ map result_id (mergedEntries outcome) →
          analysisOf id after = analysisOf id before))
  ∧ (outcome = ParsedNotArray → ∀ id, analysisOf id after = analysisOf id before)
  ∧ length (promptCalls (since w (scanOf twoDaysAgo w).2))
    = ceilDiv (length (recentWindow net twoDaysAgo w)) BATCH_SIZE
  ∧ (scanOf twoDaysAgo w).1 = Return ().
Proof.
  intros Hsession Hnodup Hprompt Hbefore Hafter batch.
  destruct (scan_iteration net userProfile handleBatchProcessing twoDaysAgo w k ets
              outcome Hsession Hprompt) as (Hets & before' & Hbefore' & Hafter').
  fold batch in Hets, Hafter'.
  rewrite Hbefore in Hbefore'. injection Hbefore' as <-.
  rewrite Hafter in Hafter'. injection Hafter' as Hmerged.
  assert (∀ m, m ∈ batch → email_id m ∈ ids (handleBatchProcessing before).1)
    as Hheld.
  { intros m Hm.
    rewrite (ids_Permutation _ _ (handleBatchProcessing_Permutation before)).
    rewrite (rendered_ids twoDaysAgo w before Hsession)
      by (by eapply list_elem_of_lookup_2).
    apply (list_elem_of_fmap_2 email_id). by eapply batchAt_window. }
  split_and!.
  - done.
  - intros Hthrows. split.
    + intros m Hm. rewrite Hmerged.
      destruct outcome as [| |batchResults|batchResults]; try done; simpl;
        rewrite analysisOf_foldl_applyFailure, ?ids_foldl_applyResult, decide_True;
        try done;
        (split; [by apply (list_elem_of_fmap_2 email_id)|by apply Hheld]).
    + intros id Hid Hentries.
      eapply (rendered_untouched twoDaysAgo w k); [done..|].
      rewrite <- ets_id_toEmailToScore, <- Hets in Hid.
      by destruct outcome.
  - intros -> id. by eapply (rendered_untouched twoDaysAgo w k).
  - by apply rendered_prompt_count.
  - by apply (scoreRecentEmails_trace net userProfile handleBatchProcessing).
Qed.

(** C10.  The merge looks an entry up in the whole collection: an entry of
    the array returned for batch [k] whose id is the id of any message of the
    window, of this batch or another, pending or not, overwrites the analysis
    of that message ([r] being the last entry of the array with its id). *)
Theorem returned_entry_overwrites_any_message (twoDaysAgo : Z) w (k : nat)
    (ets : list EmailToScore) (earlier later : list AnalysisResult)
    (r : AnalysisResult) (after : list ScoredMessage) :
  is_Some (aiSession (state w)) →
  promptCalls (since w (scanOf twoDaysAgo w).2) !! k
  = Some (ets, ParsedArray (earlier ++ r :: later)) →
  sinkCalls (since w (scanOf twoDaysAgo w).2) !! S k = Some after →
  result_id r ∈ map email_id (recentWindow net twoDaysAgo w) →
  result_id r ∉ map result_id later →
  analysisOf (result_id r) after = Some r.
Proof.
  intros Hsession Hprompt Hafter Hwindow Hlast.
  destruct (scan_iteration net userProfile handleBatchProcessing twoDaysAgo w k ets _
              Hsession Hprompt) as (_ & before & Hbefore & Hafter').
  rewrite Hafter in Hafter'. injection Hafter' as ->. simpl.
  apply analysisOf_foldl_applyResult_named; [|done].
  rewrite (ids_Permutation _ _ (handleBatchProcessing_Permutation before)).
  rewrite (rendered_ids twoDaysAgo w before Hsession)
    by (by eapply list_elem_of_lookup_2).
  done.
Qed.

(** A message that no answer names from iteration [k] on is, in every later
    collection, what it was before iteration [k]. *)
Lemma rendered_untouched_later (twoDaysAgo : Z) w (k : nat)
    (before : list ScoredMessage) (id : string) :
  is_Some (aiSession (state w)) →
  NoDup (map email_id (recentWindow net twoDaysAgo w)) →
  sinkCalls (since w (scanOf twoDaysAgo w).2) !! k = Some before →
  (∀ j ets outcome,
     (k ≤ j)%nat →
     promptCalls (since w (scanOf twoDaysAgo w).2) !! j = Some (ets, outcome) →
     untouchedBy id ets outcome) →
  ∀ j handed,
    (k ≤ j)%nat →
    sinkCalls (since w (scanOf twoDaysAgo w).2) !! j = Some handed →
    analysisOf id handed = analysisOf id before.
Proof.
  intros Hsession Hnodup Hbefore Huntouched j.
  induction j as [|j IH]; intros handed Hj Hhanded.
  - assert (k = 0%nat) as -> by lia. congruence.
  - destruct (decide (k = S j)) as [->|Hlater]; [congruence|].
    destruct (rendered_prompt_count twoDaysAgo w Hsession) as [_ Hlength].
    assert (is_Some (promptCalls (since w (scanOf twoDaysAgo w).2) !! j))
      as [[ets outcome] Hprompt].
    { apply lookup_lt_is_Some. apply lookup_lt_Some in Hhanded. lia. }
    destruct (scan_iteration net userProfile handleBatchProcessing twoDaysAgo w j ets
                outcome Hsession Hprompt) as (_ & previous & Hprevious & _).
    transitivity (analysisOf id previous).
    + eapply (rendered_untouched twoDaysAgo w j); [done..|].
      apply (Huntouched j ets outcome); [lia|done].
    + apply IH; [lia|done].
Qed.

(** C3, as the code has it.  When the inference call of batch [k]
    succeeds, every returned entry naming a message of the window overwrites
    the analysis of that message, the collection keeps exactly its messages
    (entries naming no message are dropped), and a message the array does not
    name is left as it was.  A message of the batch that the array leaves out
    stays as it was, pending at score -1, in every later collection as long as
    no later returned array names it. *)
Theorem batch_success_merges_by_id (twoDaysAgo : Z) w (k : nat)
    (ets : list EmailToScore) (batchResults : list AnalysisResult)
    (before after : list ScoredMessage) :
  is_Some (aiSession (state w)) →
  NoDup (map email_id (recentWindow net twoDaysAgo w)) →
  promptCalls (since w (scanOf twoDaysAgo w).2) !! k
  = Some (ets, ParsedArray batchResults) →
  sinkCalls (since w (scanOf twoDaysAgo w).2) !! k = Some before →
  sinkCalls (since w (scanOf twoDaysAgo w).2) !! S k = Some after →
  (∀ earlier r later,
     batchResults = earlier ++ r :: later →
     result_id r ∉ map result_id later →
     result_id r ∈ ids before →
     analysisOf (result_id r) after = Some r)
  ∧ ids after ≡ₚ ids before
  ∧ (∀ id, id ∉ map result_id batchResults →
       analysisOf id after = analysisOf id before)
  ∧ (∀ id,
       id ∈ map ets_id ets →
       id ∉ map result_id batchResults →
       (∀ j ets' outcome',
          (k < j)%nat →
          promptCalls (since w (scanOf twoDaysAgo w).2) !! j = Some (ets', outcome') →
          id ∉ map result_id (mergedEntries outcome')) →
       ∀ j handed,
         (k < j)%nat →
         sinkCalls (since w (scanOf twoDaysAgo w).2) !! j = Some handed →
         analysisOf id handed = analysisOf id before).
Proof.
  intros Hsession Hnodup Hprompt Hbefore Hafter.
  destruct (scan_iteration net userProfile handleBatchProcessing twoDaysAgo w k ets _
              Hsession Hprompt) as (Hets & before' & Hbefore' & Hafter').
  rewrite Hbefore in Hbefore'. injection Hbefore' as <-.
  rewrite Hafter in Hafter'. injection Hafter' as Hmerged.
  assert (ids (handleBatchProcessing before).1 ≡ₚ ids before) as Hrendered
    by apply ids_Permutation, handleBatchProcessing_Permutation.
  split_and!.
  - intros earlier r later -> Hlast Hin. rewrite Hmerged. simpl.
    apply analysisOf_foldl_applyResult_named; [|done]. by rewrite Hrendered.
  - rewrite Hmerged. simpl. by rewrite ids_foldl_applyResult.
  - intros id Hid. by eapply (rendered_untouched twoDaysAgo w k).
  - intros id Hbatch Homitted Hlater j handed Hj Hhanded.
    apply (rendered_untouched_later twoDaysAgo w k before id Hsession Hnodup Hbefore)
      with (j := j); [|lia|done].
    intros j' ets' outcome' Hj' Hprompt'.
    destruct (decide (j' = k)) as [->|Hother].
    + rewrite Hprompt in Hprompt'. by injection Hprompt' as <- <-.
    + assert (id ∉ map ets_id ets') as Hdisjoint.
      { destruct (scan_iteration net userProfile handleBatchProcessing twoDaysAgo w j'
                    ets' _ Hsession Hprompt') as (-> & _).
        rewrite Hets in Hbatch. rewrite ets_id_toEmailToScore in *.
        intros Hin. apply Hother.
        by apply (batchAt_disjoint (recentWindow net twoDaysAgo w) j' k id). }
      pose proof (Hlater j' ets' outcome' ltac:(lia) Hprompt') as Hentries.
      by destruct outcome' as [| |batchResults'|batchResults']; simpl.
Qed.

End Rendered.

(** ** The order of the page *)

Section Presentation.

Implicit Types (recentEmails : list MessageDetail) (e : ScoredMessage).

Lemma StronglySorted_lookup_intro {A} (R : relation A) (l : list A) :
  (∀ i j x y, (i < j)%nat → l !! i = Some x → l !! j = Some y → R x y) →
  StronglySorted R l.
Proof.
  induction l as [|a l IH]; intros Hpairs; constructor.
  - apply IH. intros i j x y Hij Hx Hy. by apply (Hpairs (S i) (S j)); [lia|..].
  - apply Forall_lookup. intros j y Hy. by apply (Hpairs 0%nat (S j)); [lia|..].
Qed.

Lemma fetchIndex_lookup recentEmails (i : nat) (m : MessageDetail) :
  NoDup (map email_id recentEmails) →
  recentEmails !! i = Some m →
  fetchIndex recentEmails (email_id m) = Z.of_nat i.
Proof.
  intros Hnodup Hlookup. unfold fetchIndex, findIndex.
  destruct (list_find _ recentEmails) as [[j m']|] eqn:Hfind.
  - apply list_find_Some in Hfind as (Hlookup' & Hid & _).
    f_equal. apply (NoDup_lookup _ _ _ (email_id m) Hnodup).
    + change (map email_id recentEmails) with (email_id <$> recentEmails).
      rewrite list_lookup_fmap, Hlookup'. simpl. by rewrite Hid.
    + change (map email_id recentEmails) with (email_id <$> recentEmails).
      by rewrite list_lookup_fmap, Hlookup.
  - apply list_find_None in Hfind.
    apply list_elem_of_lookup_2 in Hlookup.
    by destruct (proj1 (Forall_forall _ _) Hfind m Hlookup).
Qed.

(** The messages of batch [k] are those fetched at offsets [5k] to [5k+4]. *)
Lemma fetchIndex_batchAt recentEmails (k : nat) (id : string) :
  NoDup (map email_id recentEmails) →
  id ∈ map email_id (batchAt recentEmails k) →
  Z.of_nat (k * BATCH_SIZE) ≤ fetchIndex recentEmails id
  < Z.of_nat (k * BATCH_SIZE + BATCH_SIZE).
Proof.
  intros Hnodup (m & -> & Hm)%list_elem_of_fmap.
  apply elem_of_batchAt in Hm as (i & Hi & Hlookup).
  rewrite (fetchIndex_lookup recentEmails i m) by done. lia.
Qed.

(** The placeholders are seeded in the order of the fetch. *)
Lemma placeholders_tieOrder recentEmails :
  NoDup (map email_id recentEmails) →
  StronglySorted (tieOrder recentEmails) (map placeholder recentEmails).
Proof.
  intros Hnodup. apply StronglySorted_lookup_intro.
  intros i j x y Hij Hx Hy _.
  change (map placeholder recentEmails) with (placeholder <$> recentEmails) in *.
  rewrite list_lookup_fmap in Hx, Hy.
  destruct (recentEmails !! i) as [m|] eqn:Hi; [|done].
  destruct (recentEmails !! j) as [m'|] eqn:Hj; [|done].
  injection Hx as <-. injection Hy as <-. unfold fetchedBefore. simpl.
  rewrite (fetchIndex_lookup recentEmails i m), (fetchIndex_lookup recentEmails j m')
    by done.
  lia.
Qed.

Lemma sort_insert_presentationOrder recentEmails (a : ScoredMessage)
    (sorted : list ScoredMessage) :
  StronglySorted (presentationOrder recentEmails) sorted →
  Forall (tieOrder recentEmails a) sorted →
  StronglySorted (presentationOrder recentEmails)
    (sort_insert byScoreDescending a sorted).
Proof.
  induction 1 as [|b sorted Hsorted IH Hb]; intros Hties; simpl.
  - repeat constructor.
  - apply Forall_cons in Hties as [Htie Hties].
    rewrite byScoreDescending_scoreOf.
    destruct (scoreOf b - scoreOf a <=? 0) eqn:Hcompare.
    + constructor; [by constructor|].
      assert (presentationOrder recentEmails a b) as Hab.
      { destruct (decide (scoreOf a = scoreOf b)) as [Heq|Hne].
        - right. by split; [|apply Htie].
        - left. lia. }
      constructor; [done|].
      apply Forall_forall. intros c Hc.
      pose proof (proj1 (Forall_forall _ _) Hb c Hc) as Hbc.
      pose proof (proj1 (Forall_forall _ _) Hties c Hc) as Htie'.
      destruct (decide (scoreOf a = scoreOf c)) as [Heq|Hne].
      * right. by split; [|apply Htie'].
      * left. unfold presentationOrder in Hbc. lia.
    + constructor; [by apply IH|].
      rewrite sort_insert_Permutation. constructor; [|done].
      left. lia.
Qed.

(** A stable sort by score turns fetch order among equals into the
    presentation order. *)
Lemma Array_sort_presentationOrder recentEmails (l : list ScoredMessage) :
  StronglySorted (tieOrder recentEmails) l →
  StronglySorted (presentationOrder recentEmails) (Array_sort byScoreDescending l).
Proof.
  induction 1 as [|a l Hsorted IH Ha]; simpl; [constructor|].
  apply sort_insert_presentationOrder; [done|].
  by rewrite Array_sort_Permutation.
Qed.

Lemma overwrite_rescored (batch : list MessageDetail) (id : string)
    (a : AnalysisResult) (emails : list ScoredMessage) :
  id ∈ map email_id batch → -1 ≤ score a →
  Forall2 (rescored batch) emails (overwrite id a emails).
Proof.
  intros Hid Hscore.
  assert (∀ l : list ScoredMessage, Forall2 (rescored batch) l l) as Hrefl.
  { intros l. apply Forall2_same_length_lookup. split; [done|].
    intros i x y Hx Hy. assert (x = y) as -> by congruence. by split; [|left]. }
  induction emails as [|e emails IH]; simpl; [constructor|].
  destruct (decide (email_id (email e) = id)) as [Heq|Hne].
  - constructor; [|apply Hrefl]. split; [done|]. right. by rewrite Heq.
  - constructor; [by split; [|left]|done].
Qed.

Lemma rescored_trans (batch : list MessageDetail) (x y z : ScoredMessage) :
  rescored batch x y → rescored batch y z → rescored batch x z.
Proof.
  intros [Hxy Hxy'] [Hyz Hyz']. split; [congruence|].
  destruct Hyz' as [Hsame|[Hin' Hscore]].
  - destruct Hxy' as [Hsame'|[Hin Hscore]]; [left; congruence|].
    right. split; [done|]. unfold scoreOf in *. by rewrite Hsame.
  - right. split; [|done]. by rewrite <- Hxy.
Qed.

Lemma rescored_refl (batch : list MessageDetail) (emails : list ScoredMessage) :
  Forall2 (rescored batch) emails emails.
Proof.
  apply Forall2_same_length_lookup. split; [done|].
  intros i x y Hx Hy. assert (x = y) as -> by congruence. by split; [|left].
Qed.

(** Merging the answer to a batch changes the analysis of messages of that
    batch only, when the answer names no other. *)
Lemma mergeBatch_rescored (batch : list MessageDetail) (outcome : BatchOutcome)
    (emails : list ScoredMessage) :
  answersOwnBatch (map toEmailToScore batch) outcome →
  Forall2 (rescored batch) emails (mergeBatch batch outcome emails).
Proof.
  assert (∀ (failed : list MessageDetail) held,
            failed ⊆ batch →
            Forall2 (rescored batch) held (foldl applyFailure held failed))
    as Hfailed.
  { intros failed.
    induction failed as [|m failed IH]; intros held Hsub; simpl;
      [apply rescored_refl|].
    eapply Forall2_trans; [apply rescored_trans| |apply IH].
    + rewrite applyFailure_overwrite. apply overwrite_rescored; [|done].
      apply (list_elem_of_fmap_2 email_id). apply Hsub. left.
    + intros x Hx. apply Hsub. by right. }
  assert (∀ (batchResults : list AnalysisResult) held,
            (∀ r, r ∈ batchResults →
                  result_id r ∈ map email_id batch ∧ -1 ≤ score r) →
            Forall2 (rescored batch) held (foldl applyResult held batchResults))
    as Hresults.
  { intros batchResults.
    induction batchResults as [|r batchResults IH]; intros held Hown; simpl;
      [apply rescored_refl|].
    eapply Forall2_trans; [apply rescored_trans| |apply IH].
    + rewrite applyResult_overwrite.
      apply overwrite_rescored; apply (Hown r); left.
    + intros r' Hr'. apply Hown. by right. }
  destruct outcome as [| |batchResults|batchResults]; simpl;
    rewrite ?ets_id_toEmailToScore.
  - intros _. by apply Hfailed.
  - intros _. apply rescored_refl.
  - apply Hresults.
  - intros Hown.
    eapply Forall2_trans; [apply rescored_trans|by apply Hresults|by apply Hfailed].
Qed.

(** Two messages in presentation order, of which the second only may be
    of a batch not yet scored, are in fetch order when the answer to that
    batch makes their scores equal. *)
Lemma rescored_tieOrder recentEmails (k : nat) (x y x' y' : ScoredMessage) :
  NoDup (map email_id recentEmails) →
  presentationOrder recentEmails x y →
  -1 ≤ scoreOf y →
  unscoredFrom recentEmails k x →
  rescored (batchAt recentEmails k) x x' →
  rescored (batchAt recentEmails k) y y' →
  tieOrder recentEmails x' y'.
Proof.
  intros Hnodup Horder Hy Hx [Hemail Hx'] [Hemail' Hy'] Htie.
  unfold fetchedBefore. rewrite Hemail, Hemail'.
  destruct Horder as [Hlower|[_ Hbefore]]; [|done].
  assert (fetchIndex recentEmails (email_id (email x)) < Z.of_nat (k * BATCH_SIZE))
    as Hscored.
  { destruct (decide (Z.of_nat (k * BATCH_SIZE)
                      ≤ fetchIndex recentEmails (email_id (email x)))) as [Hge|]; [|lia].
    apply Hx in Hge. unfold pending in Hge. lia. }
  assert (scoreOf x' = scoreOf x) as Hsame.
  { destruct Hx' as [Hsame|[Hin _]]; [unfold scoreOf; by rewrite Hsame|].
    apply (fetchIndex_batchAt recentEmails k _ Hnodup) in Hin. lia. }
  destruct Hy' as [Hsame'|[Hin _]].
  - unfold scoreOf in *. rewrite Hsame' in Htie. lia.
  - apply (fetchIndex_batchAt recentEmails k _ Hnodup) in Hin. lia.
Qed.

(** What the loop holds at the head of iteration [k]. *)
Lemma merged_tieOrder recentEmails (k : nat) (emails merged : list ScoredMessage) :
  NoDup (map email_id recentEmails) →
  StronglySorted (presentationOrder recentEmails) emails →
  Forall (λ e, -1 ≤ scoreOf e) emails →
  Forall (unscoredFrom recentEmails k) emails →
  Forall2 (rescored (batchAt recentEmails k)) emails merged →
  StronglySorted (tieOrder recentEmails) merged.
Proof.
  intros Hnodup Hsorted Hbounded Hunscored Hrescored.
  induction Hrescored as [|x x' emails merged Hx Hrest IH]; [constructor|].
  apply StronglySorted_cons in Hsorted as [Hx_rest Hsorted].
  apply Forall_cons in Hbounded as [_ Hbounded].
  apply Forall_cons in Hunscored as [Hx_unscored Hunscored].
  constructor; [by apply IH|].
  eapply Forall2_Forall_r; [exact Hrest|].
  apply Forall_forall. intros y Hy y' Hy'.
  apply (rescored_tieOrder recentEmails k x y); try done.
  - by apply (proj1 (Forall_forall _ _) Hx_rest).
  - by apply (proj1 (Forall_forall _ _) Hbounded y).
Qed.

Lemma merged_bounded (batch : list MessageDetail) (emails merged : list ScoredMessage) :
  Forall (λ e, -1 ≤ scoreOf e) emails →
  Forall2 (rescored batch) emails merged →
  Forall (λ e, -1 ≤ scoreOf e) merged.
Proof.
  intros Hbounded Hrescored. eapply Forall2_Forall_r; [exact Hrescored|].
  eapply Forall_impl; [exact Hbounded|].
  intros x Hx y [_ [Hsame|[_ Hy]]]; [|done]. unfold scoreOf in *. by rewrite Hsame.
Qed.

Lemma merged_unscored recentEmails (k : nat) (emails merged : list ScoredMessage) :
  NoDup (map email_id recentEmails) →
  Forall (unscoredFrom recentEmails k) emails →
  Forall2 (rescored (batchAt recentEmails k)) emails merged →
  Forall (unscoredFrom recentEmails (S k)) merged.
Proof.
  intros Hnodup Hunscored Hrescored. eapply Forall2_Forall_r; [exact Hrescored|].
  eapply Forall_impl; [exact Hunscored|].
  intros x Hx y [Hemail Hy]. unfold unscoredFrom in *. rewrite Hemail. intros Hlater.
  destruct Hy as [Hsame|[Hin _]].
  - unfold pending, scoreOf in *. rewrite Hsame. apply Hx. lia.
  - apply (fetchIndex_batchAt recentEmails k _ Hnodup) in Hin. lia.
Qed.

(** Every collection the loop hands over comes out of the sort in
    presentation order, as long as the answers name their own batch. *)
Lemma handedOver_presentationOrder recentEmails (k : nat)
    (emails handed : list ScoredMessage) (outcomes : list BatchOutcome) :
  NoDup (map email_id recentEmails) →
  StronglySorted (presentationOrder recentEmails) emails →
  Forall (λ e, -1 ≤ scoreOf e) emails →
  Forall (unscoredFrom recentEmails k) emails →
  (∀ j outcome,
     outcomes !! j = Some outcome →
     answersOwnBatch (map toEmailToScore (batchAt recentEmails (k + j))) outcome) →
  handed ∈ handedOver handleBatchProcessing recentEmails (k * BATCH_SIZE) emails outcomes →
  StronglySorted (presentationOrder recentEmails) (Array_sort byScoreDescending handed)
  ∧ Forall (λ e, -1 ≤ scoreOf e) handed.
Proof.
  intros Hnodup. revert k emails.
  induction outcomes as [|outcome outcomes IH];
    intros k emails Hsorted Hbounded Hunscored Hown; simpl.
  - by intros ?%elem_of_nil.
  - assert (Forall2 (rescored (batchAt recentEmails k)) emails
              (mergeBatch (batchAt recentEmails k) outcome emails)) as Hrescored.
    { apply mergeBatch_rescored. specialize (Hown 0%nat outcome eq_refl).
      by rewrite Nat.add_0_r in Hown. }
    pose proof (merged_tieOrder recentEmails k _ _ Hnodup Hsorted Hbounded Hunscored
                  Hrescored) as Hties.
    pose proof (merged_bounded _ _ _ Hbounded Hrescored) as Hbounded'.
    pose proof (merged_unscored recentEmails k _ _ Hnodup Hunscored Hrescored)
      as Hunscored'.
    fold (batchAt recentEmails k).
    intros [->|Hin]%elem_of_cons.
    + split; [by apply Array_sort_presentationOrder|done].
    + replace (k * BATCH_SIZE + BATCH_SIZE)%nat with (S k * BATCH_SIZE)%nat in Hin by lia.
      unfold handleBatchProcessing in Hin. rewrite renderEmails_sorts in Hin.
      apply (IH (S k) (Array_sort byScoreDescending
                         (mergeBatch (batchAt recentEmails k) outcome emails)));
        [by apply Array_sort_presentationOrder| | | |done].
      * by rewrite Array_sort_Permutation.
      * by rewrite Array_sort_Permutation.
      * intros j outcome' Hj.
        replace (S k + j)%nat with (k + S j)%nat by lia. by apply Hown.
Qed.

Lemma asked_lookup_Some recentEmails (i k : nat) (outcomes : list BatchOutcome)
    (outcome : BatchOutcome) :
  outcomes !! k = Some outcome →
  asked recentEmails i outcomes !! k
  = Some (map toEmailToScore
            (slice (i + k * BATCH_SIZE) (i + k * BATCH_SIZE + BATCH_SIZE) recentEmails),
          outcome).
Proof.
  revert i k. induction outcomes as [|o outcomes IH]; intros i k; [done|].
  destruct k as [|k]; simpl.
  - intros [= <-]. by rewrite Nat.add_0_r.
  - intros Hlookup. rewrite (IH _ _ Hlookup).
    by replace (i + BATCH_SIZE + k * BATCH_SIZE)%nat
      with (i + (BATCH_SIZE + k * BATCH_SIZE))%nat by lia.
Qed.

Lemma presentationOrder_pendingLast recentEmails (emails : list ScoredMessage) :
  StronglySorted (presentationOrder recentEmails) emails →
  Forall (λ e, -1 ≤ scoreOf e) emails →
  StronglySorted pendingLast emails.
Proof.
  induction 1 as [|x emails Hsorted IH Hx]; intros Hbounded; [constructor|].
  apply Forall_cons in Hbounded as [_ Hbounded].
  constructor; [by apply IH|].
  apply Forall_forall. intros y Hy Hpending.
  pose proof (proj1 (Forall_forall _ _) Hx y Hy) as Horder.
  pose proof (proj1 (Forall_forall _ _) Hbounded y Hy) as Hscore.
  unfold pending, presentationOrder in *. simpl in Hscore. lia.
Qed.

End Presentation.

Section Page.

Context {Session : Type} `{LM : LanguageModel Session}.
Variable net : Network.
Variable userProfile : UserProfile.

(** C7, as the code has it.  Each render sorts the collection in place,
    descending by score and stably with respect to the order the collection
    has when it is handed over, which after the first render is the order the
    previous render left; sorting again changes nothing.  Results of equal
    score are in the order of the fetch, and pending messages come last,
    throughout a scan in which ids are distinct and every returned entry
    names a message of the batch asked about, with a score of at least -1. *)
Theorem presentation_order (twoDaysAgo : Z) (w : World Session) (j : nat)
    (handed : list ScoredMessage) :
  let recentEmails := recentWindow net twoDaysAgo w in
  let scan := scoreRecentEmails net userProfile handleBatchProcessing twoDaysAgo w in
  is_Some (aiSession (state w)) →
  NoDup (map email_id recentEmails) →
  (∀ k ets outcome,
     promptCalls (since w scan.2) !! k = Some (ets, outcome) →
     answersOwnBatch ets outcome) →
  sinkCalls (since w scan.2) !! j = Some handed →
  let shown := (handleBatchProcessing handed).1 in
  shown ≡ₚ handed
  ∧ (∀ s, filter (λ e, scoreOf e = s) shown = filter (λ e, scoreOf e = s) handed)
  ∧ (handleBatchProcessing shown).1 = shown
  ∧ StronglySorted descending shown
  ∧ StronglySorted (presentationOrder recentEmails) shown
  ∧ StronglySorted pendingLast shown.
Proof.
  intros recentEmails scan Hsession Hnodup Hown Hhanded shown.
  subst shown. unfold handleBatchProcessing. rewrite !renderEmails_sorts.
  split; [apply Array_sort_Permutation|].
  split; [intros s; apply Array_sort_stable|].
  split; [apply Array_sort_idempotent|].
  split; [apply Array_sort_descending|].
  assert (StronglySorted (presentationOrder recentEmails)
            (Array_sort byScoreDescending handed)
          ∧ Forall (λ e, -1 ≤ scoreOf e) handed) as [Hsorted Hbounded].
  { destruct (scoreRecentEmails_trace net userProfile handleBatchProcessing
                twoDaysAgo w Hsession) as (_ & outcomes & _ & Hsink & Hprompt).
    fold scan in Hsink, Hprompt. fold recentEmails in Hsink, Hprompt.
    assert (StronglySorted (tieOrder recentEmails) (map placeholder recentEmails))
      as Hseed by by apply placeholders_tieOrder.
    assert (Forall (λ e, -1 ≤ scoreOf e) (map placeholder recentEmails)) as Hseed'.
    { apply Forall_forall. by intros e (m & -> & _)%list_elem_of_fmap. }
    apply list_elem_of_lookup_2 in Hhanded. rewrite Hsink in Hhanded.
    apply elem_of_cons in Hhanded as [->|Hin].
    - split; [by apply Array_sort_presentationOrder|done].
    - unfold handleBatchProcessing in Hin. rewrite renderEmails_sorts in Hin.
      apply (handedOver_presentationOrder recentEmails 0
               (Array_sort byScoreDescending (map placeholder recentEmails))
               handed outcomes); [done| | | | |done].
      + by apply Array_sort_presentationOrder.
      + by rewrite Array_sort_Permutation.
      + rewrite Array_sort_Permutation. apply Forall_forall.
        by intros e (m & -> & _)%list_elem_of_fmap.
      + intros k outcome Hk. apply (Hown k). rewrite Hprompt.
        by rewrite (asked_lookup_Some recentEmails 0 k outcomes outcome Hk). }
  split; [done|].
  apply (presentationOrder_pendingLast recentEmails); [done|].
  by rewrite Array_sort_Permutation.
Qed.

End Page.

(** ** Concrete scans *)

Section Examples.

(** Seven messages make two batches: the sink is called three times, the
    model twice. *)
Example seven_messages_three_sink_calls :
  length (sinkCalls (scanLog sevenIds [])) = 3%nat
  ∧ length (promptCalls (scanLog sevenIds [])) = 2%nat
  ∧ map length (map fst (promptCalls (scanLog sevenIds []))) = [5; 2]%nat.
Proof. by vm_compute. Qed.

(** An empty window: one call of the sink, with nothing, and no call of the
    model. *)
Example empty_window_one_sink_call :
  sinkCalls (scanLog [] []) = [[]] ∧ promptCalls (scanLog [] []) = [].
Proof. by vm_compute. Qed.

(** The window [A; B; C] with an answer for [A] and [C] only. *)
Example partial_answer_leaves_B_pending :
  map (λ e, (email_id (email e), scoreOf e))
    (handedAt (scanLog ["A"; "B"; "C"] [ParsedArray [scored "A" 10; scored "C" 90]]) 1)
  = [("A", 10); ("B", -1); ("C", 90)].
Proof. by vm_compute. Qed.

(** A profile built one millisecond more than 24 hours ago is rebuilt; one
    built a millisecond ago is not. *)
Example stale_profile_is_rebuilt :
  generateCalls
    (log (loadUserProfile offline 1762000000000 1762000000000
            (withStoredProfile (1762000000000 - PROFILE_REFRESH_INTERVAL - 1))).2)
  = 1%nat.
Proof. by vm_compute. Qed.

Example fresh_profile_is_kept :
  generateCalls
    (log (loadUserProfile offline 1762000000000 1762000000000
            (withStoredProfile (1762000000000 - 1))).2)
  = 0%nat
  ∧ (loadUserProfile offline 1762000000000 1762000000000
       (withStoredProfile (1762000000000 - 1))).1 = Return noProfile.
Proof. by vm_compute. Qed.

Example profile_exactly_24h_old_is_kept :
  generateCalls
    (log (loadUserProfile offline 1762000000000 1762000000000
            (withStoredProfile (1762000000000 - PROFILE_REFRESH_INTERVAL))).2)
  = 0%nat.
Proof. by vm_compute. Qed.

End Examples.

(** ** The theorems at work *)

Section Instances.

Lemma scoreRecentEmails_fetch_failure_degrades_witness :
  fetchMessages_try offline "token" (RecentUnread (0 / 1000)) 7 = Throw "Failed to fetch"
  ∧ (scoreRecentEmails offline noProfile handleBatchProcessing 0 (signedIn [])).1
    = Return ()
  ∧ sinkCalls (log (scoreRecentEmails offline noProfile handleBatchProcessing 0
                      (signedIn [])).2)
    = sinkCalls (log (signedIn [])) ++ [[]].
Proof.
  split; [reflexivity|].
  destruct (scoreRecentEmails_fetch_failure_degrades offline noProfile
              handleBatchProcessing 0 (signedIn []) (scriptedSession []) "token"
              "Failed to fetch" eq_refl eq_refl eq_refl)
    as (Hresult & _ & Hsink & _).
  split; assumption.
Defined.

(** C1 as stated fails: with the mail store out of reach the window fetch
    fails, yet the scan is not rejected; it ends as the scan of an empty inbox
    does, with one call of the sink for the empty collection. *)
Lemma scoreRecentEmails_swallows_fetch_failure :
  fetch_list offline "token" (RecentUnread 0) 7 = Rejected
  ∧ (scoreRecentEmails offline noProfile handleBatchProcessing 0 (signedIn [])).1
    = Return ()
  ∧ (¬ ∃ message,
       (scoreRecentEmails offline noProfile handleBatchProcessing 0 (signedIn [])).1
       = Throw message)
  ∧ sinkCalls (log (scoreRecentEmails offline noProfile handleBatchProcessing 0
                      (signedIn [])).2)
    = sinkCalls (scanLog [] [])
  ∧ emailsEl (scoreRecentEmails offline noProfile handleBatchProcessing 0
                (signedIn [])).2
    = NoEmails.
Proof.
  split_and!; [reflexivity|reflexivity| |by vm_compute|by vm_compute].
  intros [message Hthrow]. vm_compute in Hthrow. discriminate Hthrow.
Qed.

Lemma mergeBatch_omitted_id_untouched_witness :
  message "B" ∈ threeMessages
  ∧ ("B" ∉ map result_id [scored "A" 10; scored "C" 90])
  ∧ analysisOf "B" (mergeBatch threeMessages (ParsedArray [scored "A" 10; scored "C" 90])
                      (map placeholder threeMessages))
    = analysisOf "B" (map placeholder threeMessages)
  ∧ analysisOf "B" (mergeBatch threeMessages PromptFailed (map placeholder threeMessages))
    = Some (failureRecord "B").
Proof.
  assert (message "B" ∈ threeMessages) as Hbatch by compute_done.
  assert (email_id (message "B") ∈ ids (map placeholder threeMessages)) as Hids
    by compute_done.
  assert (email_id (message "B") ∉ map result_id [scored "A" 10; scored "C" 90])
    as Homitted by compute_done.
  destruct (mergeBatch_omitted_id_untouched threeMessages
              [scored "A" 10; scored "C" 90] (map placeholder threeMessages)
              (message "B") Hbatch Hids Homitted) as (Hkept & _ & Hfailed).
  split_and!; assumption.
Defined.

(** C2 as stated fails: the call for [A; B; C] succeeds with an answer that
    leaves [B] out, and [B] is then still the placeholder, at score -1, not
    the failure record. *)
Lemma omitted_message_gets_no_failure_record :
  promptCalls (scanLog ["A"; "B"; "C"] answerWithoutB)
  = [(map toEmailToScore threeMessages, ParsedArray [scored "A" 10; scored "C" 90])]
  ∧ analysisOf "B" (handedAt (scanLog ["A"; "B"; "C"] answerWithoutB) 1)
    = Some (analysisData (placeholder (message "B")))
  ∧ analysisOf "B" (handedAt (scanLog ["A"; "B"; "C"] answerWithoutB) 1)
    ≠ Some (failureRecord "B").
Proof. split_and!; [by vm_compute|by vm_compute|]. vm_compute. discriminate. Qed.

Lemma batch_success_merges_by_id_witness :
  is_Some (aiSession (state (signedIn answerWithoutB)))
  ∧ NoDup (map email_id (recentWindow (inbox ["A"; "B"; "C"]) 0 (signedIn answerWithoutB)))
  ∧ promptCalls (scanLog ["A"; "B"; "C"] answerWithoutB) !! 0%nat
    = Some (map toEmailToScore threeMessages,
            ParsedArray [scored "A" 10; scored "C" 90])
  ∧ analysisOf "A" (handedAt (scanLog ["A"; "B"; "C"] answerWithoutB) 1)
    = Some (scored "A" 10)
  ∧ analysisOf "B" (handedAt (scanLog ["A"; "B"; "C"] answerWithoutB) 1)
    = analysisOf "B" (handedAt (scanLog ["A"; "B"; "C"] answerWithoutB) 0).
Proof.
  assert (is_Some (aiSession (state (signedIn answerWithoutB)))) as Hsession
    by compute_done.
  assert (NoDup (map email_id (recentWindow (inbox ["A"; "B"; "C"]) 0
                                 (signedIn answerWithoutB)))) as Hnodup
    by compute_done.
  assert (promptCalls (scanLog ["A"; "B"; "C"] answerWithoutB) !! 0%nat
          = Some (map toEmailToScore threeMessages,
                  ParsedArray [scored "A" 10; scored "C" 90])) as Hprompt
    by by vm_compute.
  assert (sinkCalls (scanLog ["A"; "B"; "C"] answerWithoutB) !! 0%nat
          = Some (handedAt (scanLog ["A"; "B"; "C"] answerWithoutB) 0)) as Hbefore
    by by vm_compute.
  assert (sinkCalls (scanLog ["A"; "B"; "C"] answerWithoutB) !! 1%nat
          = Some (handedAt (scanLog ["A"; "B"; "C"] answerWithoutB) 1)) as Hafter
    by by vm_compute.
  destruct (batch_success_merges_by_id (inbox ["A"; "B"; "C"]) noProfile 0
              (signedIn answerWithoutB) 0 _ _ _ _ Hsession Hnodup Hprompt Hbefore Hafter)
    as (Hnamed & _ & Homitted & _).
  split_and!; [done|done|done| |].
  - apply (Hnamed [] (scored "A" 10) [scored "C" 90]); [done|compute_done|compute_done].
  - apply Homitted. compute_done.
Defined.

(** C3 as stated fails: [A] is left out of the answer for its batch and
    stays at -1 after it, but the answer for the next batch names [A], and in
    the end [A] has the score 90. *)
Lemma omitted_message_scored_by_later_batch :
  promptCalls (scanLog sevenIds lateAnswerForA) !! 0%nat
  = Some (map toEmailToScore (map message ["A"; "B"; "C"; "D"; "E"]),
          ParsedArray [scored "B" 40])
  ∧ score <$> analysisOf "A" (handedAt (scanLog sevenIds lateAnswerForA) 1) = Some (-1)
  ∧ score <$> analysisOf "A" (handedAt (scanLog sevenIds lateAnswerForA) 2) = Some 90
  ∧ length (sinkCalls (scanLog sevenIds lateAnswerForA)) = 3%nat.
Proof. by vm_compute. Qed.

Lemma batch_failure_isolated_witness :
  is_Some (aiSession (state (signedIn nullEntryAfterF)))
  ∧ NoDup (map email_id (recentWindow (inbox sevenIds) 0 (signedIn nullEntryAfterF)))
  ∧ promptCalls (scanLog sevenIds nullEntryAfterF) !! 0%nat
    = Some (map toEmailToScore (map message ["A"; "B"; "C"; "D"; "E"]),
            ParsedArrayNull [scored "A" 30; scored "F" 70])
  ∧ analysisOf "A" (handedAt (scanLog sevenIds nullEntryAfterF) 1)
    = Some (failureRecord "A")
  ∧ analysisOf "G" (handedAt (scanLog sevenIds nullEntryAfterF) 1)
    = analysisOf "G" (handedAt (scanLog sevenIds nullEntryAfterF) 0)
  ∧ length (promptCalls (scanLog sevenIds nullEntryAfterF)) = 2%nat.
Proof.
  assert (is_Some (aiSession (state (signedIn nullEntryAfterF)))) as Hsession
    by compute_done.
  assert (NoDup (map email_id (recentWindow (inbox sevenIds) 0
                                 (signedIn nullEntryAfterF)))) as Hnodup
    by compute_done.
  assert (promptCalls (scanLog sevenIds nullEntryAfterF) !! 0%nat
          = Some (map toEmailToScore (map message ["A"; "B"; "C"; "D"; "E"]),
                  ParsedArrayNull [scored "A" 30; scored "F" 70])) as Hprompt
    by by vm_compute.
  assert (sinkCalls (scanLog sevenIds nullEntryAfterF) !! 0%nat
          = Some (handedAt (scanLog sevenIds nullEntryAfterF) 0)) as Hbefore
    by by vm_compute.
  assert (sinkCalls (scanLog sevenIds nullEntryAfterF) !! 1%nat
          = Some (handedAt (scanLog sevenIds nullEntryAfterF) 1)) as Hafter
    by by vm_compute.
  destruct (batch_failure_isolated (inbox sevenIds) noProfile 0
              (signedIn nullEntryAfterF) 0 _ _ _ _ Hsession Hnodup Hprompt Hbefore Hafter)
    as (_ & Hthrown & _ & Hcount & _).
  destruct (Hthrown eq_refl) as [Hfailed Hothers].
  split_and!; [done|done|done| | |].
  - apply (Hfailed (message "A")). compute_done.
  - apply Hothers; compute_done.
  - unfold scanLog. rewrite Hcount. by vm_compute.
Defined.

(** C4 as stated fails in two ways.  The answer to the first batch names
    [F], a message of the second batch, and gives it the score 70; the second
    call fails, and the failure record replaces that score by 0: a result set
    by a prior batch is changed.  And an answer that parses but is not an array
    writes no failure record: the messages of the batch stay pending at -1, and
    nothing is logged. *)
Lemma failed_batch_overwrites_earlier_score :
  promptCalls (scanLog sevenIds answerForLaterBatch) !! 1%nat
  = Some (map toEmailToScore (map message ["F"; "G"]), PromptFailed)
  ∧ analysisOf "F" (handedAt (scanLog sevenIds answerForLaterBatch) 1)
    = Some (scored "F" 70)
  ∧ analysisOf "F" (handedAt (scanLog sevenIds answerForLaterBatch) 2)
    = Some (failureRecord "F")
  ∧ promptCalls (scanLog ["A"; "B"; "C"] answerNotArray)
    = [(map toEmailToScore threeMessages, ParsedNotArray)]
  ∧ map analysisData (handedAt (scanLog ["A"; "B"; "C"] answerNotArray) 1)
    = map analysisData (map placeholder threeMessages)
  ∧ length (sinkCalls (scanLog ["A"; "B"; "C"] answerNotArray)) = 2%nat.
Proof. by vm_compute. Qed.

Lemma returned_entry_overwrites_any_message_witness :
  is_Some (aiSession (state (signedIn answerForLaterBatch)))
  ∧ promptCalls (scanLog sevenIds answerForLaterBatch) !! 0%nat
    = Some (map toEmailToScore (map message ["A"; "B"; "C"; "D"; "E"]),
            ParsedArray ([scored "A" 30] ++ scored "F" 70 :: []))
  ∧ ("F" ∉ map email_id (batchAt (recentWindow (inbox sevenIds) 0
                                    (signedIn answerForLaterBatch)) 0))
  ∧ analysisOf "F" (handedAt (scanLog sevenIds answerForLaterBatch) 1)
    = Some (scored "F" 70).
Proof.
  assert (is_Some (aiSession (state (signedIn answerForLaterBatch)))) as Hsession
    by compute_done.
  assert (promptCalls (scanLog sevenIds answerForLaterBatch) !! 0%nat
          = Some (map toEmailToScore (map message ["A"; "B"; "C"; "D"; "E"]),
                  ParsedArray ([scored "A" 30] ++ scored "F" 70 :: []))) as Hprompt
    by by vm_compute.
  assert (sinkCalls (scanLog sevenIds answerForLaterBatch) !! 1%nat
          = Some (handedAt (scanLog sevenIds answerForLaterBatch) 1)) as Hafter
    by by vm_compute.
  split_and!; [done|done|compute_done|].
  apply (returned_entry_overwrites_any_message (inbox sevenIds) noProfile 0
           (signedIn answerForLaterBatch) 0 _ [scored "A" 30] [] (scored "F" 70) _
           Hsession Hprompt Hafter); compute_done.
Defined.

Lemma loadUserProfile_fresh_or_rebuilt_witness :
  (∀ t, LAST_ANALYSIS_TIMESTAMP (storage (withStoredProfile (1762000000000 - 1)))
        = Some t → t ≠ 0)
  ∧ ∃ profile,
      USER_PROFILE (storage (withStoredProfile (1762000000000 - 1))) = Some profile
      ∧ (loadUserProfile offline 1762000000000 1762000000000
           (withStoredProfile (1762000000000 - 1))).1 = Return profile
      ∧ generateCalls (log (loadUserProfile offline 1762000000000 1762000000000
                              (withStoredProfile (1762000000000 - 1))).2)
        = generateCalls (log (withStoredProfile (1762000000000 - 1)))
      ∧ storage (loadUserProfile offline 1762000000000 1762000000000
                   (withStoredProfile (1762000000000 - 1))).2
        = storage (withStoredProfile (1762000000000 - 1)).
Proof.
  assert (∀ t, LAST_ANALYSIS_TIMESTAMP (storage (withStoredProfile (1762000000000 - 1)))
               = Some t → t ≠ 0) as Hclock.
  { intros t [= <-]. done. }
  split; [exact Hclock|].
  exact (loadUserProfile_fresh_or_rebuilt offline 1762000000000 1762000000000
           (withStoredProfile (1762000000000 - 1)) Hclock).
Defined.

Lemma presentation_order_witness :
  is_Some (aiSession (state (signedIn answerWithoutB)))
  ∧ NoDup (map email_id (recentWindow (inbox ["A"; "B"; "C"]) 0 (signedIn answerWithoutB)))
  ∧ ids (handleBatchProcessing
           (handedAt (scanLog ["A"; "B"; "C"] answerWithoutB) 1)).1 = ["C"; "A"; "B"]
  ∧ StronglySorted
      (presentationOrder (recentWindow (inbox ["A"; "B"; "C"]) 0 (signedIn answerWithoutB)))
      (handleBatchProcessing (handedAt (scanLog ["A"; "B"; "C"] answerWithoutB) 1)).1
  ∧ StronglySorted pendingLast
      (handleBatchProcessing (handedAt (scanLog ["A"; "B"; "C"] answerWithoutB) 1)).1.
Proof.
  assert (is_Some (aiSession (state (signedIn answerWithoutB)))) as Hsession
    by compute_done.
  assert (NoDup (map email_id (recentWindow (inbox ["A"; "B"; "C"]) 0
                                 (signedIn answerWithoutB)))) as Hnodup
    by compute_done.
  assert (∀ k ets outcome,
            promptCalls (scanLog ["A"; "B"; "C"] answerWithoutB) !! k
            = Some (ets, outcome) →
            answersOwnBatch ets outcome) as Hown.
  { intros [|k] ets outcome Hk; vm_compute in Hk; [|by destruct k].
    injection Hk as <- <-. simpl.
    intros r [->|[->|[]%elem_of_nil]%elem_of_cons]%elem_of_cons;
      (split; [compute_done|done]). }
  assert (sinkCalls (scanLog ["A"; "B"; "C"] answerWithoutB) !! 1%nat
          = Some (handedAt (scanLog ["A"; "B"; "C"] answerWithoutB) 1)) as Hhanded
    by by vm_compute.
  destruct (presentation_order (inbox ["A"; "B"; "C"]) noProfile 0
              (signedIn answerWithoutB) 1 _ Hsession Hnodup Hown Hhanded)
    as (_ & _ & _ & _ & Horder & Hpending).
  split_and!; [done|done|by vm_compute|exact Horder|exact Hpending].
Defined.

(** C7 as stated fails: [A] was fetched before [B]; the first render puts
    [B], at 50, before [A], at 10; the second answer brings [A] to 50 as well,
    and the second sort, stable on the order the first left, shows [B] before
    [A]. *)
Lemma equal_scores_not_in_fetch_order :
  map (λ e, (email_id (email e), scoreOf e))
    (handleBatchProcessing (handedAt (scanLog sevenIds tieAfterResort) 2)).1
  = [("B", 50); ("A", 50); ("C", -1); ("D", -1); ("E", -1); ("F", -1); ("G", -1)]
  ∧ map email_id (recentWindow (inbox sevenIds) 0 (signedIn tieAfterResort)) = sevenIds
  ∧ map card_emailId
      match emailsEl (scoreRecentEmails (inbox sevenIds) noProfile handleBatchProcessing 0
                        (signedIn tieAfterResort)).2 with
      | Cards cards => cards
      | _ => []
      end
    = ["B"; "A"; "C"; "D"; "E"; "F"; "G"].
Proof. by vm_compute. Qed.

End Instances.

(** ** More on the mail gateway *)

Section Fetching.

Context {Session : Type} `{LM : LanguageModel Session}.
Variable net : Network.

Implicit Types (w : World Session) (refs : list MessageRef)
  (details : list MessageDetail).

Lemma promiseAll_resolved {A} (promises : list (Fetched A)) (values : list A) :
  promiseAll promises = Resolved values
  ↔ Forall2 (λ p v, p = Resolved v) promises values.
Proof.
  revert values. induction promises as [|[|a] promises IH]; intros values; simpl.
  - split; [intros [= <-]; constructor|by intros ->%Forall2_nil_inv_l].
  - split; [done|]. intros Hall. apply Forall2_cons_inv_l in Hall as (? & ? & ? & _).
    done.
  - destruct (promiseAll promises) as [|rest] eqn:Hrest.
    + split; [done|]. intros (v & values' & _ & Hall & _)%Forall2_cons_inv_l.
      by apply IH in Hall.
    + split.
      * intros [= <-]. constructor; [done|]. by apply IH.
      * intros (v & values' & [= <-] & Hall & ->)%Forall2_cons_inv_l.
        apply IH in Hall. by injection Hall as ->.
Qed.

(** The loop over the windows returns exactly when every detail arrives,
    and then returns the details in the order of the refs. *)
Lemma fetchDetails_return (token : string) refs (i : nat) details
    (out : list MessageDetail) :
  fetchDetails net token refs i details = Return out
  ↔ ∃ fetched, out = details ++ fetched ∧ Forall2 (arrives net token) (drop i refs) fetched.
Proof.
  remember (length refs - i)%nat as remaining eqn:Hremaining.
  revert i details Hremaining.
  induction remaining as [remaining IH] using lt_wf_ind.
  intros i details ->. rewrite fetchDetails_equation_1.
  destruct (decide (i < length refs)%nat) as [Hstep|Hdone]; simpl.
  - unfold slice. replace (i + concurrency - i)%nat with concurrency by lia.
    destruct (promiseAll _) as [|batch] eqn:Hall.
    + split; [done|]. intros (fetched & _ & Hfetched).
      apply (Forall2_take _ _ _ concurrency) in Hfetched.
      assert (promiseAll
                (map (λ m, fetch_message net token (ref_id m))
                   (take concurrency (drop i refs)))
              = Resolved (take concurrency fetched)) as Hall'.
      { apply promiseAll_resolved.
        change (map ?f ?l) with (f <$> l). by apply Forall2_fmap_l. }
      congruence.
    + apply promiseAll_resolved in Hall.
      change (map ?f ?l) with (f <$> l) in Hall. apply Forall2_fmap_l in Hall.
      rewrite (IH (length refs - (i + concurrency))%nat)
        by (unfold concurrency; lia || done).
      split.
      * intros (later & -> & Hlater). exists (batch ++ later).
        split; [by rewrite app_assoc|].
        rewrite <- (take_drop concurrency (drop i refs)), drop_drop.
        by apply Forall2_app.
      * intros (fetched & -> & Hfetched).
        rewrite <- (take_drop concurrency (drop i refs)), drop_drop in Hfetched.
        apply Forall2_app_inv_l in Hfetched as (batch' & later & Hbatch & Hlater & ->).
        assert (batch' = batch) as ->.
        { clear -Hall Hbatch. revert batch Hall.
          induction Hbatch as [|m d ms ds Hm _ IHb]; intros batch Hall.
          - by apply Forall2_nil_inv_l in Hall.
          - apply Forall2_cons_inv_l in Hall as (d' & batch' & Hd & Hall & ->).
            unfold arrives in *. f_equal; [congruence|by apply IHb]. }
        exists later. by rewrite app_assoc.
  - rewrite drop_ge by lia. split.
    + intros [= <-]. exists []. by rewrite app_nil_r.
    + intros (fetched & -> & ->%Forall2_nil_inv_l). by rewrite app_nil_r.
Qed.

(** X1.  When the list request is answered with a 2xx status and every
    listed message can be fetched, [fetchMessages] returns one detail for
    every listed ref, in the order of the list, and leaves the world as it
    is: the windows of eight neither drop nor reorder anything. *)
Theorem fetchMessages_complete_in_order (query : Query) (maxResults : nat) w
    (token : string) (listRes : ListResponse) refs details :
  accessToken (state w) = Some token →
  fetch_list net token query maxResults = Resolved listRes →
  200 ≤ list_status listRes ≤ 299 →
  list_json listRes = Resolved {| messages := Some refs |} →
  Forall2 (arrives net token) refs details →
  fetchMessages net query maxResults w = (details, w).
Proof.
  intros Htoken Hfetch Hstatus Hjson Hdetails.
  unfold fetchMessages, fetchMessages_try. rewrite Htoken, Hfetch.
  replace (response_ok (list_status listRes)) with true
    by (unfold response_ok; lia).
  simpl. rewrite Hjson. simpl.
  by rewrite (proj2 (fetchDetails_return token refs 0 [] details))
    by (exists details; by rewrite drop_0).
Qed.

(** X2.  For a mail store whose detail responses, when they arrive, carry
    message resources, [fetchMessages] never hands back a part of a result:
    what it returns is empty, or it holds the detail of every message the mail
    store listed, in the order of the list.  A detail request that is rejected,
    or whose body does not parse, makes the whole call return nothing. *)
Theorem fetchMessages_all_or_nothing (query : Query) (maxResults : nat) w :
  (fetchMessages net query maxResults w).1 = []
  ∨ ∃ token listRes refs,
      accessToken (state w) = Some token
      ∧ fetch_list net token query maxResults = Resolved listRes
      ∧ list_json listRes = Resolved {| messages := Some refs |}
      ∧ Forall2 (arrives net token) refs (fetchMessages net query maxResults w).1
      ∧ (fetchMessages net query maxResults w).2 = w.
Proof.
  unfold fetchMessages.
  destruct (accessToken (state w)) as [token|]; [|by left].
  destruct (fetchMessages_try net token query maxResults) as [details|message]
    eqn:Htry; [|by left].
  unfold fetchMessages_try in Htry.
  destruct (fetch_list net token query maxResults) as [|listRes] eqn:Hlist; [done|].
  destruct (negb (response_ok (list_status listRes))); [done|].
  destruct (list_json listRes) as [|[[refs|]]] eqn:Hjson; [done| |].
  - apply fetchDetails_return in Htry as (fetched & -> & Hfetched).
    rewrite drop_0 in Hfetched. right. by exists token, listRes, refs.
  - injection Htry as <-. by left.
Qed.

End Fetching.

(** ** Building and keeping the profile *)

Section Profile.

Context {Session : Type} `{LM : LanguageModel Session}.
Variable net : Network.

Implicit Types (w : World Session).

Lemma fetchMessages_session (query : Query) (maxResults : nat) w :
  aiSession (state (fetchMessages net query maxResults w).2) = aiSession (state w).
Proof. by rewrite (proj1 (fetchMessages_state net query maxResults w)). Qed.

(** What [generateUserProfile] leaves in the store. *)
Lemma generateUserProfile_storage (now : Z) w :
  match (generateUserProfile net now w).1 with
  | Return profile =>
      storage (generateUserProfile net now w).2
      = {| USER_PROFILE := Some profile; LAST_ANALYSIS_TIMESTAMP := Some now |}
  | Throw _ => storage (generateUserProfile net now w).2 = storage w
  end.
Proof.
  unfold generateUserProfile.
  destruct (aiSession (state (emit CallGenerateUserProfile w))) as [session|]; [|done].
  do 4 match goal with
    | |- context [fetchMessages net ?q ?n ?w1] =>
        let H := fresh "Hstorage" in
        pose proof (proj2 (fetchMessages_state net q n w1)) as H;
        destruct (fetchMessages net q n w1) as [? ?];
        cbn [snd] in H
    end.
  destruct (prompt_profile _ _) as [[|profile] session']; cbn [fst snd]; [|done].
  cbn [storage emit setStatus set_session] in *. congruence.
Qed.

(** X3.  [generateUserProfile] writes the store only when it succeeds, and
    then writes the profile and the time of the build together: a failed
    build leaves the stored record, if there is one, as it was. *)
Theorem generateUserProfile_persists_on_success_only (now : Z) w :
  (∀ profile,
     (generateUserProfile net now w).1 = Return profile →
     storage (generateUserProfile net now w).2
     = {| USER_PROFILE := Some profile; LAST_ANALYSIS_TIMESTAMP := Some now |})
  ∧ (∀ message,
       (generateUserProfile net now w).1 = Throw message →
       storage (generateUserProfile net now w).2 = storage w
       ∧ (message = "AI session not available."
          ∨ message = "Could not generate user behavior profile.")).
Proof.
  pose proof (generateUserProfile_storage now w) as Hstorage.
  split.
  - intros profile Hresult. by rewrite Hresult in Hstorage.
  - intros message Hresult. rewrite Hresult in Hstorage. split; [done|].
    revert Hresult. unfold generateUserProfile.
    destruct (aiSession (state (emit CallGenerateUserProfile w))) as [session|];
      [|intros [= <-]; by left].
    do 4 destruct (fetchMessages net _ _ _) as [? ?].
    destruct (prompt_profile _ _) as [[|profile] session']; cbn [fst];
      [intros [= <-]; by right|done].
Qed.

Lemma fetchMessages_outage (query : Query) (maxResults : nat) w :
  (∀ token query maxResults, fetch_list net token query maxResults = Rejected) →
  (fetchMessages net query maxResults w).1 = [].
Proof.
  intros Houtage. unfold fetchMessages, fetchMessages_try.
  destruct (accessToken (state w)) as [token|]; [|done]. by rewrite Houtage.
Qed.

(** X4.  An unreachable mail store does not fail the build: the four
    samples come back empty, the model is asked about four empty lists, and
    whatever profile it answers is stored and returned. *)
Theorem generateUserProfile_survives_outage (now : Z) w (session session' : Session)
    (profile : UserProfile) :
  (∀ token query maxResults, fetch_list net token query maxResults = Rejected) →
  aiSession (state w) = Some session →
  prompt_profile session ([], [], [], []) = (Resolved profile, session') →
  (generateUserProfile net now w).1 = Return profile
  ∧ storage (generateUserProfile net now w).2
    = {| USER_PROFILE := Some profile; LAST_ANALYSIS_TIMESTAMP := Some now |}
  ∧ aiSession (state (generateUserProfile net now w).2) = Some session'.
Proof.
  intros Houtage Hsession Hprompt.
  assert ((generateUserProfile net now w).1 = Return profile
          ∧ aiSession (state (generateUserProfile net now w).2) = Some session')
    as [Hresult Hsession'].
  { unfold generateUserProfile. rewrite state_emit, Hsession.
    do 4 match goal with
      | |- context [fetchMessages net ?q ?n ?w1] =>
          let H := fresh "Hempty" in
          pose proof (fetchMessages_outage q n w1 Houtage) as H;
          destruct (fetchMessages net q n w1) as [? ?];
          cbn [fst] in H; subst
      end.
    cbn [toSimpleList map]. by rewrite Hprompt. }
  split; [done|]. split; [|done].
  pose proof (generateUserProfile_storage now w) as Hstorage.
  by rewrite Hresult in Hstorage.
Qed.

(** A stored profile that is fresh makes step 1/2 return it. *)
Lemma loadUserProfile_stored (now builtAt : Z) w (profile : UserProfile) (t : Z) :
  storage w = {| USER_PROFILE := Some profile; LAST_ANALYSIS_TIMESTAMP := Some t |} →
  t ≠ 0 →
  now - t ≤ PROFILE_REFRESH_INTERVAL →
  loadUserProfile net now builtAt w
  = (Return profile,
     setStatus "1/2: User profile loaded from storage."
       (setStatus "1/2: Loading user profile..." w)).
Proof.
  intros Hstorage Hclock Hage. unfold loadUserProfile.
  cbn [storage setStatus emit]. rewrite Hstorage.
  cbn [USER_PROFILE LAST_ANALYSIS_TIMESTAMP falsy_timestamp default from_option id].
  replace (t =? 0) with false by lia.
  by replace (now - t >? PROFILE_REFRESH_INTERVAL) with false by lia.
Qed.

(** X5.  A profile that was just built is found again: once
    [generateUserProfile] has returned a profile at time [builtAt], step 1/2 of
    any scan started within the next 24 hours returns that profile and does not
    enter the builder. *)
Theorem built_profile_is_reused (now builtAt later : Z) w (profile : UserProfile) :
  (generateUserProfile net builtAt w).1 = Return profile →
  builtAt ≠ 0 →
  now - builtAt ≤ PROFILE_REFRESH_INTERVAL →
  (loadUserProfile net now later (generateUserProfile net builtAt w).2).1
  = Return profile
  ∧ generateCalls
      (log (loadUserProfile net now later (generateUserProfile net builtAt w).2).2)
    = generateCalls (log (generateUserProfile net builtAt w).2).
Proof.
  intros Hbuilt Hclock Hage.
  pose proof (generateUserProfile_storage builtAt w) as Hstorage.
  rewrite Hbuilt in Hstorage.
  rewrite (loadUserProfile_stored now later _ profile builtAt) by done.
  split; [done|]. cbn [snd]. count_log. lia.
Qed.

End Profile.

(** ** Headers *)

Section Headers.

(** X6.  The header lookup ignores the case of header names and takes the
    first header that matches; a message without payload, without headers,
    without a matching header, or whose first matching header has no value,
    gives the empty string. *)
Theorem header_value_first_match (key : string) (e : MessageDetail) :
  match payload e ≫= headers with
  | None => header_value key e = ""
  | Some hs =>
      (Forall (λ h, toLowerCase (name h) ≠ key) hs → header_value key e = "")
      ∧ (∀ before h after,
           hs = before ++ h :: after →
           Forall (λ h', toLowerCase (name h') ≠ key) before →
           toLowerCase (name h) = key →
           header_value key e = default "" (value h))
  end.
Proof.
  unfold header_value, find_first.
  destruct (payload e ≫= headers) as [hs|]; simpl; [|done].
  split.
  - intros Hnone. by rewrite (proj2 (list_find_None _ hs) Hnone).
  - intros before h after -> Hbefore Hmatch.
    assert (list_find (λ h0, toLowerCase (name h0) = key) (before ++ h :: after)
            = Some (length before, h)) as ->; [|done].
    apply list_find_Some. split_and!; [|done|].
    + by rewrite list_lookup_middle.
    + intros j h' Hlookup Hj. rewrite lookup_app_l in Hlookup by done.
      apply list_elem_of_lookup_2 in Hlookup.
      by apply (proj1 (Forall_forall _ _) Hbefore).
Qed.

End Headers.

(** ** Escaping *)

Section Escaping.

Implicit Types (c : Ascii.ascii) (s t : string).

Lemma escapeChar_cases c :
  (c = "&"%char ∧ escapeChar c = "&amp;")
  ∨ (c = "<"%char ∧ escapeChar c = "&lt;")
  ∨ (c = ">"%char ∧ escapeChar c = "&gt;")
  ∨ (c = "034"%char ∧ escapeChar c = "&quot;")
  ∨ (c = "'"%char ∧ escapeChar c = "&#39;")
  ∨ (¬ markup c ∧ escapeChar c = String c EmptyString).
Proof.
  unfold escapeChar, markup.
  destruct (Ascii.eqb_spec c "&"); [by left|].
  destruct (Ascii.eqb_spec c "<"); [by right; left|].
  destruct (Ascii.eqb_spec c ">"); [by right; right; left|].
  destruct (Ascii.eqb_spec c "034"); [by right; right; right; left|].
  destruct (Ascii.eqb_spec c "'"); [by right; right; right; right; left|].
  do 5 right. split; [|done]. by intros [?|[?|[?|[?|?]]]].
Qed.

Lemma append_cons c s t : String c s +:+ t = String c (s +:+ t).
Proof. reflexivity. Qed.

Lemma append_nil t : "" +:+ t = t.
Proof. reflexivity. Qed.

Ltac unfold_append := repeat first [rewrite append_cons | rewrite append_nil].

Lemma append_assoc s t u : s +:+ (t +:+ u) = (s +:+ t) +:+ u.
Proof. induction s as [|c s IH]; unfold_append; [done|]. by rewrite IH. Qed.

Lemma characters_app s t : characters (s +:+ t) = characters s ++ characters t.
Proof.
  induction s as [|c s IH]; unfold_append; simpl; [done|]. by rewrite IH.
Qed.

Lemma escapeText_app s t : escapeText (s +:+ t) = escapeText s +:+ escapeText t.
Proof.
  induction s as [|c s IH]; simpl; [done|]. by rewrite IH, append_assoc.
Qed.

(** X7.  Escaped text holds none of the characters that open or close a
    tag or an attribute value: no [<], no [>], no double quote and no single
    quote, whatever the text was, also when it is missing. *)
Theorem escapeHtml_no_markup (s : option string) (c : Ascii.ascii) :
  c ∈ characters (escapeHtml s) →
  c ≠ "<"%char ∧ c ≠ ">"%char ∧ c ≠ "034"%char ∧ c ≠ "'"%char.
Proof.
  destruct s as [s|]; simpl; [|by intros ?%elem_of_nil].
  induction s as [|c' s IH]; simpl; [by intros ?%elem_of_nil|].
  rewrite characters_app. intros [Hin|Hin]%elem_of_app; [|by apply IH].
  destruct (escapeChar_cases c')
    as [[_ He]|[[_ He]|[[_ He]|[[_ He]|[[_ He]|[Hclean He]]]]]];
    rewrite He in Hin; simpl in Hin.
  1-5: repeat (apply elem_of_cons in Hin as [->|Hin]; [done|]);
       by apply elem_of_nil in Hin.
  apply elem_of_cons in Hin as [->|Hin]; [|by apply elem_of_nil in Hin].
  unfold markup in Hclean. split_and!; intros ->; apply Hclean; auto.
Qed.

Lemma escapeChar_head_injective c c' s t :
  escapeChar c +:+ s = escapeChar c' +:+ t → c = c' ∧ s = t.
Proof.
  destruct (escapeChar_cases c)
    as [[-> ->]|[[-> ->]|[[-> ->]|[[-> ->]|[[-> ->]|[Hclean ->]]]]]];
    destruct (escapeChar_cases c')
      as [[-> ->]|[[-> ->]|[[-> ->]|[[-> ->]|[[-> ->]|[Hclean' ->]]]]]];
    unfold_append; intros Heq; try discriminate Heq;
    try (injection Heq as <-; done);
    try (injection Heq as Hc Hrest; exfalso;
         first [apply Hclean|apply Hclean']; unfold markup; auto; fail).
Qed.

(** X8.  Escaping loses nothing: two texts that escape to the same string
    are the same text. *)
Theorem escapeText_injective s t : escapeText s = escapeText t → s = t.
Proof.
  revert t. induction s as [|c s IH]; intros [|c' t]; simpl.
  - done.
  - destruct (escapeChar_cases c')
      as [[_ ->]|[[_ ->]|[[_ ->]|[[_ ->]|[[_ ->]|[_ ->]]]]]];
      unfold_append; discriminate.
  - destruct (escapeChar_cases c)
      as [[_ ->]|[[_ ->]|[[_ ->]|[[_ ->]|[[_ ->]|[_ ->]]]]]];
      unfold_append; discriminate.
  - intros [-> Hrest]%escapeChar_head_injective. f_equal. by apply IH.
Qed.

Lemma escapeText_length s :
  (String.length s ≤ String.length (escapeText s))%nat
  ∧ (String.length (escapeText s) = String.length s →
     Forall (λ c, ¬ markup c) (characters s)).
Proof.
  assert (∀ a b, String.length (a +:+ b) = (String.length a + String.length b)%nat)
    as Happ.
  { intros a b. induction a as [|x a IHa]; unfold_append; simpl; [done|].
    by rewrite IHa. }
  induction s as [|c s [IHle IHeq]]; simpl; [by split; [|constructor]|].
  rewrite Happ.
  destruct (escapeChar_cases c)
    as [[_ ->]|[[_ ->]|[[_ ->]|[[_ ->]|[[_ ->]|[Hclean ->]]]]]]; simpl;
    (split; [lia|]); intros Hlength; try lia.
  constructor; [done|]. apply IHeq. lia.
Qed.

(** X9.  The texts that escaping leaves as they are are exactly those
    without any of the five characters. *)
Theorem escapeHtml_unchanged_iff_plain s :
  escapeHtml (Some s) = s ↔ Forall (λ c, ¬ markup c) (characters s).
Proof.
  simpl. split.
  - intros Hsame. apply escapeText_length. by rewrite Hsame.
  - induction s as [|c s IH]; simpl; [done|].
    intros [Hclean Hrest]%Forall_cons.
    destruct (escapeChar_cases c)
      as [[Hc _]|[[Hc _]|[[Hc _]|[[Hc _]|[[Hc _]|[_ ->]]]]]];
      try (exfalso; apply Hclean; unfold markup; auto; fail).
    unfold_append. by rewrite IH.
Qed.

End Escaping.

(** ** The cards of a page *)

Section Cards.

Lemma cardSection_descending (a b : ScoredMessage) :
  descending a b → (cardSection (toCard a) ≤ cardSection (toCard b))%nat.
Proof.
  unfold descending, cardSection, scoreOf, toCard, SCORE_THRESHOLD. simpl.
  intros Horder.
  destruct (score (analysisData a) <? 0) eqn:Ha,
           (score (analysisData b) <? 0) eqn:Hb; simpl;
    destruct ((0 <=? score (analysisData a)) && (score (analysisData a) <? 40)) eqn:Ha',
             ((0 <=? score (analysisData b)) && (score (analysisData b) <? 40)) eqn:Hb';
    lia.
Qed.

(** The section of a card, its score display and its low-priority mark,
    read off the score of its message. *)
Lemma toCard_section (e : ScoredMessage) :
  card_emailId (toCard e) = email_id (email e)
  ∧ (40 ≤ scoreOf e →
     cardSection (toCard e) = 0%nat
     ∧ card_score (toCard e) = Some (scoreOf e)
     ∧ card_lowPriority (toCard e) = false)
  ∧ (0 ≤ scoreOf e < 40 →
     cardSection (toCard e) = 1%nat
     ∧ card_score (toCard e) = Some (scoreOf e)
     ∧ card_lowPriority (toCard e) = true)
  ∧ (scoreOf e < 0 →
     cardSection (toCard e) = 2%nat
     ∧ card_score (toCard e) = None
     ∧ card_lowPriority (toCard e) = false).
Proof.
  unfold cardSection, toCard, scoreOf, SCORE_THRESHOLD. simpl.
  split; [done|].
  destruct (score (analysisData e) <? 0) eqn:Hpending;
    destruct (0 <=? score (analysisData e)) eqn:Hscored;
    destruct (score (analysisData e) <? 40) eqn:Hlow; simpl;
    split_and!; intros; (lia || done).
Qed.

(** X10.  A page of cards is laid out in three sections, in this order:
    the cards of the messages scored 40 or more, which show their score; the
    cards of the messages scored from 0 to 39, which show their score and are
    marked low priority; the cards of the messages scored below 0, which show
    no score.  The banner is shown for the empty collection only. *)
Theorem renderEmails_page_sections (emails : list ScoredMessage) :
  match (renderEmails emails).2 with
  | Cards cards =>
      emails ≠ []
      ∧ StronglySorted (λ c c', (cardSection c ≤ cardSection c')%nat) cards
      ∧ Forall2
          (λ e c,
             card_emailId c = email_id (email e)
             ∧ (40 ≤ scoreOf e →
                cardSection c = 0%nat
                ∧ card_score c = Some (scoreOf e)
                ∧ card_lowPriority c = false)
             ∧ (0 ≤ scoreOf e < 40 →
                cardSection c = 1%nat
                ∧ card_score c = Some (scoreOf e)
                ∧ card_lowPriority c = true)
             ∧ (scoreOf e < 0 →
                cardSection c = 2%nat
                ∧ card_score c = None
                ∧ card_lowPriority c = false))
          (renderEmails emails).1 cards
  | NoEmails => emails = []
  | _ => False
  end.
Proof.
  unfold renderEmails. destruct emails as [|e emails]; [done|].
  cbn [length Nat.eqb fst snd]. split; [done|].
  change (map toCard ?l) with (toCard <$> l). split.
  - eapply StronglySorted_fmap; [|apply Array_sort_descending].
    intros a b. apply cardSection_descending.
  - apply Forall2_fmap_r, Forall_Forall2_diag, Forall_forall.
    intros x _. apply toCard_section.
Qed.

(** X11.  A page of cards holds one card for every message of the
    collection and no other card, and the scores it shows go down the page. *)
Theorem renderEmails_one_card_per_message (emails : list ScoredMessage) :
  match (renderEmails emails).2 with
  | Cards cards =>
      cards ≡ₚ map toCard emails
      ∧ map card_emailId cards ≡ₚ ids emails
      ∧ cards = map toCard (renderEmails emails).1
      ∧ StronglySorted descending (renderEmails emails).1
  | NoEmails => emails = []
  | _ => False
  end.
Proof.
  unfold renderEmails. destruct emails as [|e emails]; [done|].
  cbn [length Nat.eqb fst snd].
  pose proof (Array_sort_Permutation byScoreDescending (e :: emails)) as Hperm.
  split_and!.
  - by rewrite Hperm.
  - rewrite Hperm. unfold ids. by rewrite map_map.
  - done.
  - apply Array_sort_descending.
Qed.

End Cards.

(** ** Batches and pages of a scan *)

Section Batches.

Context {Session : Type} `{LM : LanguageModel Session}.
Variable net : Network.
Variable userProfile : UserProfile.
Variable onBatchProcessed : Sink.

Implicit Types (w : World Session) (recentEmails : list MessageDetail).

Lemma ceilDiv_0 (m : nat) : ceilDiv m BATCH_SIZE = 0%nat → m = 0%nat.
Proof.
  destruct m as [|m]; [done|]. by rewrite (ceilDiv_step (S m)) by lia.
Qed.



(** One iteration leaves on the page what the sink made of the merged
    collection. *)
Lemma scoreBatch_page recentEmails (i : nat) processedEmails w :
  let iteration :=
    scoreBatch userProfile onBatchProcessed recentEmails i processedEmails w in
  ∃ merged news,
    log iteration.2 = log w ++ news
    ∧ sinkCalls news = [merged]
    ∧ emailsEl iteration.2 = (onBatchProcessed merged).2.
Proof.
  intros iteration. subst iteration. unfold scoreBatch.
  set (batch := slice i (i + BATCH_SIZE) recentEmails).
  set (status := (_ +:+ _)).
  unfold promptBatch. rewrite state_setStatus.
  destruct (aiSession (state w)) as [session|].
  - destruct (prompt_scores session userProfile (map toEmailToScore batch))
      as [outcome session'].
    exists (mergeBatch batch outcome processedEmails). unfold callSink.
    destruct (onBatchProcessed (mergeBatch batch outcome processedEmails))
      as [emails page].
    destruct outcome; eexists; cbn [fst snd]; count_log;
      (split; [by rewrite <- !app_assoc|done]).
  - exists (mergeBatch batch PromptFailed processedEmails). unfold callSink.
    destruct (onBatchProcessed (mergeBatch batch PromptFailed processedEmails))
      as [emails page].
    eexists; cbn [fst snd]; count_log;
      (split; [by rewrite <- !app_assoc|done]).
Qed.

Lemma scoreLoop_page recentEmails (i : nat) processedEmails w :
  let loop :=
    scoreLoop userProfile onBatchProcessed recentEmails i processedEmails w in
  ∃ news,
    log loop.2 = log w ++ news
    ∧ match last (sinkCalls news) with
      | Some handed => emailsEl loop.2 = (onBatchProcessed handed).2
      | None => emailsEl loop.2 = emailsEl w
      end.
Proof.
  remember (length recentEmails - i)%nat as remaining eqn:Hremaining.
  revert i processedEmails w Hremaining.
  induction remaining as [remaining IH] using lt_wf_ind.
  intros i processedEmails w -> loop. subst loop.
  destruct (decide (i < length recentEmails)%nat) as [Hstep|Hdone].
  - rewrite scoreLoop_step by done.
    destruct (scoreBatch_page recentEmails i processedEmails w)
      as (merged & news & Hlog & Hsink & Hpage).
    destruct (IH (length recentEmails - (i + BATCH_SIZE))%nat
                ltac:(unfold BATCH_SIZE; lia) (i + BATCH_SIZE)%nat
                (scoreBatch userProfile onBatchProcessed recentEmails i processedEmails w).1
                (scoreBatch userProfile onBatchProcessed recentEmails i processedEmails w).2
                eq_refl)
      as (news' & Hlog' & Hlast).
    exists (news ++ news'). split; [by rewrite Hlog', Hlog, app_assoc|].
    rewrite sinkCalls_app, last_app, Hsink.
    destruct (last (sinkCalls news')); [done|]. simpl. by rewrite Hlast.
  - rewrite scoreLoop_done by lia. exists []. by rewrite app_nil_r.
Qed.

(** A scan only adds to the log. *)
Lemma scoreRecentEmails_extends (twoDaysAgo : Z) w :
  let scan := scoreRecentEmails net userProfile onBatchProcessed twoDaysAgo w in
  log scan.2 = log w ++ since w scan.2.
Proof.
  intros scan.
  assert (∃ news, log scan.2 = log w ++ news) as [news Hnews];
    [|by rewrite (since_app _ _ _ Hnews)].
  subst scan. unfold scoreRecentEmails.
  destruct (aiSession (state w)); [|exists []; by rewrite app_nil_r].
  pose proof (fetchMessages_world net (RecentUnread (twoDaysAgo / 1000)) 7
                (setStatus "Fetching recent unread emails..." w)) as Hworld.
  destruct (fetchMessages net (RecentUnread (twoDaysAgo / 1000)) 7
              (setStatus "Fetching recent unread emails..." w))
    as [recentEmails w1].
  cbn [fst snd] in *.
  assert (∃ errors, log w1 = log w ++ errors) as [errors Hlog1].
  { destruct Hworld as [->|[message ->]]; eexists; count_log;
      by rewrite <- ?app_assoc. }
  destruct (length recentEmails =? 0)%nat; unfold callSink.
  - destruct (onBatchProcessed []) as [emails page]. cbn [snd].
    eexists. count_log. by rewrite Hlog1, <- !app_assoc.
  - destruct (onBatchProcessed (map placeholder recentEmails)) as [seeded page].
    destruct (scoreLoop_page recentEmails 0 seeded
                (set_emailsEl page
                   (emit (BatchProcessed (map placeholder recentEmails)) w1)))
      as (news & Hlog & _).
    cbn [snd]. eexists. rewrite Hlog. count_log. by rewrite Hlog1, <- !app_assoc.
Qed.

(** The events of a scan up to the first call of the sink, and the page at
    its end. *)
Lemma scoreRecentEmails_page (twoDaysAgo : Z) w :
  is_Some (aiSession (state w)) →
  let scan := scoreRecentEmails net userProfile onBatchProcessed twoDaysAgo w in
  ∃ before after handed,
    since w scan.2
    = before ++ BatchProcessed (map placeholder (recentWindow net twoDaysAgo w)) :: after
    ∧ sinkCalls before = []
    ∧ promptCalls before = []
    ∧ last (sinkCalls (since w scan.2)) = Some handed
    ∧ emailsEl scan.2 = (onBatchProcessed handed).2.
Proof.
  intros [session Hsession] scan.
  subst scan. unfold scoreRecentEmails, recentWindow.
  rewrite Hsession.
  pose proof (fetchMessages_world net (RecentUnread (twoDaysAgo / 1000)) 7
                (setStatus "Fetching recent unread emails..." w)) as Hworld.
  destruct (fetchMessages net (RecentUnread (twoDaysAgo / 1000)) 7
              (setStatus "Fetching recent unread emails..." w))
    as [recentEmails w1].
  cbn [fst snd] in *.
  assert (∃ errors, log w1 = log w ++ Status "Fetching recent unread emails..." :: errors
                    ∧ sinkCalls errors = [] ∧ promptCalls errors = [])
    as (errors & Hlog1 & Hsink1 & Hprompt1).
  { destruct Hworld as [->|[message ->]]; eexists; count_log;
      (split; [by rewrite <- ?app_assoc|done]). }
  destruct recentEmails as [|m recentEmails]; cbn [length Nat.eqb].
  - unfold callSink. destruct (onBatchProcessed []) as [emails page] eqn:Hsink.
    cbn [fst snd].
    set (caughtUp := Status "No unread emails in the last 2 days. You're all caught up! 🎉").
    exists ([Status "Fetching recent unread emails..."] ++ errors ++ [caughtUp]), [], [].
    erewrite since_app;
      [|count_log; rewrite Hlog1, <- ?app_assoc; cbn [app];
        rewrite <- ?app_assoc; reflexivity].
    split; [by rewrite <- ?app_assoc|].
    change (last (sinkCalls (?a :: errors ++ [?c; ?b])))
      with (last (sinkCalls ([a] ++ errors ++ [c] ++ [b]))).
    rewrite !sinkCalls_app, !promptCalls_app, Hsink1, Hprompt1.
    split_and!; [done|done|done|]. by rewrite Hsink.
  - set (recent := m :: recentEmails).
    change (S (length recentEmails)) with (length recent).
    unfold callSink.
    destruct (onBatchProcessed (map placeholder recent)) as [seeded page] eqn:Hseed.
    cbn [fst snd].
    destruct (scoreLoop_page recent 0 seeded
                (set_emailsEl page (emit (BatchProcessed (map placeholder recent)) w1)))
      as (news & Hlog & Hlast).
    exists (Status "Fetching recent unread emails..." :: errors), news.
    destruct (last (sinkCalls news)) as [handed|] eqn:Hnews.
    + exists handed.
      erewrite since_app;
        [|rewrite Hlog; count_log; rewrite Hlog1, <- !app_assoc; cbn [app]; reflexivity].
      split; [done|].
      change (sinkCalls (Status ?s :: ?l)) with (sinkCalls l).
      change (promptCalls (Status ?s :: ?l)) with (promptCalls l).
      rewrite !sinkCalls_app, Hsink1.
      change (sinkCalls (BatchProcessed ?x :: ?l)) with (x :: sinkCalls l).
      split_and!; [done|done| |done].
      cbn [app]. rewrite last_cons. by rewrite Hnews.
    + exists (map placeholder recent).
      erewrite since_app;
        [|rewrite Hlog; count_log; rewrite Hlog1, <- !app_assoc; cbn [app]; reflexivity].
      split; [done|].
      change (sinkCalls (Status ?s :: ?l)) with (sinkCalls l).
      change (promptCalls (Status ?s :: ?l)) with (promptCalls l).
      rewrite !sinkCalls_app, Hsink1.
      change (sinkCalls (BatchProcessed ?x :: ?l)) with (x :: sinkCalls l).
      split_and!; [done|done| |].
      * cbn [app]. rewrite last_cons. by rewrite Hnews.
      * rewrite Hlast. cbn [emailsEl set_emailsEl]. by rewrite Hseed.
Qed.

(** One iteration asks the model once, about its batch, and keeps the
    session that the answer leaves. *)
Lemma scoreBatch_answer recentEmails (i : nat) processedEmails w (session : Session) :
  aiSession (state w) = Some session →
  let ets := map toEmailToScore (slice i (i + BATCH_SIZE) recentEmails) in
  let iteration :=
    scoreBatch userProfile onBatchProcessed recentEmails i processedEmails w in
  ∃ news,
    log iteration.2 = log w ++ news
    ∧ promptCalls news = [(ets, (prompt_scores session userProfile ets).1)]
    ∧ aiSession (state iteration.2) = Some (prompt_scores session userProfile ets).2.
Proof.
  intros Hsession ets iteration. subst iteration. unfold scoreBatch.
  fold ets. set (status := (_ +:+ _)).
  unfold promptBatch. rewrite state_setStatus, Hsession.
  destruct (prompt_scores session userProfile ets) as [outcome session'].
  unfold callSink. destruct (onBatchProcessed _) as [emails page].
  destruct outcome; eexists; cbn [fst snd]; count_log;
    (split; [by rewrite <- !app_assoc|done]).
Qed.

Lemma scoreLoop_answers recentEmails (i : nat) processedEmails w (session : Session) :
  aiSession (state w) = Some session →
  let loop := scoreLoop userProfile onBatchProcessed recentEmails i processedEmails w in
  let answers :=
    answered userProfile recentEmails i session
      (ceilDiv (length recentEmails - i) BATCH_SIZE) in
  ∃ news,
    log loop.2 = log w ++ news
    ∧ promptCalls news = asked recentEmails i answers.1
    ∧ aiSession (state loop.2) = Some answers.2.
Proof.
  remember (length recentEmails - i)%nat as remaining eqn:Hremaining.
  revert i processedEmails w session Hremaining.
  induction remaining as [remaining IH] using lt_wf_ind.
  intros i processedEmails w session -> Hsession loop answers. subst loop answers.
  destruct (decide (i < length recentEmails)%nat) as [Hstep|Hdone].
  - rewrite scoreLoop_step by done.
    rewrite (ceilDiv_step (length recentEmails - i)) by lia.
    destruct (scoreBatch_answer recentEmails i processedEmails w session Hsession)
      as (news & Hlog & Hprompt & Hsession').
    destruct (IH (length recentEmails - (i + BATCH_SIZE))%nat
                ltac:(unfold BATCH_SIZE; lia) (i + BATCH_SIZE)%nat
                (scoreBatch userProfile onBatchProcessed recentEmails i processedEmails w).1
                (scoreBatch userProfile onBatchProcessed recentEmails i processedEmails w).2
                _ eq_refl Hsession')
      as (news' & Hlog' & Hprompt' & Hfinal).
    exists (news ++ news').
    replace (length recentEmails - i - BATCH_SIZE)%nat
      with (length recentEmails - (i + BATCH_SIZE))%nat by lia.
    cbn [answered fst snd asked]. split_and!.
    + by rewrite Hlog', Hlog, app_assoc.
    + by rewrite promptCalls_app, Hprompt, Hprompt'.
    + done.
  - rewrite scoreLoop_done by lia.
    replace (length recentEmails - i)%nat with 0%nat by lia.
    exists []. by rewrite app_nil_r.
Qed.

(** The inference calls of a scan are the calls of the model on the
    successive batches, each in the session the call before left. *)
Lemma scoreRecentEmails_answers (twoDaysAgo : Z) w (session : Session) :
  aiSession (state w) = Some session →
  let recentEmails := recentWindow net twoDaysAgo w in
  let scan := scoreRecentEmails net userProfile onBatchProcessed twoDaysAgo w in
  let answers :=
    answered userProfile recentEmails 0 session
      (ceilDiv (length recentEmails) BATCH_SIZE) in
  promptCalls (since w scan.2) = asked recentEmails 0 answers.1
  ∧ aiSession (state scan.2) = Some answers.2.
Proof.
  intros Hsession recentEmails scan answers.
  subst scan recentEmails answers. unfold scoreRecentEmails, recentWindow.
  rewrite Hsession.
  pose proof (fetchMessages_world net (RecentUnread (twoDaysAgo / 1000)) 7
                (setStatus "Fetching recent unread emails..." w)) as Hworld.
  destruct (fetchMessages net (RecentUnread (twoDaysAgo / 1000)) 7
              (setStatus "Fetching recent unread emails..." w))
    as [recentEmails w1].
  cbn [fst snd] in *.
  assert (∃ errors, log w1 = log w ++ errors ∧ promptCalls errors = []
                    ∧ aiSession (state w1) = Some session)
    as (errors & Hlog1 & Hprompt1 & Hsession1).
  { destruct Hworld as [->|[message ->]]; eexists; count_log;
      (split; [by rewrite <- ?app_assoc|done]). }
  destruct recentEmails as [|m recentEmails]; cbn [length Nat.eqb].
  - unfold callSink. destruct (onBatchProcessed []) as [emails page]. cbn [fst snd].
    erewrite since_app; [|count_log; rewrite Hlog1, <- !app_assoc; done].
    rewrite !promptCalls_app, Hprompt1. done.
  - set (recent := m :: recentEmails).
    change (S (length recentEmails)) with (length recent).
    unfold callSink.
    destruct (onBatchProcessed (map placeholder recent)) as [seeded page].
    cbn [fst snd].
    destruct (scoreLoop_answers recent 0 seeded
                (set_emailsEl page (emit (BatchProcessed (map placeholder recent)) w1))
                session Hsession1)
      as (news & Hlog & Hprompt & Hfinal).
    rewrite Nat.sub_0_r in Hprompt, Hfinal. split; [|done].
    erewrite since_app;
      [|rewrite Hlog; count_log; rewrite Hlog1, <- !app_assoc; done].
    by rewrite !promptCalls_app, Hprompt1, Hprompt.
Qed.

(** C9.  Over a window of [n] messages the inference service is called
    [ceil(n/5)] times, on the successive batches, and the sink is called
    [1 + ceil(n/5)] times: once with the placeholders, and once after every
    batch with the collection it left at its call before, merged with the
    answer to that batch; the page at the end is what the sink made of the last
    of these collections.  For [n = 0] that is one call of the sink, with the
    empty collection, and no inference call. *)
Theorem scoreRecentEmails_sink_calls (twoDaysAgo : Z) w (session : Session) :
  aiSession (state w) = Some session →
  let recentEmails := recentWindow net twoDaysAgo w in
  let n := length recentEmails in
  let scan := scoreRecentEmails net userProfile onBatchProcessed twoDaysAgo w in
  let answers := answered userProfile recentEmails 0 session (ceilDiv n BATCH_SIZE) in
  promptCalls (since w scan.2) = asked recentEmails 0 answers.1
  ∧ aiSession (state scan.2) = Some answers.2
  ∧ sinkCalls (since w scan.2)
    = map placeholder recentEmails
      :: handedOver onBatchProcessed recentEmails 0
           (onBatchProcessed (map placeholder recentEmails)).1 answers.1
  ∧ (∃ handed,
       last (sinkCalls (since w scan.2)) = Some handed
       ∧ emailsEl scan.2 = (onBatchProcessed handed).2)
  ∧ length (sinkCalls (since w scan.2)) = (1 + ceilDiv n BATCH_SIZE)%nat
  ∧ length (promptCalls (since w scan.2)) = ceilDiv n BATCH_SIZE
  ∧ (n = 0%nat →
     sinkCalls (since w scan.2) = [[]]
     ∧ promptCalls (since w scan.2) = []
     ∧ emailsEl scan.2 = (onBatchProcessed []).2).
Proof.
  intros Hsession recentEmails n scan answers.
  assert (is_Some (aiSession (state w))) as Hsome by by eexists.
  destruct (scoreRecentEmails_trace net userProfile onBatchProcessed twoDaysAgo w Hsome)
    as (_ & outcomes & Hlength & Hsink & Hprompt).
  destruct (scoreRecentEmails_answers twoDaysAgo w session Hsession)
    as [Hasked Hfinal].
  destruct (scoreRecentEmails_page twoDaysAgo w Hsome)
    as (_ & _ & handed & _ & _ & _ & Hlast & Hpage).
  fold recentEmails scan in Hlength, Hsink, Hprompt, Hasked, Hfinal, Hlast, Hpage.
  fold n in Hlength, Hasked, Hfinal. fold answers in Hasked, Hfinal.
  assert (outcomes = answers.1) as Hanswers.
  { assert (∀ i l, map snd (asked recentEmails i l) = l) as Hsnd.
    { intros i l. revert i. induction l as [|o l IH]; intros i; simpl; [done|].
      by rewrite IH. }
    rewrite <- (Hsnd 0%nat outcomes), <- (Hsnd 0%nat answers.1). congruence. }
  rewrite Hanswers in Hsink, Hlength.
  split_and!; [done|done|done|by exists handed| | |].
  - rewrite Hsink. cbn [length]. by rewrite handedOver_length, Hlength.
  - by rewrite Hasked, asked_length, Hlength.
  - intros Hempty. rewrite Hempty in Hlength.
    destruct answers.1; [|done].
    rewrite Hsink, Hasked in *. subst n.
    apply nil_length_inv in Hempty. rewrite Hempty in *. simpl in *.
    injection Hlast as <-. done.
Qed.


End Batches.

(** ** The page at the end of a scan *)

Section Pages.

Context {Session : Type} `{LM : LanguageModel Session}.
Variable net : Network.
Variable userProfile : UserProfile.

Implicit Types (w : World Session) (recentEmails : list MessageDetail)
  (emails : list ScoredMessage).

(** The last collection handed to [handleBatchProcessing], and the page
    made of it. *)
Lemma scan_last_page (twoDaysAgo : Z) w :
  is_Some (aiSession (state w)) →
  let scan := scoreRecentEmails net userProfile handleBatchProcessing twoDaysAgo w in
  ∃ handed,
    last (sinkCalls (since w scan.2)) = Some handed
    ∧ emailsEl scan.2 = (renderEmails handed).2
    ∧ ids handed ≡ₚ map email_id (recentWindow net twoDaysAgo w).
Proof.
  intros Hsession scan.
  destruct (scoreRecentEmails_page net userProfile handleBatchProcessing twoDaysAgo w
              Hsession) as (_ & _ & handed & _ & _ & _ & Hlast & Hpage).
  exists handed. split_and!; [done|done|].
  apply (scan_ids net userProfile handleBatchProcessing twoDaysAgo w handed);
    [apply handleBatchProcessing_Permutation|done|].
  by apply last_Some_elem_of.
Qed.

(** X14.  When a scan is over, the page shows the banner if the window was
    empty, and otherwise one card for every message of the window and no
    other card, whatever the model answered along the way. *)
Theorem scoreRecentEmails_final_page (twoDaysAgo : Z) w :
  is_Some (aiSession (state w)) →
  let scan := scoreRecentEmails net userProfile handleBatchProcessing twoDaysAgo w in
  match emailsEl scan.2 with
  | NoEmails => recentWindow net twoDaysAgo w = []
  | Cards cards =>
      recentWindow net twoDaysAgo w ≠ []
      ∧ map card_emailId cards ≡ₚ map email_id (recentWindow net twoDaysAgo w)
  | _ => False
  end.
Proof.
  intros Hsession scan.
  destruct (scan_last_page twoDaysAgo w Hsession) as (handed & _ & Hpage & Hids).
  fold scan in Hpage. rewrite Hpage. unfold renderEmails.
  destruct handed as [|e handed]; cbn [length Nat.eqb snd].
  - apply Permutation_nil_l in Hids. symmetry in Hids. by apply map_eq_nil in Hids.
  - split.
    + intros Hempty. rewrite Hempty in Hids. by apply Permutation_nil_r in Hids.
    + rewrite <- Hids, map_map.
      apply (ids_Permutation (Array_sort byScoreDescending (e :: handed))).
      apply Array_sort_Permutation.
Qed.

(** Where the analysis of a message comes from after the entries of an
    array were merged. *)
Lemma analysisOf_foldl_applyResult_source (id : string) (a : AnalysisResult) emails
    (batchResults : list AnalysisResult) :
  analysisOf id (foldl applyResult emails batchResults) = Some a →
  (a ∈ batchResults ∧ result_id a = id)
  ∨ (analysisOf id emails = Some a ∧ id ∉ map result_id batchResults).
Proof.
  revert emails. induction batchResults as [|r rs IH]; intros emails; simpl.
  - intros Ha. right. split; [done|apply not_elem_of_nil].
  - intros Ha. apply IH in Ha as [[Hin Hid]|[Ha Hrs]].
    + left. split; [by right|done].
    + rewrite applyResult_overwrite in Ha.
      destruct (decide (result_id r = id)) as [Heq|Hne].
      * left.
        assert (id ∈ ids emails) as Hin.
        { rewrite <- (ids_overwrite (result_id r) r). apply analysisOf_is_Some.
          by rewrite Ha. }
        rewrite <- Heq in Ha, Hin. rewrite analysisOf_overwrite_eq in Ha by done.
        injection Ha as <-. split; [left|done].
      * rewrite analysisOf_overwrite_ne in Ha by done. right. split; [done|].
        apply not_elem_of_cons. split; [congruence|done].
Qed.

(** An inference call that answers in full settles the messages of its
    batch and unsettles no other. *)
Lemma mergeBatch_settled (batch : list MessageDetail) (outcome : BatchOutcome) emails
    (id : string) (a : AnalysisResult) :
  answersInFull (map toEmailToScore batch) outcome →
  analysisOf id (mergeBatch batch outcome emails) = Some a →
  id ∈ map email_id batch ∨ (∀ a0, analysisOf id emails = Some a0 → 0 ≤ score a0) →
  0 ≤ score a.
Proof.
  destruct outcome as [| |rs|rs]; simpl; [|done| |].
  - intros _. rewrite analysisOf_foldl_applyFailure.
    destruct (decide _) as [_|Hnot]; [by intros [= <-]|].
    intros Ha [Hin|Hold]; [|by apply Hold].
    exfalso. apply Hnot. split; [done|]. apply analysisOf_is_Some. by rewrite Ha.
  - intros [Hall Hscores] Ha Hcase.
    apply analysisOf_foldl_applyResult_source in Ha as [[Hin _]|[Ha Homit]];
      [by apply Hscores|].
    destruct Hcase as [Hin|Hold]; [|by apply Hold].
    exfalso. apply Homit, Hall. by rewrite ets_id_toEmailToScore.
  - intros Hscores. rewrite analysisOf_foldl_applyFailure, ids_foldl_applyResult.
    destruct (decide _) as [_|Hnot]; [by intros [= <-]|].
    intros Ha Hcase.
    apply analysisOf_foldl_applyResult_source in Ha as [[Hin _]|[Ha Homit]];
      [by apply Hscores|].
    destruct Hcase as [Hin|Hold]; [|by apply Hold].
    exfalso. apply Hnot. split; [done|]. apply analysisOf_is_Some. by rewrite Ha.
Qed.

(** The loop settles the window batch by batch. *)
Lemma handedOver_settled recentEmails (i : nat) emails
    (outcomes : list BatchOutcome) (handed : list ScoredMessage) :
  NoDup (ids emails) →
  settledUpTo recentEmails i emails →
  (∀ call, call ∈ asked recentEmails i outcomes → answersInFull call.1 call.2) →
  last (handedOver handleBatchProcessing recentEmails i emails outcomes) = Some handed →
  settledUpTo recentEmails (i + length outcomes * BATCH_SIZE) handed.
Proof.
  revert i emails. induction outcomes as [|o outcomes IH];
    intros i emails Hnodup Hsettled Hfull; [done|].
  cbn [handedOver asked length] in *.
  set (batch := slice i (i + BATCH_SIZE) recentEmails) in *.
  set (merged := mergeBatch batch o emails).
  assert (settledUpTo recentEmails (i + BATCH_SIZE) merged) as Hmerged.
  { intros id a Hid Ha.
    apply (mergeBatch_settled batch o emails id a);
      [apply (Hfull (map toEmailToScore batch, o)); left|done|].
    rewrite <- take_take_drop, map_app in Hid.
    apply elem_of_app in Hid as [Hid|Hid]; [right|left].
    - intros a0. by apply Hsettled.
    - unfold batch, slice. by replace (i + BATCH_SIZE - i)%nat with BATCH_SIZE by lia. }
  rewrite last_cons.
  destruct (last (handedOver _ _ _ _ outcomes)) as [later|] eqn:Hlater.
  - intros [= <-].
    replace (i + S (length outcomes) * BATCH_SIZE)%nat
      with (i + BATCH_SIZE + length outcomes * BATCH_SIZE)%nat by lia.
    assert (NoDup (ids merged)) as Hnodup'.
    { unfold merged. by rewrite ids_mergeBatch. }
    apply (IH (i + BATCH_SIZE)%nat (handleBatchProcessing merged).1).
    + by rewrite (ids_Permutation _ _ (handleBatchProcessing_Permutation merged)).
    + intros id a Hid. rewrite analysisOf_rendered by done. by apply Hmerged.
    + intros call Hcall. apply Hfull. by right.
    + done.
  - intros [= <-]. apply last_None in Hlater.
    destruct outcomes; [|done].
    by replace (i + 1 * BATCH_SIZE)%nat with (i + BATCH_SIZE)%nat by lia.
Qed.

(** X15.  If every inference call of a scan fails or answers in full, that
    is with an array that names each message of its batch and holds no score
    below 0, then no card of the final page is left pending: every card shows
    a score.  The ids of the window are assumed distinct. *)
Theorem full_answers_leave_no_card_pending (twoDaysAgo : Z) w :
  is_Some (aiSession (state w)) →
  NoDup (map email_id (recentWindow net twoDaysAgo w)) →
  let scan := scoreRecentEmails net userProfile handleBatchProcessing twoDaysAgo w in
  (∀ call, call ∈ promptCalls (since w scan.2) → answersInFull call.1 call.2) →
  ∀ cards,
    emailsEl scan.2 = Cards cards →
    Forall (λ c, ∃ s, card_score c = Some s ∧ 0 ≤ s) cards.
Proof.
  intros Hsession Hnodup scan Hfull cards.
  destruct (scoreRecentEmails_trace net userProfile handleBatchProcessing twoDaysAgo w
              Hsession) as (_ & outcomes & Hlength & Hcalls & Hprompt).
  destruct (scan_last_page twoDaysAgo w Hsession) as (handed & Hlast & Hpage & Hids).
  fold scan in Hcalls, Hprompt, Hlast, Hpage.
  set (recentEmails := recentWindow net twoDaysAgo w) in *.
  assert (NoDup (ids handed)) as Hdistinct by by rewrite Hids.
  assert (∀ e, e ∈ handed → 0 ≤ score (analysisData e)) as Hsettled.
  { rewrite Hcalls, last_cons in Hlast. rewrite Hprompt in Hfull.
    destruct (last (handedOver _ _ _ _ outcomes)) as [later|] eqn:Hlater.
    - injection Hlast as ->.
      assert (settledUpTo recentEmails (0 + length outcomes * BATCH_SIZE) handed)
        as Hall.
      { apply (handedOver_settled recentEmails 0
                 (handleBatchProcessing (map placeholder recentEmails)).1 outcomes);
          [|by intros id a ?%elem_of_nil|done|done].
        rewrite (ids_Permutation _ _ (handleBatchProcessing_Permutation _)).
        unfold ids. by rewrite map_map. }
      intros e He. apply (Hall (email_id (email e))).
      + rewrite take_ge.
        * rewrite <- Hids. unfold ids.
          by apply (list_elem_of_fmap_2 (λ e, email_id (email e))).
        * rewrite Hlength. unfold ceilDiv, BATCH_SIZE.
          pose proof (Nat.div_mod_eq (length recentEmails + 5 - 1) 5).
          pose proof (Nat.mod_upper_bound (length recentEmails + 5 - 1) 5).
          lia.
      + apply analysisOf_Some_NoDup; [done|]. by exists e.
    - injection Hlast as <-. apply last_None in Hlater.
      assert (length outcomes = 0%nat) as Hnone.
      { by rewrite <- (handedOver_length handleBatchProcessing recentEmails 0
                         (handleBatchProcessing (map placeholder recentEmails)).1),
          Hlater. }
      rewrite Hnone in Hlength. symmetry in Hlength.
      apply (ceilDiv_0 (length recentEmails)) in Hlength.
      destruct recentEmails; [|done]. by intros e ?%elem_of_nil. }
  rewrite Hpage. unfold renderEmails.
  destruct (length handed =? 0)%nat; cbn [snd]; [done|].
  intros [= <-]. change (map toCard ?l) with (toCard <$> l).
  apply Forall_fmap, Forall_forall. intros e He.
  rewrite Array_sort_Permutation in He. apply Hsettled in He.
  exists (score (analysisData e)). split; [|done].
  unfold toCard. cbn [card_score]. by replace (score (analysisData e) <? 0) with false by lia.
Qed.

End Pages.

(** ** A whole run: [analyzeAndDisplayEmails] *)

Section Runs.

Context {Session : Type} `{LM : LanguageModel Session}.
Variable net : Network.

Implicit Types (w : World Session).

Lemma sameAccount_refl w : sameAccount w w.
Proof. by split_and!. Qed.

Lemma sameAccount_trans w1 w2 w3 :
  sameAccount w1 w2 → sameAccount w2 w3 → sameAccount w1 w3.
Proof.
  intros (Htoken & Hsigned & Hsession) (Htoken' & Hsigned' & Hsession').
  split_and!; [congruence|congruence|auto].
Qed.

Lemma silent_trans w1 w2 w3 : silent w1 w2 → silent w2 w3 → silent w1 w3.
Proof.
  intros (Hpage & news & Hlog & Hsink & Hprompt)
         (Hpage' & news' & Hlog' & Hsink' & Hprompt').
  split; [congruence|]. exists (news ++ news'). split_and!.
  - by rewrite Hlog', Hlog, app_assoc.
  - by rewrite sinkCalls_app, Hsink, Hsink'.
  - by rewrite promptCalls_app, Hprompt, Hprompt'.
Qed.

Lemma silent_sinkCalls w w' :
  silent w w' → sinkCalls (since w w') = [] ∧ promptCalls (since w w') = [].
Proof. intros (_ & news & Hlog & Hsink & Hprompt). by rewrite (since_app _ _ _ Hlog). Qed.

Lemma fetchMessages_silent (query : Query) (maxResults : nat) w :
  silent w (fetchMessages net query maxResults w).2.
Proof.
  destruct (fetchMessages_world net query maxResults w) as [->|[message ->]].
  - split; [done|]. exists []. by rewrite app_nil_r.
  - split; [done|]. by eexists.
Qed.

(** The profile builder leaves the page alone, scores nothing, and keeps
    the account. *)
Lemma generateUserProfile_silent (now : Z) w :
  silent w (generateUserProfile net now w).2
  ∧ sameAccount w (generateUserProfile net now w).2.
Proof.
  unfold generateUserProfile. rewrite state_emit.
  destruct (aiSession (state w)) as [session|] eqn:Hsession.
  - do 4 match goal with
      | |- context [fetchMessages net ?q ?n ?w1] =>
          let H := fresh "Hworld" in
          pose proof (fetchMessages_world net q n w1) as H;
          destruct (fetchMessages net q n w1) as [? ?];
          cbn [snd] in H; destruct H as [->|[? ->]]
      end;
      destruct (prompt_profile _ _) as [[|profile] session']; cbn [fst snd];
      (split;
       [split; [done|]; eexists;
        split; [count_log; rewrite <- ?app_assoc; reflexivity|done]
       |by split_and!]).
  - split; [|by split_and!]. split; [done|]. by eexists.
Qed.

Lemma loadUserProfile_silent (now builtAt : Z) w :
  silent w (loadUserProfile net now builtAt w).2
  ∧ sameAccount w (loadUserProfile net now builtAt w).2.
Proof.
  assert (∀ s, silent w (setStatus s w) ∧ sameAccount w (setStatus s w)) as Hstatus.
  { intros s. split; [|by split_and!]. split; [done|]. by eexists. }
  assert (∀ s s',
            silent w (generateUserProfile net builtAt (setStatus s' (setStatus s w))).2
            ∧ sameAccount w
                (generateUserProfile net builtAt (setStatus s' (setStatus s w))).2)
    as Hbuild.
  { intros s s'.
    destruct (generateUserProfile_silent builtAt (setStatus s' (setStatus s w)))
      as [Hsilent Haccount].
    split.
    - eapply silent_trans; [|exact Hsilent]. split; [done|]. eexists.
      split; [count_log; rewrite <- ?app_assoc; reflexivity|done].
    - eapply sameAccount_trans; [|exact Haccount]. by split_and!. }
  unfold loadUserProfile. cbn [storage setStatus emit].
  destruct (USER_PROFILE (storage w)) as [profile|]; [|apply Hbuild].
  destruct (_ || _); [apply Hbuild|]. cbn [snd].
  split; [|by split_and!]. split; [done|]. eexists.
  split; [count_log; rewrite <- ?app_assoc; reflexivity|done].
Qed.

(** With a session at hand, step 1/2 can fail in one way only, and a failed
    step leaves the store as it was. *)
Lemma loadUserProfile_failure (now builtAt : Z) w (message : string) :
  is_Some (aiSession (state w)) →
  (loadUserProfile net now builtAt w).1 = Throw message →
  message = "Could not generate user behavior profile."
  ∧ storage (loadUserProfile net now builtAt w).2 = storage w.
Proof.
  intros [session Hsession].
  assert (∀ s s',
            let w' := setStatus s' (setStatus s w) in
            (generateUserProfile net builtAt w').1 = Throw message →
            message = "Could not generate user behavior profile."
            ∧ storage (generateUserProfile net builtAt w').2 = storage w) as Hbuild.
  { intros s s' w'. unfold generateUserProfile.
    replace (aiSession (state (emit CallGenerateUserProfile w'))) with (Some session)
      by done.
    do 4 match goal with
      | |- context [fetchMessages net ?q ?n ?w1] =>
          let H := fresh "Hworld" in
          pose proof (proj2 (fetchMessages_state net q n w1)) as H;
          destruct (fetchMessages net q n w1) as [? ?];
          cbn [snd] in H
      end.
    destruct (prompt_profile _ _) as [[|profile] session']; cbn [fst snd]; [|done].
    intros [= <-]. split; [done|]. subst w'.
    cbn [storage emit setStatus set_session] in *. congruence. }
  unfold loadUserProfile. cbn [storage setStatus emit].
  destruct (USER_PROFILE (storage w)) as [profile|]; [|apply Hbuild].
  destruct (_ || _); [apply Hbuild|done].
Qed.

(** What step 1/2 leaves in the store. *)
Lemma loadUserProfile_storage (now builtAt : Z) w :
  storage (loadUserProfile net now builtAt w).2 = storage w
  ∨ ∃ profile,
      storage (loadUserProfile net now builtAt w).2
      = {| USER_PROFILE := Some profile; LAST_ANALYSIS_TIMESTAMP := Some builtAt |}.
Proof.
  assert (∀ s s',
            let w' := setStatus s' (setStatus s w) in
            storage (generateUserProfile net builtAt w').2 = storage w
            ∨ ∃ profile,
                storage (generateUserProfile net builtAt w').2
                = {| USER_PROFILE := Some profile;
                     LAST_ANALYSIS_TIMESTAMP := Some builtAt |}) as Hbuild.
  { intros s s' w'. pose proof (generateUserProfile_storage net builtAt w') as Hstorage.
    destruct (generateUserProfile net builtAt w').1 as [profile|message];
      [right; by exists profile|by left]. }
  unfold loadUserProfile. cbn [storage setStatus emit].
  destruct (USER_PROFILE (storage w)) as [profile|]; [|apply Hbuild].
  destruct (_ || _); [apply Hbuild|by left].
Qed.

(** The scoring loop keeps the account and the store. *)
Lemma scoreBatch_account (userProfile : UserProfile) (onBatchProcessed : Sink)
    (recentEmails : list MessageDetail) (i : nat) (processedEmails : list ScoredMessage) w :
  let iteration :=
    scoreBatch userProfile onBatchProcessed recentEmails i processedEmails w in
  sameAccount w iteration.2 ∧ storage iteration.2 = storage w.
Proof.
  intros iteration. subst iteration. unfold scoreBatch, promptBatch, callSink.
  rewrite state_setStatus.
  destruct (aiSession (state w)) as [session|] eqn:Hsession.
  - destruct (prompt_scores _ _ _) as [outcome session'].
    destruct (onBatchProcessed _) as [emails page].
    destruct outcome; cbn [fst snd];
      (split; [split_and!; [done|done|intros _; by eexists]|done]).
  - destruct (onBatchProcessed _) as [emails page].
    split; [split_and!; [done|done|]|done]. rewrite Hsession. by intros [? ?].
Qed.

Lemma scoreLoop_account (userProfile : UserProfile) (onBatchProcessed : Sink)
    (recentEmails : list MessageDetail) (i : nat) (processedEmails : list ScoredMessage) w :
  let loop := scoreLoop userProfile onBatchProcessed recentEmails i processedEmails w in
  sameAccount w loop.2 ∧ storage loop.2 = storage w.
Proof.
  remember (length recentEmails - i)%nat as remaining eqn:Hremaining.
  revert i processedEmails w Hremaining.
  induction remaining as [remaining IH] using lt_wf_ind.
  intros i processedEmails w -> loop. subst loop.
  destruct (decide (i < length recentEmails)%nat) as [Hstep|Hdone].
  - rewrite scoreLoop_step by done.
    destruct (scoreBatch_account userProfile onBatchProcessed recentEmails i
                processedEmails w) as [Haccount Hstorage].
    destruct (IH (length recentEmails - (i + BATCH_SIZE))%nat
                ltac:(unfold BATCH_SIZE; lia) (i + BATCH_SIZE)%nat
                (scoreBatch userProfile onBatchProcessed recentEmails i processedEmails w).1
                (scoreBatch userProfile onBatchProcessed recentEmails i processedEmails w).2
                eq_refl)
      as [Haccount' Hstorage'].
    split; [by eapply sameAccount_trans|congruence].
  - rewrite scoreLoop_done by lia. split; [apply sameAccount_refl|done].
Qed.

Lemma scoreRecentEmails_account (userProfile : UserProfile) (onBatchProcessed : Sink)
    (twoDaysAgo : Z) w :
  let scan := scoreRecentEmails net userProfile onBatchProcessed twoDaysAgo w in
  sameAccount w scan.2 ∧ storage scan.2 = storage w.
Proof.
  intros scan. subst scan. unfold scoreRecentEmails.
  destruct (aiSession (state w)) as [session|] eqn:Hsession;
    [|split; [apply sameAccount_refl|done]].
  pose proof (fetchMessages_world net (RecentUnread (twoDaysAgo / 1000)) 7
                (setStatus "Fetching recent unread emails..." w)) as Hworld.
  destruct (fetchMessages net (RecentUnread (twoDaysAgo / 1000)) 7
              (setStatus "Fetching recent unread emails..." w))
    as [recentEmails w1].
  cbn [fst snd] in *.
  assert (sameAccount w w1 ∧ storage w1 = storage w) as [Haccount Hstorage].
  { destruct Hworld as [->|[message ->]]; (split; [by split_and!|done]). }
  destruct (length recentEmails =? 0)%nat; unfold callSink.
  - destruct (onBatchProcessed []) as [emails page]. cbn [snd].
    split; [|done]. eapply sameAccount_trans; [exact Haccount|]. by split_and!.
  - destruct (onBatchProcessed (map placeholder recentEmails)) as [seeded page].
    cbn [snd].
    destruct (scoreLoop_account userProfile onBatchProcessed recentEmails 0 seeded
                (set_emailsEl page
                   (emit (BatchProcessed (map placeholder recentEmails)) w1)))
      as [Haccount' Hstorage'].
    split; [|by rewrite Hstorage'].
    eapply sameAccount_trans; [exact Haccount|].
    eapply sameAccount_trans; [|exact Haccount']. by split_and!.
Qed.

(** X16.  A run started by a signed-in user with a session ends in one of
    two ways.  Either the profile could not be built: the page shows that
    error, no message was sent for scoring, nothing was rendered and the store
    is as it was.  Or the run completes: the status says so and the page is
    the rendering of the last collection handed over, the banner or cards.
    Failures of the mail store and of the scoring calls never lead to the
    error page. *)
Theorem analyzeAndDisplayEmails_outcomes (now builtAt twoDaysAgo : Z) w :
  isSignedIn (state w) = true →
  is_Some (aiSession (state w)) →
  let run := analyzeAndDisplayEmails net now builtAt twoDaysAgo w in
  (emailsEl run
   = ErrorMessage "An error occurred: Could not generate user behavior profile."
   ∧ last (log run)
     = Some (Status
               "Error: Could not generate user behavior profile.. See console for details.")
   ∧ sinkCalls (since w run) = []
   ∧ promptCalls (since w run) = []
   ∧ storage run = storage w)
  ∨ (rendered (emailsEl run)
     ∧ last (log run)
       = Some (Status "Analysis complete. All emails have been processed and sorted.")
     ∧ ∃ handed,
         last (sinkCalls (since w run)) = Some handed
         ∧ emailsEl run = (renderEmails handed).2).
Proof.
  intros Hsigned Hsession run. subst run. unfold analyzeAndDisplayEmails.
  rewrite Hsigned, (bool_decide_eq_true_2 _ Hsession). cbn [negb orb].
  set (w0 := set_emailsEl Spinner w).
  destruct (loadUserProfile_silent now builtAt w0)
    as [(_ & news & Hlog & Hsink & Hprompt) (_ & _ & Hkept)].
  pose proof (loadUserProfile_failure now builtAt w0) as Hfailure.
  destruct (loadUserProfile net now builtAt w0) as [[userProfile|message] w1];
    cbn [fst snd] in *.
  - right. specialize (Hkept Hsession).
    destruct (scoreRecentEmails_trace net userProfile handleBatchProcessing twoDaysAgo w1
                Hkept) as (Hreturn & _).
    destruct (scan_last_page net userProfile twoDaysAgo w1 Hkept)
      as (handed & Hlast & Hpage & _).
    pose proof (scoreRecentEmails_extends net userProfile handleBatchProcessing
                  twoDaysAgo w1) as Hscan.
    destruct (scoreRecentEmails net userProfile handleBatchProcessing twoDaysAgo w1)
      as [[[]|message] w2]; cbn [fst snd] in *; [|done].
    split_and!.
    + cbn [emailsEl setStatus emit]. rewrite Hpage. unfold renderEmails, rendered.
      destruct (length handed =? 0)%nat; cbn [snd]; [by left|right; by eexists].
    + rewrite log_setStatus. apply last_snoc.
    + exists handed. split; [|done].
      erewrite since_app;
        [|rewrite log_setStatus, Hscan, Hlog, <- !app_assoc; reflexivity].
      rewrite !sinkCalls_app, Hsink. cbn [app].
      change (sinkCalls [Status ?s]) with (@nil (list ScoredMessage)).
      by rewrite app_nil_r.
  - left. destruct (Hfailure message Hsession eq_refl) as [-> Hstorage].
    split_and!; [done|count_log; apply last_snoc| | |done].
    + erewrite since_app;
        [|count_log; rewrite Hlog, <- !app_assoc; reflexivity].
      by rewrite !sinkCalls_app, Hsink.
    + erewrite since_app;
        [|count_log; rewrite Hlog, <- !app_assoc; reflexivity].
      by rewrite !promptCalls_app, Hprompt.
Qed.

(** X17.  A run never signs the user out and never loses the session, and
    it writes the store in one case only: a profile was built, and then the
    store holds that profile with the time of the build. *)
Theorem analyzeAndDisplayEmails_keeps_account (now builtAt twoDaysAgo : Z) w :
  let run := analyzeAndDisplayEmails net now builtAt twoDaysAgo w in
  sameAccount w run
  ∧ (storage run = storage w
     ∨ ∃ profile,
         storage run
         = {| USER_PROFILE := Some profile; LAST_ANALYSIS_TIMESTAMP := Some builtAt |}).
Proof.
  intros run. subst run. unfold analyzeAndDisplayEmails.
  destruct (_ || _); [by split; [split_and!|left]|].
  set (w0 := set_emailsEl Spinner w).
  destruct (loadUserProfile_silent now builtAt w0) as [_ Haccount].
  pose proof (loadUserProfile_storage now builtAt w0) as Hstorage.
  destruct (loadUserProfile net now builtAt w0) as [[userProfile|message] w1];
    cbn [fst snd] in *.
  - destruct (scoreRecentEmails_account userProfile handleBatchProcessing twoDaysAgo w1)
      as [Haccount' Hstorage'].
    destruct (scoreRecentEmails net userProfile handleBatchProcessing twoDaysAgo w1)
      as [[[]|message] w2]; cbn [fst snd] in *.
    + split; [|cbn [storage setStatus emit]; by rewrite Hstorage'].
      eapply sameAccount_trans; [exact Haccount|].
      eapply sameAccount_trans; [exact Haccount'|]. by split_and!.
    + split; [|cbn [storage setStatus emit set_emailsEl]; by rewrite Hstorage'].
      eapply sameAccount_trans; [exact Haccount|].
      eapply sameAccount_trans; [exact Haccount'|]. by split_and!.
  - split; [|done]. eapply sameAccount_trans; [exact Haccount|]. by split_and!.
Qed.

End Runs.

(** ** Signing out *)

Section SigningOut.

Context {Session : Type} `{LM : LanguageModel Session}.

Implicit Types (w : World Session).

(** X18.  Signing out ends the session for every entry point: the stored
    profile, the page, the summarizer and the cached translators are gone, and
    afterwards a scan only asks to sign in, a fetch returns nothing without
    reaching the mail store, a label change is refused, and a second sign-out
    does nothing. *)
Theorem handleSignOut_ends_session w (helpers : Helpers) (token : string) :
  accessToken (state w) = Some token →
  let out := handleSignOut w helpers in
  storage out.1 = {| USER_PROFILE := None; LAST_ANALYSIS_TIMESTAMP := None |}
  ∧ emailsEl out.1 = Blank
  ∧ out.2 = {| summarizer := None; translators := ∅ |}
  ∧ log out.1 = log w ++ [Status "Signing out..."; Status "Signed out."]
  ∧ (∀ net now builtAt twoDaysAgo,
       analyzeAndDisplayEmails net now builtAt twoDaysAgo out.1
       = setStatus "Please sign in first." out.1)
  ∧ (∀ net query maxResults, fetchMessages net query maxResults out.1 = ([], out.1))
  ∧ (∀ net messageId addLabelIds removeLabelIds,
       modifyEmail net messageId addLabelIds removeLabelIds out.1
       = (Throw "Authentication token not found.", out.1))
  ∧ handleSignOut out.1 out.2 = out.
Proof.
  intros Htoken out. subst out. unfold handleSignOut. rewrite Htoken.
  cbn [fst snd]. split_and!; try done.
  cbn [log emit]. by rewrite <- app_assoc.
Qed.

End SigningOut.

(** ** Translating a summary *)

Section Translation.

Implicit Types (li : SummaryItem) (listItems : list SummaryItem)
  (translators : gmap string Translator) (api : TranslatorApi).

Lemma originalText_saveOriginal li : originalText (saveOriginal li) = Some (original li).
Proof.
  unfold saveOriginal, original, lacksOriginal.
  destruct li as [text [saved|]]; simpl; [|done].
  by destruct (bool_decide (saved = "")).
Qed.

Lemma textContent_restoreOriginal li :
  textContent (restoreOriginal (saveOriginal li)) = original li.
Proof.
  unfold restoreOriginal, saveOriginal, original, lacksOriginal.
  destruct li as [text [saved|]]; simpl.
  - destruct (bool_decide (saved = "")) eqn:Hsaved; simpl.
    + by destruct (bool_decide (text = "")).
    + by rewrite Hsaved.
  - by destruct (bool_decide (text = "")).
Qed.

(** The items after a translation that succeeded. *)
Lemma translated_items (translator : Translator) listItems (translatedTexts : list string) :
  promiseAll (map (λ li, translator (default "" (originalText li)))
                (map saveOriginal listItems))
  = Resolved translatedTexts →
  Forall2 (λ li li', translator (original li) = Resolved (textContent li')
                     ∧ originalText li' = Some (original li))
    listItems
    (zip_with (λ li text, {| textContent := text; originalText := originalText li |})
       (map saveOriginal listItems) translatedTexts).
Proof.
  revert translatedTexts.
  induction listItems as [|li listItems IH]; intros translatedTexts; simpl.
  - intros [= <-]. constructor.
  - rewrite originalText_saveOriginal. simpl.
    destruct (translator (original li)) as [|text] eqn:Htext; [done|].
    destruct (promiseAll _) as [|texts] eqn:Hall; [done|].
    intros [= <-]. simpl. constructor; [done|]. by apply IH.
Qed.

(** What a request can come to: translated items with the translator in
    the cache, or the original texts with nothing lost from the cache. *)
Lemma handleTranslationRequest_cases api (targetLang : string) translators listItems :
  targetLang ≠ "" →
  let request := handleTranslationRequest api targetLang translators listItems in
  (∃ translator,
     request.2 = SelectShown targetLang
     ∧ request.1.1 !! ("en-" +:+ targetLang) = Some translator
     ∧ (translators !! ("en-" +:+ targetLang) = None
        → translator_create api "en" targetLang = Resolved translator)
     ∧ translators ⊆ request.1.1
     ∧ Forall2 (λ li li', translator (original li) = Resolved (textContent li')
                          ∧ originalText li' = Some (original li))
         listItems request.1.2)
  ∨ (request.2 = TranslationFailed
     ∧ translators ⊆ request.1.1
     ∧ map textContent request.1.2 = map original listItems).
Proof.
  intros Hlang request. subst request. unfold handleTranslationRequest.
  rewrite bool_decide_eq_false_2 by done.
  change ("en" +:+ "-" +:+ targetLang) with ("en-" +:+ targetLang).
  assert (map textContent (map restoreOriginal (map saveOriginal listItems))
          = map original listItems) as Hrestored.
  { rewrite !map_map. apply map_ext. intros li. apply textContent_restoreOriginal. }
  destruct (translators !! ("en-" +:+ targetLang)) as [translator|] eqn:Hcached.
  - destruct (promiseAll _) as [|translatedTexts] eqn:Hall; cbn [fst snd].
    + by right.
    + left. exists translator. split_and!; [done|done|done|done|].
      by apply translated_items.
  - destruct (translator_availability api "en" targetLang); [by right|].
    destruct (translator_create api "en" targetLang) as [|translator]; [by right|].
    destruct (promiseAll _) as [|translatedTexts] eqn:Hall; cbn [fst snd].
    + right. split_and!; [done|by apply insert_subseteq|done].
    + left. exists translator.
      split_and!; [done|apply lookup_insert_eq|done|by apply insert_subseteq|].
      by apply translated_items.
Qed.

(** What [original] is, by the saved text of the item. *)
Lemma original_cases li :
  (∀ saved, originalText li = Some saved → saved ≠ "" → original li = saved)
  ∧ (originalText li = None ∨ originalText li = Some "" → original li = textContent li).
Proof.
  unfold original, lacksOriginal. destruct li as [text [saved|]]; simpl.
  - split.
    + intros ? [= <-] Hsaved. by rewrite bool_decide_eq_false_2.
    + intros [?|[= ->]]; done.
  - split; [done|by intros _].
Qed.

(** X19.  A request that ends with the select showing the chosen language
    has put in every item a translation made by the translator that the cache
    now holds for the language: the translation of the text saved in the item
    where the item carried a non-empty one, which it keeps, and the translation
    of the text the item showed otherwise, which is then the saved text. *)
Theorem handleTranslationRequest_translates_originals api (targetLang : string)
    translators listItems :
  targetLang ≠ "" →
  let request := handleTranslationRequest api targetLang translators listItems in
  request.2 = SelectShown targetLang →
  ∃ translator,
    request.1.1 !! ("en-" +:+ targetLang) = Some translator
    ∧ Forall2
        (λ li li',
           (∀ saved,
              originalText li = Some saved → saved ≠ "" →
              translator saved = Resolved (textContent li')
              ∧ originalText li' = Some saved)
           ∧ (originalText li = None ∨ originalText li = Some "" →
              translator (textContent li) = Resolved (textContent li')
              ∧ originalText li' = Some (textContent li)))
        listItems request.1.2.
Proof.
  intros Hlang request Hshown.
  destruct (handleTranslationRequest_cases api targetLang translators listItems Hlang)
    as [(translator & _ & Hcached & _ & _ & Hitems)|[Hfailed _]].
  - exists translator. split; [done|].
    eapply Forall2_impl; [exact Hitems|].
    intros li li' [Htext Hsaved].
    destruct (original_cases li) as [Hkept Hshowed]. split.
    + intros saved Hli Hfilled. by rewrite <- (Hkept saved).
    + intros Hli. by rewrite <- (Hshowed Hli).
  - fold request in Hfailed. congruence.
Qed.

(** X20.  A request that fails, because the translator cannot be had or
    because one translation is rejected, leaves an item that carries a
    non-empty saved text showing that text, leaves every other item showing
    what it showed, and drops nothing from the cache of translators. *)
Theorem handleTranslationRequest_failure_restores api (targetLang : string)
    translators listItems :
  let request := handleTranslationRequest api targetLang translators listItems in
  request.2 = TranslationFailed →
  Forall2
    (λ li li',
       (∀ saved, originalText li = Some saved → saved ≠ "" → textContent li' = saved)
       ∧ (originalText li = None ∨ originalText li = Some "" →
          textContent li' = textContent li))
    listItems request.1.2
  ∧ translators ⊆ request.1.1.
Proof.
  intros request Hfailed.
  destruct (decide (targetLang = "")) as [Hnone|Hlang].
  { subst request. unfold handleTranslationRequest in Hfailed.
    by rewrite bool_decide_eq_true_2 in Hfailed by done. }
  destruct (handleTranslationRequest_cases api targetLang translators listItems Hlang)
    as [(translator & Hshown & _)|(_ & Hcache & Hitems)];
    [fold request in Hshown; congruence|].
  fold request in Hitems, Hcache. split; [|done].
  symmetry in Hitems. apply list_eq_Forall2 in Hitems.
  change (map ?f ?l) with (f <$> l) in Hitems.
  apply (Forall2_fmap original textContent eq) in Hitems.
  eapply Forall2_impl; [exact Hitems|].
  intros li li' Htext. destruct (original_cases li) as [Hkept Hshowed]. split.
  - intros saved Hli Hfilled. by rewrite <- Htext, (Hkept saved).
  - intros Hli. by rewrite <- Htext, (Hshowed Hli).
Qed.

(** X21.  Translations do not chain.  After a translation that succeeded,
    a request for another language works from the texts the card was rendered
    with: if it succeeds, every item shows the translation of its original
    text; if it fails, every item shows its original text again.  Items are
    assumed not to be empty. *)
Theorem second_translation_starts_from_original api api' (first second : string)
    translators listItems :
  first ≠ "" → second ≠ "" →
  Forall (λ li, original li ≠ "") listItems →
  let request := handleTranslationRequest api first translators listItems in
  let request' := handleTranslationRequest api' second request.1.1 request.1.2 in
  request.2 = SelectShown first →
  match request'.2 with
  | SelectShown _ =>
      ∃ translator,
        request'.1.1 !! ("en-" +:+ second) = Some translator
        ∧ Forall2 (λ li li', translator (original li) = Resolved (textContent li'))
            listItems request'.1.2
  | TranslationFailed => map textContent request'.1.2 = map original listItems
  end.
Proof.
  intros Hfirst Hsecond Hfilled request request' Hshown.
  destruct (handleTranslationRequest_cases api first translators listItems Hfirst)
    as [(translator & _ & _ & _ & _ & Hitems)|[Hfailed _]];
    [|fold request in Hfailed; congruence].
  fold request in Hitems.
  assert (Forall2 (λ li li', original li' = original li) listItems request.1.2)
    as Horiginal.
  { clear -Hitems Hfilled. revert Hitems. generalize request.1.2.
    intros items1 Hitems.
    induction Hitems as [|li li' ? ? [_ Hsaved] _ IH]; [constructor|].
    apply Forall_cons in Hfilled as [Hli Hrest]. constructor; [|by apply IH].
    unfold original at 1, lacksOriginal. rewrite Hsaved. simpl.
    by rewrite bool_decide_eq_false_2. }
  assert (map original request.1.2 = map original listItems) as Hsame.
  { clear -Horiginal. induction Horiginal as [|li li' ? ? Hli _ IH]; simpl; [done|].
    by rewrite Hli, IH. }
  pose proof (handleTranslationRequest_cases api' second request.1.1 request.1.2
                Hsecond) as Hcases.
  cbv zeta in Hcases. fold request' in Hcases.
  destruct Hcases
    as [(translator' & Hshown' & Hcached' & _ & _ & Hitems')|(Hfailed' & _ & Hitems')].
  - rewrite Hshown'. exists translator'. split; [done|].
    clear -Horiginal Hitems'. revert Hitems'. generalize request'.1.2.
    induction Horiginal as [|li li' ? ? Hli _ IH]; intros items2 Hitems2.
    + apply Forall2_nil_inv_l in Hitems2 as ->. constructor.
    + apply Forall2_cons_inv_l in Hitems2 as (li2 & rest & [Hli2 _] & Hrest & ->).
      constructor; [by rewrite <- Hli|by apply IH].
  - rewrite Hfailed'. by rewrite Hitems'.
Qed.

(** A cached translator makes the request independent of the [Translator]
    object of the page. *)
Lemma handleTranslationRequest_cached api api' (targetLang : string) translators
    listItems (translator : Translator) :
  translators !! ("en-" +:+ targetLang) = Some translator →
  handleTranslationRequest api targetLang translators listItems
  = handleTranslationRequest api' targetLang translators listItems.
Proof.
  intros Hcached. unfold handleTranslationRequest.
  destruct (bool_decide (targetLang = "")); [done|].
  change ("en" +:+ "-" +:+ targetLang) with ("en-" +:+ targetLang).
  by rewrite Hcached.
Qed.

(** X22.  A translator is created at most once for a language: after a
    request for a language has succeeded, later requests for that language,
    on any card, do not consult the [Translator] object of the page again, and
    leave the cache as it is. *)
Theorem translator_created_once api (targetLang : string) translators listItems :
  targetLang ≠ "" →
  let request := handleTranslationRequest api targetLang translators listItems in
  request.2 = SelectShown targetLang →
  ∀ api' api'' listItems',
    handleTranslationRequest api' targetLang request.1.1 listItems'
    = handleTranslationRequest api'' targetLang request.1.1 listItems'
    ∧ (handleTranslationRequest api' targetLang request.1.1 listItems').1.1
      = request.1.1.
Proof.
  intros Hlang request Hshown api' api'' listItems'.
  destruct (handleTranslationRequest_cases api targetLang translators listItems Hlang)
    as [(translator & _ & Hcached & _)|[Hfailed _]];
    [|fold request in Hfailed; congruence].
  fold request in Hcached.
  split; [by apply (handleTranslationRequest_cached _ _ _ _ _ translator)|].
  unfold handleTranslationRequest.
  rewrite bool_decide_eq_false_2 by done.
  change ("en" +:+ "-" +:+ targetLang) with ("en-" +:+ targetLang).
  rewrite Hcached. by destruct (promiseAll _).
Qed.

End Translation.

(** ** The detailed summary *)

Section Summary.

Implicit Types (text line p : string).






End Summary.

(** ** The further theorems at work *)

Section Uses.

Lemma scoreRecentEmails_sink_calls_witness :
  length (recentWindow (inbox sevenIds) 0 (signedIn firstBatchFails)) = 7%nat
  ∧ promptCalls (scanLog sevenIds firstBatchFails)
    = [(map toEmailToScore (map message ["A"; "B"; "C"; "D"; "E"]), PromptFailed);
       (map toEmailToScore (map message ["F"; "G"]), ParsedArray [scored "F" 70])]
  ∧ length (sinkCalls (scanLog sevenIds firstBatchFails)) = 3%nat
  ∧ ∃ handed,
      last (sinkCalls (scanLog sevenIds firstBatchFails)) = Some handed
      ∧ emailsEl (scoreRecentEmails (inbox sevenIds) noProfile handleBatchProcessing 0
                    (signedIn firstBatchFails)).2
        = (handleBatchProcessing handed).2.
Proof.
  destruct (scoreRecentEmails_sink_calls (inbox sevenIds) noProfile
              handleBatchProcessing 0 (signedIn firstBatchFails)
              (scriptedSession firstBatchFails) eq_refl)
    as (Hasked & _ & _ & Hpage & Hsink & _).
  split_and!; [by vm_compute| |exact Hsink|exact Hpage].
  unfold scanLog. rewrite Hasked. by vm_compute.
Defined.

Lemma fetchMessages_complete_in_order_witness :
  fetchMessages (inbox nineIds) (RecentUnread 0) 7 (signedIn [])
  = (map message nineIds, signedIn []).
Proof.
  apply (fetchMessages_complete_in_order (inbox nineIds) (RecentUnread 0) 7 (signedIn [])
           "token"
           {| list_status := 200;
              list_json := Resolved {| messages :=
                Some (map (λ i, {| ref_id := i |}) nineIds) |} |}
           (map (λ i, {| ref_id := i |}) nineIds) (map message nineIds));
    [reflexivity|reflexivity|simpl; lia|reflexivity|].
  repeat constructor.
Defined.

Lemma generateUserProfile_survives_outage_witness :
  (generateUserProfile offline 1762000000000 profileReady).1 = Return noProfile
  ∧ storage (generateUserProfile offline 1762000000000 profileReady).2
    = {| USER_PROFILE := Some noProfile;
         LAST_ANALYSIS_TIMESTAMP := Some 1762000000000 |}
  ∧ aiSession (state (generateUserProfile offline 1762000000000 profileReady).2)
    = Some (scriptedSession []).
Proof.
  apply (generateUserProfile_survives_outage offline 1762000000000 profileReady
           {| profile_answers := [Resolved noProfile]; score_answers := [] |}
           (scriptedSession []) noProfile);
    [intros token query maxResults; reflexivity|reflexivity|reflexivity].
Defined.

Lemma built_profile_is_reused_witness :
  (generateUserProfile offline 1762000000000 profileReady).1 = Return noProfile
  ∧ (loadUserProfile offline (1762000000000 + PROFILE_REFRESH_INTERVAL) 0
       (generateUserProfile offline 1762000000000 profileReady).2).1
    = Return noProfile
  ∧ generateCalls
      (log (loadUserProfile offline (1762000000000 + PROFILE_REFRESH_INTERVAL) 0
              (generateUserProfile offline 1762000000000 profileReady).2).2)
    = generateCalls (log (generateUserProfile offline 1762000000000 profileReady).2).
Proof.
  split; [reflexivity|].
  apply (built_profile_is_reused offline (1762000000000 + PROFILE_REFRESH_INTERVAL)
           1762000000000 0 profileReady noProfile);
    [reflexivity|lia|lia].
Defined.

Lemma escapeHtml_no_markup_witness :
  "&"%char ∈ characters (escapeHtml (Some "<a href='x'>Tom & Jerry</a>"))
  ∧ "&"%char ≠ "<"%char ∧ "&"%char ≠ ">"%char
  ∧ "&"%char ≠ "034"%char ∧ "&"%char ≠ "'"%char.
Proof.
  assert ("&"%char ∈ characters (escapeHtml (Some "<a href='x'>Tom & Jerry</a>")))
    as Hin by (vm_compute; constructor).
  split; [exact Hin|].
  exact (escapeHtml_no_markup (Some "<a href='x'>Tom & Jerry</a>") "&"%char Hin).
Defined.

Lemma escapeText_injective_witness :
  escapeText "Tom & Jerry" = "Tom &amp; Jerry"
  ∧ (escapeText "Tom & Jerry" = escapeText "Tom & Jerry" → "Tom & Jerry" = "Tom & Jerry").
Proof.
  split; [reflexivity|]. intros _.
  exact (escapeText_injective "Tom & Jerry" "Tom & Jerry" eq_refl).
Defined.



Lemma scoreRecentEmails_final_page_witness :
  ∃ cards,
    emailsEl (scoreRecentEmails (inbox sevenIds) noProfile handleBatchProcessing 0
                (signedIn firstBatchFails)).2 = Cards cards
    ∧ recentWindow (inbox sevenIds) 0 (signedIn firstBatchFails) ≠ []
    ∧ map card_emailId cards
      ≡ₚ map email_id (recentWindow (inbox sevenIds) 0 (signedIn firstBatchFails)).
Proof.
  assert (is_Some (aiSession (state (signedIn firstBatchFails)))) as Hsession
    by by eexists.
  pose proof (scoreRecentEmails_final_page (inbox sevenIds) noProfile 0
                (signedIn firstBatchFails) Hsession) as Hpage.
  cbv zeta in Hpage.
  destruct (emailsEl (scoreRecentEmails (inbox sevenIds) noProfile handleBatchProcessing 0
                        (signedIn firstBatchFails)).2) as [| | | |cards];
    [done|done|by vm_compute in Hpage|done|].
  by exists cards.
Defined.

Lemma full_answers_leave_no_card_pending_witness :
  NoDup (map email_id (recentWindow (inbox sevenIds) 0 (signedIn fullAnswers)))
  ∧ (∀ call, call ∈ promptCalls (scanLog sevenIds fullAnswers) →
             answersInFull call.1 call.2)
  ∧ ∃ cards,
      emailsEl (scoreRecentEmails (inbox sevenIds) noProfile handleBatchProcessing 0
                  (signedIn fullAnswers)).2 = Cards cards
      ∧ Forall (λ c, ∃ s, card_score c = Some s ∧ 0 ≤ s) cards.
Proof.
  assert (is_Some (aiSession (state (signedIn fullAnswers)))) as Hsession by by eexists.
  assert (NoDup (map email_id (recentWindow (inbox sevenIds) 0 (signedIn fullAnswers))))
    as Hnodup by compute_done.
  assert (∀ call, call ∈ promptCalls (scanLog sevenIds fullAnswers) →
                  answersInFull call.1 call.2) as Hfull.
  { intros call Hcall. vm_compute in Hcall.
    apply elem_of_cons in Hcall as [->|Hcall].
    - split; [by intros id Hid|].
      intros r Hr.
      repeat (apply elem_of_cons in Hr as [->|Hr]; [simpl; lia|]).
      by apply elem_of_nil in Hr.
    - apply elem_of_cons in Hcall as [->|Hcall]; [done|].
      by apply elem_of_nil in Hcall. }
  split; [exact Hnodup|]. split; [exact Hfull|].
  assert (∃ cards,
            emailsEl (scoreRecentEmails (inbox sevenIds) noProfile handleBatchProcessing 0
                        (signedIn fullAnswers)).2 = Cards cards) as [cards Hcards]
    by (eexists; vm_compute; reflexivity).
  exists cards. split; [exact Hcards|].
  exact (full_answers_leave_no_card_pending (inbox sevenIds) noProfile 0
           (signedIn fullAnswers) Hsession Hnodup Hfull cards Hcards).
Defined.

Lemma analyzeAndDisplayEmails_outcomes_witness :
  emailsEl (analyzeAndDisplayEmails (inbox sevenIds) 1762000000000 1762000000000
              1761827200000 (signedIn []))
  = ErrorMessage "An error occurred: Could not generate user behavior profile."
  ∧ sinkCalls (since (signedIn [])
                 (analyzeAndDisplayEmails (inbox sevenIds) 1762000000000 1762000000000
                    1761827200000 (signedIn []))) = []
  ∧ rendered (emailsEl (analyzeAndDisplayEmails offline 1762000000000 1762000000000
                          1761827200000 profileReady)).
Proof.
  assert (is_Some (aiSession (state (signedIn [])))) as Hsession by by eexists.
  assert (is_Some (aiSession (state profileReady))) as Hsession' by by eexists.
  destruct (analyzeAndDisplayEmails_outcomes (inbox sevenIds) 1762000000000
              1762000000000 1761827200000 (signedIn []) eq_refl Hsession)
    as [(Hpage & _ & Hsink & _)|(_ & Hstatus & _)];
    [|by vm_compute in Hstatus].
  split; [exact Hpage|]. split; [exact Hsink|].
  destruct (analyzeAndDisplayEmails_outcomes offline 1762000000000
              1762000000000 1761827200000 profileReady eq_refl Hsession')
    as [(Hpage' & _)|(Hrendered & _)];
    [by vm_compute in Hpage'|exact Hrendered].
Defined.

Lemma handleSignOut_ends_session_witness :
  (handleSignOut (withStoredProfile 1762000000000) helpersInUse).2
  = {| summarizer := None; translators := ∅ |}
  ∧ storage (handleSignOut (withStoredProfile 1762000000000) helpersInUse).1
    = {| USER_PROFILE := None; LAST_ANALYSIS_TIMESTAMP := None |}
  ∧ fetchMessages (inbox sevenIds) (RecentUnread 0) 7
      (handleSignOut (withStoredProfile 1762000000000) helpersInUse).1
    = ([], (handleSignOut (withStoredProfile 1762000000000) helpersInUse).1).
Proof.
  destruct (handleSignOut_ends_session (withStoredProfile 1762000000000) helpersInUse
              "token" eq_refl)
    as (Hstorage & _ & Hhelpers & _ & _ & Hfetch & _).
  split; [exact Hhelpers|]. split; [exact Hstorage|].
  exact (Hfetch (inbox sevenIds) (RecentUnread 0) 7%nat).
Defined.

Lemma handleTranslationRequest_translates_originals_witness :
  (handleTranslationRequest withoutGerman "es" ∅ frenchItems).2 = SelectShown "es"
  ∧ (handleTranslationRequest withoutGerman "es" ∅ frenchItems).1.2
    = [{| textContent := "es:Invoice due Friday";
          originalText := Some "Invoice due Friday" |};
       {| textContent := "es:Reply to Ana"; originalText := Some "Reply to Ana" |}]
  ∧ ∃ translator,
      (handleTranslationRequest withoutGerman "es" ∅ frenchItems).1.1 !! "en-es"
      = Some translator
      ∧ Forall2
          (λ li li',
             (∀ saved,
                originalText li = Some saved → saved ≠ "" →
                translator saved = Resolved (textContent li')
                ∧ originalText li' = Some saved)
             ∧ (originalText li = None ∨ originalText li = Some "" →
                translator (textContent li) = Resolved (textContent li')
                ∧ originalText li' = Some (textContent li)))
          frenchItems (handleTranslationRequest withoutGerman "es" ∅ frenchItems).1.2.
Proof.
  assert ((handleTranslationRequest withoutGerman "es" ∅ frenchItems).2
          = SelectShown "es") as Hshown by by vm_compute.
  split; [exact Hshown|]. split; [by vm_compute|].
  exact (handleTranslationRequest_translates_originals withoutGerman "es" ∅ frenchItems
           ltac:(done) Hshown).
Defined.

Lemma handleTranslationRequest_failure_restores_witness :
  (handleTranslationRequest withoutGerman "de" ∅ frenchItems).2 = TranslationFailed
  ∧ map textContent (handleTranslationRequest withoutGerman "de" ∅ frenchItems).1.2
    = ["Invoice due Friday"; "Reply to Ana"]
  ∧ Forall2
      (λ li li',
         (∀ saved, originalText li = Some saved → saved ≠ "" → textContent li' = saved)
         ∧ (originalText li = None ∨ originalText li = Some "" →
            textContent li' = textContent li))
      frenchItems (handleTranslationRequest withoutGerman "de" ∅ frenchItems).1.2.
Proof.
  assert ((handleTranslationRequest withoutGerman "de" ∅ frenchItems).2
          = TranslationFailed) as Hfailed by by vm_compute.
  split; [exact Hfailed|]. split; [by vm_compute|].
  exact (proj1 (handleTranslationRequest_failure_restores withoutGerman "de" ∅
                  frenchItems Hfailed)).
Defined.

Lemma second_translation_starts_from_original_witness :
  Forall (λ li, original li ≠ "") renderedItems
  ∧ (handleTranslationRequest withoutGerman "fr" ∅ renderedItems).1.2 = frenchItems
  ∧ map textContent
      (handleTranslationRequest withoutGerman "de"
         (handleTranslationRequest withoutGerman "fr" ∅ renderedItems).1.1
         (handleTranslationRequest withoutGerman "fr" ∅ renderedItems).1.2).1.2
    = map original renderedItems.
Proof.
  assert (Forall (λ li, original li ≠ "") renderedItems) as Hfilled
    by (repeat constructor; done).
  assert ((handleTranslationRequest withoutGerman "fr" ∅ renderedItems).2
          = SelectShown "fr") as Hshown by by vm_compute.
  split; [exact Hfilled|]. split; [by vm_compute|].
  pose proof (second_translation_starts_from_original withoutGerman withoutGerman
                "fr" "de" ∅ renderedItems ltac:(done) ltac:(done) Hfilled Hshown)
    as Hsecond.
  cbv zeta in Hsecond.
  destruct ((handleTranslationRequest withoutGerman "de"
               (handleTranslationRequest withoutGerman "fr" ∅ renderedItems).1.1
               (handleTranslationRequest withoutGerman "fr" ∅ renderedItems).1.2).2)
    eqn:Hcontrol; [by vm_compute in Hcontrol|exact Hsecond].
Defined.

Lemma translator_created_once_witness :
  (handleTranslationRequest withoutGerman "fr" ∅ renderedItems).2 = SelectShown "fr"
  ∧ handleTranslationRequest outOfOrder "fr"
      (handleTranslationRequest withoutGerman "fr" ∅ renderedItems).1.1 frenchItems
    = handleTranslationRequest withoutGerman "fr"
        (handleTranslationRequest withoutGerman "fr" ∅ renderedItems).1.1 frenchItems.
Proof.
  assert ((handleTranslationRequest withoutGerman "fr" ∅ renderedItems).2
          = SelectShown "fr") as Hshown by by vm_compute.
  split; [exact Hshown|].
  exact (proj1 (translator_created_once withoutGerman "fr" ∅ renderedItems
                  ltac:(done) Hshown outOfOrder withoutGerman frenchItems)).
Defined.


End Uses.
